(** * imageToUI: the analysis-and-validation pipeline

    A shallow embedding of the numeric core of the repository:

    - [ImageAnalyzer.extractColorPalette]   (src/services/imageAnalyzer.ts)
    - [BrandDatabase.detectBrand]           (src/services/brandDatabase.ts)
    - [UIValidator.comparePixelLevel],
      [UIValidator.calculateOverallScore],
      [UIValidator.calculateConfidence]     (src/services/uiValidator.ts)

    JavaScript numbers are IEEE 754 binary64 values; they are modelled by
    Rocq's primitive [float], whose operations are the same correctly
    rounded binary64 operations.  Loop counters and array lengths, which
    hold small exact integers, are modelled by [nat]. *)

From Stdlib Require Import Reals Lra Psatz.
From Stdlib Require Import ZArith NArith List String Ascii Bool Lia Sorted.
From Stdlib Require Import Uint63 Floats DecimalString.
From Stdlib Require Strings.Byte.
Import ListNotations.

Set Warnings "-inexact-float".

(* ================================================================== *)
(** * JavaScript numbers and the [Math] functions the code calls      *)
(* ================================================================== *)

Module JS.

Definition number := float.

(** An integer as a double (exact for [|z| < 2^53]). *)
Definition ofZ (z : Z) : number :=
  if (z <? 0)%Z then (- of_uint63 (Uint63.of_Z (- z)))%float
  else of_uint63 (Uint63.of_Z z).

Definition ofNat (n : nat) : number := ofZ (Z.of_nat n).

(** [Math.round]: the integer nearest to [x], ties towards +infinity;
    NaN, the infinities and the zeros are returned unchanged.  The
    value [floor (x + 1/2)] is computed exactly on the mantissa and
    exponent of [x]. *)
Definition Math_round (x : number) : number :=
  match Prim2SF x with
  | S754_finite s m e =>
      if (0 <=? e)%Z then x
      else
        let n := if s then Z.neg m else Z.pos m in
        let z := ((2 * n + 2 ^ (- e)) / 2 ^ (1 - e))%Z in
        if (z =? 0)%Z then (if s then neg_zero else zero) else ofZ z
  | _ => x
  end.

(** [Math.max] and [Math.min] on two arguments: NaN is contagious and
    [+0] is larger than [-0]. *)
Definition Math_max (a b : number) : number :=
  if is_nan a || is_nan b then nan
  else if (a <? b)%float then b
  else if (b <? a)%float then a
  else if get_sign a then b else a.

Definition Math_min (a b : number) : number :=
  if is_nan a || is_nan b then nan
  else if (a <? b)%float then a
  else if (b <? a)%float then b
  else if get_sign a then a else b.

Definition Math_sqrt (x : number) : number := sqrt x.

(** [Math.pow(x, 2)]: the square, one correctly rounded product. *)
Definition Math_pow2 (x : number) : number := (x * x)%float.

(** The integer value of a double, when it has one. *)
Definition toZ (x : number) : option Z :=
  match Prim2SF x with
  | S754_zero _ => Some 0%Z
  | S754_finite s m e =>
      let n := if s then Z.neg m else Z.pos m in
      if (0 <=? e)%Z then Some (n * 2 ^ e)%Z
      else if (n mod 2 ^ (- e) =? 0)%Z then Some (n / 2 ^ (- e))%Z
      else None
  | _ => None
  end.

End JS.

(* ================================================================== *)
(** * Quality Aggregator (uiValidator.ts)                             *)
(* ================================================================== *)

Module QualityAggregator.
Import JS.
Local Open Scope float_scope.
Local Open Scope string_scope.

(** [ValidationResult.breakdown]: always the six keys, in this order. *)
Record Breakdown := {
  visualSimilarity    : number;
  layoutAccuracy      : number;
  colorMatching       : number;
  typographyMatch     : number;
  interactionElements : number;
  brandConsistency    : number
}.

(** [Object.entries(breakdown)] and [Object.values(breakdown)]:
    own properties in insertion order. *)
Definition entries (bd : Breakdown) : list (string * number) :=
  [ ("visualSimilarity",    visualSimilarity bd);
    ("layoutAccuracy",      layoutAccuracy bd);
    ("colorMatching",       colorMatching bd);
    ("typographyMatch",     typographyMatch bd);
    ("interactionElements", interactionElements bd);
    ("brandConsistency",    brandConsistency bd) ].

Definition values (bd : Breakdown) : list number := map snd (entries bd).

Definition weights : list (string * number) :=
  [ ("visualSimilarity",    0.25);
    ("layoutAccuracy",      0.20);
    ("colorMatching",       0.15);
    ("typographyMatch",     0.15);
    ("interactionElements", 0.15);
    ("brandConsistency",    0.10) ].

Fixpoint lookup {A} (key : string) (o : list (string * A)) : option A :=
  match o with
  | [] => None
  | (k, v) :: rest => if String.eqb k key then Some v else lookup key rest
  end.

(** [weights[key] || 0] *)
Definition weightOf (key : string) : number :=
  match lookup key weights with
  | Some w => w
  | None => 0
  end.

(** The loop of [calculateOverallScore]: [(totalScore, totalWeight)]. *)
Definition totals (bd : Breakdown) : number * number :=
  fold_left
    (fun acc kv =>
       let '(totalScore, totalWeight) := acc in
       let weight := weightOf (fst kv) in
       (totalScore + snd kv * weight, totalWeight + weight))
    (entries bd) (0, 0).

Definition calculateOverallScore (bd : Breakdown) : number :=
  let '(totalScore, totalWeight) := totals bd in
  Math_round (totalScore / totalWeight).

(** [scores.reduce((a, b) => a + b, 0)] *)
Definition sum (scores : list number) : number :=
  fold_left (fun a b => a + b) scores 0.

Definition calculateConfidence (bd : Breakdown) : number :=
  let scores := values bd in
  let average := sum scores / ofNat (List.length scores) in
  let variance :=
    fold_left (fun a b => a + Math_pow2 (b - average)) scores 0
    / ofNat (List.length scores) in
  let standardDeviation := Math_sqrt variance in
  let confidence := Math_max 0 (100 - standardDeviation) in
  Math_round confidence.

(** The quotient that [calculateOverallScore] rounds. *)
Definition weightedMean (bd : Breakdown) : number :=
  let '(totalScore, totalWeight) := totals bd in
  totalScore / totalWeight.

(** The standard deviation in the spec's words: the square root of the
    mean squared deviation from the mean (sums taken from 0, in the
    order of the scores). *)
Definition mean (scores : list number) : number :=
  sum scores / ofNat (List.length scores).

Definition stddev (scores : list number) : number :=
  Math_sqrt
    (sum (List.map (fun b => Math_pow2 (b - mean scores)) scores)
     / ofNat (List.length scores)).

(** A breakdown whose six sub-scores are all [v]. *)
Definition uniform (v : number) : Breakdown :=
  {| visualSimilarity := v; layoutAccuracy := v; colorMatching := v;
     typographyMatch := v; interactionElements := v;
     brandConsistency := v |}.

(** The breakdown of the spec's scenario, [{85,90,85,80,85,100}]. *)
Definition scenario : Breakdown :=
  {| visualSimilarity := 85; layoutAccuracy := 90; colorMatching := 85;
     typographyMatch := 80; interactionElements := 85;
     brandConsistency := 100 |}.

End QualityAggregator.

(* ================================================================== *)
(** * Color Extractor (imageAnalyzer.ts)                              *)
(* ================================================================== *)

Module ColorExtractor.
Import JS.
Local Open Scope string_scope.

(** The raw pixel buffer that [sharp(...).resize(50, 50).raw()] hands
    back: a [Buffer] of bytes. *)
Definition Buffer := list Byte.byte.

Definition byteValue (b : Byte.byte) : number :=
  ofZ (Z.of_N (Byte.to_N b)).

(** [data[i]]: a byte, or [undefined] past the end. *)
Definition at_ (data : Buffer) (i : nat) : option Byte.byte :=
  nth_error data i.

(** [Math.round(c / 16) * 16] *)
Definition roundTo16 (c : number) : number :=
  (Math_round (c / 16) * 16)%float.

(** The rounded channel of [data[i]]; [undefined / 16] is NaN. *)
Definition rounded (o : option Byte.byte) : number :=
  match o with
  | Some b => roundTo16 (byteValue b)
  | None => nan
  end.

(** [`${x}`] for a rounded channel: an integer prints in decimal and
    NaN prints as [NaN] (a rounded channel takes no other value, see
    [rounded_is_integer]). *)
Definition show (x : number) : string :=
  match toZ x with
  | Some z => NilZero.string_of_int (Z.to_int z)
  | None => "NaN"
  end.

(** [`rgb(${roundedR}, ${roundedG}, ${roundedB})`] *)
Definition rgb (r g b : number) : string :=
  "rgb(" ++ show r ++ ", " ++ show g ++ ", " ++ show b ++ ")".

(** [Map<string, number>], entries in insertion order. *)
Definition ColorMap := list (string * nat).

Fixpoint mapGet (key : string) (m : ColorMap) : option nat :=
  match m with
  | [] => None
  | (k, v) :: rest => if String.eqb k key then Some v else mapGet key rest
  end.

Fixpoint mapSet (key : string) (v : nat) (m : ColorMap) : ColorMap :=
  match m with
  | [] => [(key, v)]
  | (k, v') :: rest =>
      if String.eqb k key then (k, v) :: rest
      else (k, v') :: mapSet key v rest
  end.

(** The colour key of the sample that starts at index [i]. *)
Definition colorAt (data : Buffer) (i : nat) : string :=
  let roundedR := rounded (at_ data i) in
  let roundedG := rounded (at_ data (i + 1)) in
  let roundedB := rounded (at_ data (i + 2)) in
  rgb roundedR roundedG roundedB.

(** One iteration of the sampling loop, at index [i]. *)
Definition sample (data : Buffer) (colorMap : ColorMap) (i : nat) : ColorMap :=
  let color := colorAt data i in
  mapSet color (match mapGet color colorMap with Some n => n | None => 0 end + 1)
         colorMap.

(** The values of [i] in [for (let i = 0; i < data.length; i += 3)]. *)
Definition indices (len : nat) : list nat :=
  List.map (fun k => 3 * k) (seq 0 ((len + 2) / 3)).

Definition histogram (data : Buffer) : ColorMap :=
  fold_left (sample data) (indices (List.length data)) [].

(** [Array.prototype.sort] with a comparator: a stable sort. *)
Fixpoint insertSorted {A} (cmp : A -> A -> Z) (x : A) (l : list A) : list A :=
  match l with
  | [] => [x]
  | y :: l' =>
      if (cmp x y <=? 0)%Z then x :: l else y :: insertSorted cmp x l'
  end.

Definition sortBy {A} (cmp : A -> A -> Z) (l : list A) : list A :=
  fold_right (insertSorted cmp) [] l.

(** [(a, b) => b[1] - a[1]] *)
Definition byCountDesc (a b : string * nat) : Z :=
  (Z.of_nat (snd b) - Z.of_nat (snd a))%Z.

(** The five most frequent entries, most frequent first. *)
Definition top5 (data : Buffer) : list (string * nat) :=
  firstn 5 (sortBy byCountDesc (histogram data)).

Definition fallbackPalette : list string :=
  ["#ffffff"; "#000000"; "#f0f0f0"; "#333333"; "#007bff"].

(** [extractColorPalette]; [None] stands for a [sharp] call that
    throws (an undecodable image). *)
Definition extractColorPalette (decoded : option Buffer) : list string :=
  match decoded with
  | Some data => List.map fst (top5 data)
  | None => fallbackPalette
  end.

(** A solid-white image, resized to 50x50, three channels. *)
Definition solidWhite : Buffer := repeat Byte.xff (50 * 50 * 3).

(** A hex colour string: [#] followed by six hexadecimal digits. *)
Definition isHexDigit (a : ascii) : bool :=
  let n := nat_of_ascii a in
  (((48 <=? n) && (n <=? 57)) || ((65 <=? n) && (n <=? 70))
   || ((97 <=? n) && (n <=? 102)))%nat.

Definition isHexColor (s : string) : bool :=
  match s with
  | String "#" digits =>
      (String.length digits =? 6)%nat && forallb isHexDigit (list_ascii_of_string digits)
  | _ => false
  end.

End ColorExtractor.

(* ================================================================== *)
(** * Brand Identifier (brandDatabase.ts)                             *)
(* ================================================================== *)

Module BrandIdentifier.
Import JS.
Local Open Scope string_scope.

(** ** Strings and regular expressions

    A JavaScript string is a sequence of UTF-16 code units. *)
Definition jsstring := list N.

(** The code units of an ASCII literal. *)
Definition str (s : string) : jsstring :=
  List.map N_of_ascii (list_ascii_of_string s).

(** The regular expressions of the registry are sequences of literal
    characters and [.], each possibly followed by [?]. *)
Inductive atom := Chr (c : N) | Dot.

Record item := { it_atom : atom; it_optional : bool }.

(** A [RegExp] with the [g] flag; [ignoreCase] is the [i] flag. *)
Record RegExp := { source : list item; ignoreCase : bool }.

(** Case folding of the [i] flag.  Without the [u] flag a character
    is compared through its upper-case form, and a character outside
    ASCII never folds into ASCII: on the ASCII letters and the Hangul
    syllables of the registry this is the map below. *)
Definition canonicalize (c : N) : N :=
  if ((97 <=? c) && (c <=? 122))%N then (c - 32)%N else c.

Definition isLineTerminator (c : N) : bool :=
  ((c =? 10) || (c =? 13) || (c =? 8232) || (c =? 8233))%N.

Definition atomMatches (ic : bool) (a : atom) (c : N) : bool :=
  match a with
  | Chr p => if ic then (canonicalize p =? canonicalize c)%N else (p =? c)%N
  | Dot => negb (isLineTerminator c)
  end.

(** A match of the pattern at the head of [s] (backtracking, [?] is
    greedy): the number of code units it consumes. *)
Fixpoint matchHere (ic : bool) (items : list item) (s : jsstring) : option nat :=
  match items with
  | [] => Some 0
  | it :: rest =>
      let skipped := if it_optional it then matchHere ic rest s else None in
      match s with
      | c :: s' =>
          if atomMatches ic (it_atom it) c then
            match matchHere ic rest s' with
            | Some n => Some (S n)
            | None => skipped
            end
          else skipped
      | [] => skipped
      end
  end.

(** [(text.match(regex) || []).length] for a global regex: matches
    are searched from left to right and do not overlap; after an empty
    match the search moves on by one code unit.  [skip] counts the
    code units of the last match that are still to be passed. *)
Fixpoint countFrom (re : RegExp) (skip : nat) (s : jsstring) : nat :=
  match s with
  | [] =>
      match skip, matchHere (ignoreCase re) (source re) [] with
      | O, Some _ => 1
      | _, _ => 0
      end
  | _ :: tl =>
      match skip with
      | S k => countFrom re k tl
      | O =>
          match matchHere (ignoreCase re) (source re) s with
          | Some (S n) => S (countFrom re n tl)
          | Some O => S (countFrom re 0 tl)
          | None => countFrom re 0 tl
          end
      end
  end.

Definition matchCount (re : RegExp) (text : jsstring) : nat :=
  countFrom re 0 text.

Definition literal (s : jsstring) : list item :=
  List.map (fun c => {| it_atom := Chr c; it_optional := false |}) s.

(** [new RegExp(keyword, 'gi')]: the keywords of the registry hold no
    regular-expression metacharacter, so the pattern is the keyword
    itself. *)
Definition keywordRegExp (keyword : jsstring) : RegExp :=
  {| source := literal keyword; ignoreCase := true |}.

(** [String.prototype.toLowerCase] on the ASCII letters (the brand
    colours are ASCII, and no character outside ASCII lowers to a
    hexadecimal digit or to [#]). *)
Definition toLowerCase (s : jsstring) : jsstring :=
  List.map (fun c => if ((65 <=? c) && (c <=? 90))%N then (c + 32)%N else c) s.

Fixpoint jsstring_eqb (a b : jsstring) : bool :=
  match a, b with
  | [], [] => true
  | x :: a', y :: b' => (x =? y)%N && jsstring_eqb a' b'
  | _, _ => false
  end.

(** [Array.prototype.includes] *)
Definition includes (l : list jsstring) (x : jsstring) : bool :=
  existsb (jsstring_eqb x) l.

(** ** The registry *)

(** [BrandAssets.colors], the three fields [detectBrand] reads. *)
Record Colors := { primary : jsstring; secondary : jsstring; accent : jsstring }.

(** The three [Map]s of the class, entries in insertion order. *)
Record BrandDatabase := {
  brands        : list (string * Colors);
  brandKeywords : list (string * list jsstring);
  brandPatterns : list (string * list RegExp)
}.

Fixpoint get {A} (key : string) (m : list (string * A)) : option A :=
  match m with
  | [] => None
  | (k, v) :: rest => if String.eqb k key then Some v else get key rest
  end.

Fixpoint set {A} (key : string) (v : A) (m : list (string * A)) : list (string * A) :=
  match m with
  | [] => [(key, v)]
  | (k, v') :: rest =>
      if String.eqb k key then (k, v) :: rest else (k, v') :: set key v rest
  end.

(** ** [detectBrand] *)

Record BrandMatch := { brand : option string; confidence : number }.

Section DetectBrand.
Variable db : BrandDatabase.
Variable text : jsstring.
Variable colorPalette : list jsstring.

(** The body of the [for ... of this.brandKeywords] loop up to the
    test [score > 0]. *)
Definition scoreOf (brandName : string) (keywords : list jsstring) : nat :=
  let score := 0 in
  let score :=
    fold_left (fun score keyword =>
                 score + matchCount (keywordRegExp keyword) text * 10)
              keywords score in
  let patterns :=
    match get brandName (brandPatterns db) with
    | Some ps => ps
    | None => []
    end in
  let score :=
    fold_left (fun score pattern => score + matchCount pattern text * 15)
              patterns score in
  if (0 <? List.length colorPalette)%nat then
    match get brandName (brands db) with
    | Some brandAssets =>
        let brandColors :=
          [ toLowerCase (primary brandAssets);
            toLowerCase (secondary brandAssets);
            toLowerCase (accent brandAssets) ] in
        fold_left (fun score color =>
                     if includes brandColors (toLowerCase color)
                     then score + 25 else score)
                  colorPalette score
    | None => score
    end
  else score.

Definition scores : list (string * nat) :=
  fold_left (fun scores entry =>
               let score := scoreOf (fst entry) (snd entry) in
               if (0 <? score)%nat then set (fst entry) score scores
               else scores)
            (brandKeywords db) [].

(** [(a, b) => b[1] - a[1]] *)
Definition byScoreDesc (a b : string * nat) : Z :=
  (Z.of_nat (snd b) - Z.of_nat (snd a))%Z.

Definition detectBrand : BrandMatch :=
  match ColorExtractor.sortBy byScoreDesc scores with
  | [] => {| brand := None; confidence := 0%float |}
  | topBrand :: _ =>
      let maxScore := 100%float in
      let confidence := Math_min (ofNat (snd topBrand) / maxScore)%float 1%float in
      {| brand := if (0.3 <? confidence)%float then Some (fst topBrand) else None;
         confidence := confidence |}
  end.
End DetectBrand.

(** ** The score in the spec's words *)






(** ** The shipped registry ([initializeBrands], [setupBrandDetection]) *)

Definition lit (s : string) : list item := literal (str s).
Definition anyOpt : list item := [ {| it_atom := Dot; it_optional := true |} ].
Definition gi (src : list item) : RegExp := {| source := src; ignoreCase := true |}.
Definition g (src : list item) : RegExp := {| source := src; ignoreCase := false |}.

(** Hangul keywords, as UTF-16 code units. *)
Definition ko_toss : jsstring := [53664; 49828]%N.
Definition ko_vivarepublica : jsstring :=
  [48708; 48148; 47532; 54140; 48660; 47532; 52852]%N.
Definition ko_songgeum : jsstring := [49569; 44552]%N.
Definition ko_ganpyeongyeolje : jsstring := [44036; 54200; 44208; 51228]%N.
Definition ko_tosspay : jsstring := [53664; 49828; 54168; 51060]%N.
Definition ko_tuja : jsstring := [53804; 51088]%N.
Definition ko_jeunggwon : jsstring := [51613; 44428]%N.
Definition ko_jusik : jsstring := [51452; 49885]%N.
Definition ko_kakao : jsstring := [52852; 52852; 50724]%N.
Definition ko_kakaobank : jsstring := [52852; 52852; 50724; 48197; 53356]%N.
Definition ko_kakaotalk : jsstring := [52852; 52852; 50724; 53665]%N.
Definition ko_kakaopay : jsstring := [52852; 52852; 50724; 54168; 51060]%N.
Definition ko_naver : jsstring := [45348; 51060; 48260]%N.
Definition ko_line : jsstring := [46972; 51064]%N.
Definition ko_naverpay : jsstring := [45348; 51060; 48260; 54168; 51060]%N.
Definition ko_webtoon : jsstring := [50937; 53808]%N.

Definition registry : BrandDatabase :=
  {| brands :=
       [ ("toss",  {| primary := str "#0064FF"; secondary := str "#F5F7FA";
                      accent := str "#FF6B35" |});
         ("kakao", {| primary := str "#FEE500"; secondary := str "#191919";
                      accent := str "#FF6B35" |});
         ("naver", {| primary := str "#03C75A"; secondary := str "#F7F9FA";
                      accent := str "#1EC800" |}) ];
     brandKeywords :=
       [ ("toss",
          [ str "toss"; ko_toss; str "viva republica"; ko_vivarepublica;
            ko_songgeum; ko_ganpyeongyeolje; ko_tosspay; str "toss pay";
            ko_tuja; ko_jeunggwon; ko_jusik; str "stock"; str "securities" ]);
         ("kakao",
          [ str "kakao"; ko_kakao; str "kakaobank"; ko_kakaobank;
            str "kakaotalk"; ko_kakaotalk; str "kakaopay"; ko_kakaopay ]);
         ("naver",
          [ str "naver"; ko_naver; str "line"; ko_line;
            str "naver pay"; ko_naverpay; str "webtoon"; ko_webtoon ]) ];
     brandPatterns :=
       [ ("toss",
          [ gi (lit "toss"); g (literal ko_toss);
            gi (lit "viva" ++ anyOpt ++ lit "republica");
            gi (lit "#0064ff"); gi (lit "toss" ++ anyOpt ++ lit "face") ]);
         ("kakao",
          [ gi (lit "kakao"); g (literal ko_kakao); gi (lit "#fee500");
            gi (lit "kakaoregular") ]);
         ("naver",
          [ gi (lit "naver"); g (literal ko_naver); gi (lit "#03c75a");
            gi (lit "noto" ++ anyOpt ++ lit "sans") ]) ] |}.

End BrandIdentifier.

(* ================================================================== *)
(** * Pixel Comparator (uiValidator.ts)                               *)
(* ================================================================== *)

Module PixelComparator.
Import JS.
Local Open Scope float_scope.

(** [Jimp.intToRGBA(image.getPixelColor(x, y))]: the channels of a
    pixel, each a byte (the alpha channel is not read). *)
Record RGBA := { r : Byte.byte; g : Byte.byte; b : Byte.byte }.

(** A decoded [Jimp] image. *)
Record Image := {
  getWidth  : nat;
  getHeight : nat;
  getPixelColor : nat -> nat -> RGBA
}.

Definition channel (c : Byte.byte) : number := ofZ (Z.of_N (Byte.to_N c)).

Record Region := { x : nat; y : nat; width : nat; height : nat }.

Inductive DifferenceType := color | structure | missing | extra.

Record ImageDifference := {
  region      : Region;
  type        : DifferenceType;
  severity    : number;
  description : number   (* the number printed after "Color difference: " *)
}.

Record PixelComparisonResult := {
  similarity  : number;
  differences : list ImageDifference
}.

(** The Euclidean distance of two pixels in RGB space. *)
Definition distance (color1 color2 : RGBA) : number :=
  Math_sqrt
    (Math_pow2 (channel (r color2) - channel (r color1))
     + Math_pow2 (channel (g color2) - channel (g color1))
     + Math_pow2 (channel (b color2) - channel (b color1))).

Definition threshold : number := 30.

(** The variables the two loops update. *)
Record LoopState := {
  totalDifference : number;
  diffs           : list ImageDifference;
  pixelCount      : nat
}.

Section Compare.
(** [image.resize(w, h)] is Jimp's; the comparison only relies on it
    being a function of the image and the target size. *)
Variable resize : nat -> nat -> Image -> Image.

Definition body (original rendered : Image) (st : LoopState) (x y : nat)
  : LoopState :=
  let color1 := getPixelColor original x y in
  let color2 := getPixelColor rendered x y in
  let diff := distance color1 color2 in
  {| totalDifference := totalDifference st + diff;
     pixelCount := S (pixelCount st);
     diffs :=
       if (threshold <? diff) && (List.length (diffs st) <? 100)%nat
       then diffs st ++
            [ {| region := {| x := x; y := y; width := 1; height := 1 |};
                 type := color;
                 severity := Math_min (diff / 255) 1;
                 description := Math_round diff |} ]
       else diffs st |}.

Definition scan (original rendered : Image) (width height : nat) : LoopState :=
  fold_left
    (fun st y =>
       fold_left (fun st x => body original rendered st x y) (seq 0 width) st)
    (seq 0 height)
    {| totalDifference := 0; diffs := []; pixelCount := 0 |}.

(** [comparePixelLevel]; [None] stands for a [Jimp.read] that throws. *)
Definition comparePixelLevel (original rendered : option Image)
  : PixelComparisonResult :=
  match original, rendered with
  | Some original, Some rendered =>
      let width := Nat.min (getWidth original) (getWidth rendered) in
      let height := Nat.min (getHeight original) (getHeight rendered) in
      let original := resize width height original in
      let rendered := resize width height rendered in
      let st := scan original rendered width height in
      let maxPossibleDifference :=
        ofNat (pixelCount st) * 255 * Math_sqrt 3 in
      let similarity := 1 - totalDifference st / maxPossibleDifference in
      {| similarity := Math_max 0 similarity;
         differences := firstn 100 (diffs st) |}
  | _, _ => {| similarity := 0.5; differences := [] |}
  end.
End Compare.

(** An image [Jimp.read] can return: it has at least one pixel, and
    its pixel count is small enough to be counted exactly in a double. *)
Definition decodable (img : Image) : Prop :=
  (0 < getWidth img)%nat
  /\ (0 < getHeight img)%nat
  /\ (Z.of_nat (getWidth img) * Z.of_nat (getHeight img) < 2 ^ 53)%Z.

(** The outcome of [Jimp.read]: a decodable image, or a failure. *)
Definition readable (o : option Image) : Prop :=
  match o with
  | Some img => decodable img
  | None => True
  end.

(** The pixels in the order the two loops visit them: row by row
    from the top, each row from the left. *)
Definition scanOrder (width height : nat) : list (nat * nat) :=
  flat_map (fun y => List.map (fun x => (x, y)) (seq 0 width)) (seq 0 height).

Definition distanceAt (original rendered : Image) (p : nat * nat) : number :=
  distance (getPixelColor original (fst p) (snd p))
           (getPixelColor rendered (fst p) (snd p)).

Definition exceeds (original rendered : Image) (p : nat * nat) : bool :=
  threshold <? distanceAt original rendered p.

Definition differenceAt (original rendered : Image) (p : nat * nat)
  : ImageDifference :=
  let diff := distanceAt original rendered p in
  {| region := {| x := fst p; y := snd p; width := 1; height := 1 |};
     type := color;
     severity := Math_min (diff / 255) 1;
     description := Math_round diff |}.

(** "Most severe first": no severity is followed by a larger one. *)
Fixpoint nonIncreasing (l : list number) : bool :=
  match l with
  | a :: (b :: _) as rest => (b <=? a) && nonIncreasing rest
  | _ => true
  end.

(** A stand-in for Jimp's resize in the examples: the image keeps its
    pixels and takes the target size (what Jimp does when the size
    does not change). *)
Definition keep (w h : nat) (img : Image) : Image :=
  {| getWidth := w; getHeight := h; getPixelColor := getPixelColor img |}.

Definition solid (w h : nat) (c : RGBA) : Image :=
  {| getWidth := w; getHeight := h; getPixelColor := fun _ _ => c |}.

Definition white : RGBA := {| r := Byte.xff; g := Byte.xff; b := Byte.xff |}.
Definition black : RGBA := {| r := Byte.x00; g := Byte.x00; b := Byte.x00 |}.
Definition darkRed : RGBA := {| r := Byte.x28; g := Byte.x00; b := Byte.x00 |}.

(** A 2x1 image: a dark red pixel, then a white one. *)
Definition redThenWhite : Image :=
  {| getWidth := 2; getHeight := 1;
     getPixelColor := fun x _ => match x with O => darkRed | _ => white end |}.

End PixelComparator.

(* ================================================================== *)
(** * Arrays                                                          *)
(* ================================================================== *)

Module JSArray.

(** [Array.prototype.push] *)
Definition push {A} (array : list A) (element : A) : list A :=
  array ++ [element].

End JSArray.

(* ================================================================== *)
(** * The rest of the validator (uiValidator.ts)                      *)
(* ================================================================== *)

Module UIValidator.
Import JS JSArray QualityAggregator.
Local Open Scope string_scope.

Definition jsstring := BrandIdentifier.jsstring.
Definition str := BrandIdentifier.str.

(** ** The regular expressions of [analyzeStructure]

    They are alternatives of sequences of one character or one negated
    character, some under a star; all carry the [g] flag and none the
    [i] flag. *)
Inductive charClass := Only (c : N) | AnyBut (c : N).

Record piece := { class : charClass; starred : bool }.

Definition Pattern := list (list piece).

Definition classMatches (k : charClass) (c : N) : bool :=
  match k with
  | Only p => (p =? c)%N
  | AnyBut p => negb (p =? c)%N
  end.

(** A match of a sequence at the head of [s]: the number of code units
    it consumes.  The star is greedy and gives back characters when
    the rest of the sequence does not match. *)
Fixpoint matchPieces (ps : list piece) (s : jsstring) {struct ps} : option nat :=
  match ps with
  | [] => Some 0
  | p :: rest =>
      if starred p then
        (fix star (s : jsstring) : option nat :=
           match s with
           | c :: s' =>
               if classMatches (class p) c then
                 match star s' with
                 | Some n => Some (S n)
                 | None => matchPieces rest s
                 end
               else matchPieces rest s
           | [] => matchPieces rest s
           end) s
      else
        match s with
        | c :: s' =>
            if classMatches (class p) c
            then option_map S (matchPieces rest s')
            else None
        | [] => None
        end
  end.

(** The alternatives are tried from left to right. *)
Fixpoint matchAt (re : Pattern) (s : jsstring) : option nat :=
  match re with
  | [] => None
  | alt :: others =>
      match matchPieces alt s with
      | Some n => Some n
      | None => matchAt others s
      end
  end.

(** [(code.match(re) || []).length]: the matches are searched from left
    to right and do not overlap ([skip] counts the code units of the
    last match still to be passed). *)
Fixpoint countFrom (re : Pattern) (skip : nat) (s : jsstring) : nat :=
  match s with
  | [] =>
      match skip, matchAt re [] with
      | O, Some _ => 1
      | _, _ => 0
      end
  | _ :: tl =>
      match skip with
      | S k => countFrom re k tl
      | O =>
          match matchAt re s with
          | Some (S n) => S (countFrom re n tl)
          | Some O => S (countFrom re 0 tl)
          | None => countFrom re 0 tl
          end
      end
  end.

Definition matchCount (re : Pattern) (code : jsstring) : nat :=
  countFrom re 0 code.

Definition once (k : charClass) : piece := {| class := k; starred := false |}.
Definition star (k : charClass) : piece := {| class := k; starred := true |}.
Definition word (s : string) : list piece :=
  List.map (fun c => once (Only c)) (str s).

(** [/<[^\/][^>]*>/g] (60 is [<], 47 is [/], 62 is [>]) *)
Definition openingTag : Pattern :=
  [ [ once (Only 60); once (AnyBut 47); star (AnyBut 62); once (Only 62) ]%N ].

(** [/onclick|addEventListener|onPress/g] *)
Definition handler : Pattern :=
  [ word "onclick"; word "addEventListener"; word "onPress" ].

(** The pattern of a [class] attribute: [class=], a double quote (34),
    any run of other characters, a double quote; with the [g] flag. *)
Definition classAttribute : Pattern :=
  [ (word "class=" ++ [ once (Only 34); star (AnyBut 34); once (Only 34) ]%N)%list ].

(** ** [performAIAnalysis] *)

Local Open Scope float_scope.
Local Open Scope string_scope.

Module AI.
Record Analysis := {
  colorScore      : number;
  typographyScore : number;
  layoutScore     : number;
  brandScore      : number;
  details         : string
}.
End AI.

(** The argument is what the [try] block obtains: [None] when reading
    an image or the request throws, otherwise
    [analysis.choices[0]?.message?.content]. *)
Definition performAIAnalysis (content : option (option string)) : AI.Analysis :=
  match content with
  | Some content =>
      let response :=
        match content with
        | Some (String c s) => String c s
        | _ => EmptyString
        end in
      {| AI.colorScore := 85; AI.typographyScore := 80; AI.layoutScore := 90;
         AI.brandScore := 85; AI.details := response |}
  | None =>
      {| AI.colorScore := 70; AI.typographyScore := 70; AI.layoutScore := 70;
         AI.brandScore := 70; AI.details := "AI analysis failed" |}
  end.

(** ** [analyzeStructure] *)

(** What the validator reads of an [AdvancedAnalysisResult]: the
    number of children of the component tree (when it has any), the
    number of interaction elements and the detected brand. *)
Module Advanced.
Record AnalysisResult := {
  children            : option nat;
  interactionElements : nat;
  detectedBrand       : option string
}.
End Advanced.

Module Structure.
Record Analysis := {
  layoutScore           : number;
  interactionScore      : number;
  structuralComplexity  : nat;
  interactionComplexity : nat
}.
End Structure.

Definition analyzeStructure (code : jsstring)
           (analysisResult : Advanced.AnalysisResult) : Structure.Analysis :=
  let elementCount := matchCount openingTag code in
  let interactionElements := matchCount handler code in
  let cssClasses := matchCount classAttribute code in
  let expectedElements :=
    match Advanced.children analysisResult with
    | Some (S n) => S n
    | _ => 5%nat
    end in
  let expectedInteractions := Advanced.interactionElements analysisResult in
  let layoutScore :=
    Math_min 100 (ofNat elementCount / ofNat expectedElements * 100)%float in
  let interactionScore :=
    if (0 <? expectedInteractions)%nat
    then Math_min 100
           (ofNat interactionElements / ofNat expectedInteractions * 100)%float
    else 100%float in
  {| Structure.layoutScore := layoutScore;
     Structure.interactionScore := interactionScore;
     Structure.structuralComplexity := elementCount;
     Structure.interactionComplexity := interactionElements |}.

(** ** [validateBrandConsistency] *)

Fixpoint startsWith (s prefix : jsstring) : bool :=
  match prefix, s with
  | [], _ => true
  | p :: prefix', c :: s' => (p =? c)%N && startsWith s' prefix'
  | _ :: _, [] => false
  end.

(** [String.prototype.includes] *)
Fixpoint includes (s search : jsstring) : bool :=
  startsWith s search
  || match s with
     | [] => false
     | _ :: s' => includes s' search
     end.

Definition validateBrandConsistency (detectedBrand : option string)
           (code : jsstring) : number :=
  let score := 100%float in
  let score :=
    match detectedBrand with
    | Some name =>
        if String.eqb name "toss" then
          let tossBlue := str "#0064FF" in
          let score :=
            if negb (includes code tossBlue) && negb (includes code (str "0064FF"))
            then (score - 30)%float else score in
          let score :=
            if negb (includes code (str "Toss Face"))
               && negb (includes code (str "system-ui"))
            then (score - 20)%float else score in
          let score :=
            if negb (includes code (str "border-radius"))
               && negb (includes code (str "borderRadius"))
            then (score - 20)%float else score in
          score
        else score
    | None => score
    end in
  Math_max 0 score.

(** ** [identifyIssues] *)

Inductive IssueType := layout | color | typography | interaction | brand.

Inductive Severity := low | medium | high | critical.

Record ValidationIssue := {
  type        : IssueType;
  severity    : Severity;
  description : string;
  location    : option PixelComparator.Region;
  suggestion  : string
}.

Definition issue (t : IssueType) (s : Severity) (d sg : string) : ValidationIssue :=
  {| type := t; severity := s; description := d; location := None;
     suggestion := sg |}.

Definition identifyIssues (pixelComparison : PixelComparator.PixelComparisonResult)
           (aiAnalysis : AI.Analysis) (structuralAnalysis : Structure.Analysis)
  : list ValidationIssue :=
  let issues := [] in
  let issues :=
    if (PixelComparator.similarity pixelComparison <? 0.8)%float
    then push issues
           (issue layout high "시각적 유사도가 낮습니다"
                       "레이아웃과 색상을 원본과 더 일치하도록 조정하세요")
    else issues in
  let issues :=
    if (Structure.layoutScore structuralAnalysis <? 70)%float
    then push issues
           (issue layout medium "레이아웃 구조가 원본과 다릅니다"
                       "HTML 구조를 원본 이미지와 더 일치하도록 수정하세요")
    else issues in
  let issues :=
    if (Structure.interactionScore structuralAnalysis <? 80)%float
    then push issues
           (issue interaction medium "인터랙션 요소가 부족합니다"
                       "버튼, 링크 등의 클릭 가능한 요소를 추가하세요")
    else issues in
  let issues :=
    if (AI.colorScore aiAnalysis <? 70)%float
    then push issues
           (issue color high "색상이 원본과 다릅니다"
                       "브랜드 색상을 정확히 사용하세요")
    else issues in
  let issues :=
    if (AI.typographyScore aiAnalysis <? 70)%float
    then push issues
           (issue typography medium "폰트가 원본과 다릅니다"
                       "올바른 폰트 패밀리와 크기를 사용하세요")
    else issues in
  issues.

(** ** [generateImprovements] *)

Definition generalAdvice : list string :=
  [ "반응형 디자인을 추가하여 모바일 호환성을 확보하세요";
    "접근성(WCAG) 가이드라인을 준수하도록 개선하세요";
    "로딩 성능 최적화를 위해 이미지와 폰트를 최적화하세요" ].

Definition generateImprovements (issues : list ValidationIssue)
           (breakdown : Breakdown) : list string :=
  let improvements := [] in
  let improvements :=
    if (visualSimilarity breakdown <? 80)%float
    then push improvements
           ("레이아웃 간격과 비율을 원본과 정확히 일치시키세요")
    else improvements in
  let improvements :=
    if (colorMatching breakdown <? 80)%float
    then push improvements
           ("브랜드 가이드라인에 따른 정확한 색상 코드를 사용하세요")
    else improvements in
  let improvements :=
    if (typographyMatch breakdown <? 80)%float
    then push improvements
           ("원본과 동일한 폰트 패밀리, 크기, 굵기를 적용하세요")
    else improvements in
  let improvements :=
    if (interactionElements breakdown <? 80)%float
    then push improvements
           ("모든 클릭 가능한 요소에 적절한 이벤트 핸들러를 추가하세요")
    else improvements in
  let improvements :=
    if (brandConsistency breakdown <? 80)%float
    then push improvements
           ("브랜드 아이덴티티를 정확히 반영하도록 디자인을 수정하세요")
    else improvements in
  (improvements ++ generalAdvice)%list.

(** ** [validateUI] *)

Record ValidationResult := {
  overallScore : number;
  breakdown    : Breakdown;
  issues       : list ValidationIssue;
  improvements : list string;
  confidence   : number
}.

Section ValidateUI.
Variable resize : nat -> nat -> PixelComparator.Image -> PixelComparator.Image.

(** [validateUI] once the candidate has been rendered and its source
    read ([renderCodeToImage] or [fs.readFile] throwing makes
    [validateUI] throw).  [original] and [rendered] are the outcomes
    of the two [Jimp.read] calls, [content] is the outcome of the
    request of [performAIAnalysis], [code] the source text. *)
Definition validateUI (original rendered : option PixelComparator.Image)
           (content : option (option string)) (code : jsstring)
           (analysisResult : Advanced.AnalysisResult) : ValidationResult :=
  let pixelComparison :=
    PixelComparator.comparePixelLevel resize original rendered in
  let aiAnalysis := performAIAnalysis content in
  let structuralAnalysis := analyzeStructure code analysisResult in
  let brandConsistency :=
    validateBrandConsistency (Advanced.detectedBrand analysisResult) code in
  let breakdown :=
    {| visualSimilarity := (PixelComparator.similarity pixelComparison * 100)%float;
       layoutAccuracy := Structure.layoutScore structuralAnalysis;
       colorMatching := AI.colorScore aiAnalysis;
       typographyMatch := AI.typographyScore aiAnalysis;
       interactionElements := Structure.interactionScore structuralAnalysis;
       brandConsistency := brandConsistency |} in
  let overallScore := calculateOverallScore breakdown in
  let issues := identifyIssues pixelComparison aiAnalysis structuralAnalysis in
  {| overallScore := overallScore;
     breakdown := breakdown;
     issues := issues;
     improvements := generateImprovements issues breakdown;
     confidence := calculateConfidence breakdown |}.
End ValidateUI.

(** ** [generateRealTimeImprovements] *)

Definition quote : string := String "034" EmptyString.

(** The suggestion pushed for one issue; a [brand] issue matches no
    [case] and pushes nothing. *)
Definition suggestionFor (t : IssueType) : list string :=
  match t with
  | color => [ "CSS에서 색상을 다음으로 변경하세요: background-color: #0064FF" ]
  | typography =>
      [ "폰트를 다음으로 변경하세요: font-family: 'Toss Face', system-ui, sans-serif" ]
  | layout => [ "간격을 조정하세요: margin: 16px; padding: 12px" ]
  | interaction =>
      [ "클릭 이벤트를 추가하세요: onclick=" ++ quote ++ "handleClick()" ++ quote ]
  | brand => []
  end.

(** [generateRealTimeImprovements], once the source has been read. *)
Definition generateRealTimeImprovements (validationResult : ValidationResult)
  : list string :=
  fold_left (fun improvements issue =>
               (improvements ++ suggestionFor (type issue))%list)
            (issues validationResult) [].

End UIValidator.

(* ================================================================== *)
(** * The basic elements of an analysis (imageAnalyzer.ts)            *)
(* ================================================================== *)

Module ImageAnalyzer.
Import JS JSArray.
Local Open Scope float_scope.
Local Open Scope string_scope.

Inductive ElementType :=
  button | input | text | image | container | header | footer | navigation | card.

Record Position := { x : number; y : number; width : number; height : number }.

Record Styles := {
  backgroundColor : option string;
  color           : option string;
  fontSize        : option number;
  fontWeight      : option string;
  borderRadius    : option number;
  padding         : option number;
  margin          : option number
}.

(** A [UIElement]; the optional [attributes] are never set here. *)
Record UIElement := {
  type     : ElementType;
  position : Position;
  content  : option string;
  styles   : Styles
}.

Record Dimensions := { imageWidth : number; imageHeight : number }.

Inductive LayoutType := grid | flexbox | absolute | flow.
Inductive Direction := row | column.

Record LayoutInfo := {
  layoutType : LayoutType;
  direction  : Direction;
  alignment  : string;
  spacing    : number;
  responsive : bool
}.

Record TypographyInfo := {
  primaryFont   : string;
  secondaryFont : option string;
  headingSizes  : list number;
  bodySize      : number;
  lineHeight    : number
}.

Inductive Theme := light | dark | mixed.
Inductive Radius := none | small | medium | large.

Record DesignSystemInfo := {
  theme      : Theme;
  radius     : Radius;
  shadows    : bool;
  animations : bool
}.

Record ImageAnalysisResult := {
  dimensions   : Dimensions;
  elements     : list UIElement;
  layout       : LayoutInfo;
  colorPalette : list string;
  typography   : TypographyInfo;
  designSystem : DesignSystemInfo
}.

(** [palette[i] || fallback]: a missing entry and the empty string are
    both falsy. *)
Definition orElse (entry : option string) (fallback : string) : string :=
  match entry with
  | Some (String c s) => String c s
  | _ => fallback
  end.

Definition generateBasicElements (result : ImageAnalysisResult) : list UIElement :=
  let width := imageWidth (dimensions result) in
  let height := imageHeight (dimensions result) in
  let elements := [] in
  let elements :=
    if (height * 1.5 <? width)%float then
      push elements
        {| type := header;
           position := {| x := 0; y := 0; width := width;
                          height := Math_min 80 (height * 0.15)%float |};
           content := None;
           styles := {| backgroundColor :=
                          Some (orElse (nth_error (colorPalette result) 0%nat) "#ffffff");
                        color :=
                          Some (orElse (nth_error (colorPalette result) 1%nat) "#000000");
                        fontSize := None; fontWeight := None;
                        borderRadius := None;
                        padding := Some 16%float; margin := None |} |}
    else elements in
  let mainY := if (0 <? List.length elements)%nat then 80%float else 0%float in
  push elements
    {| type := container;
       position := {| x := 0; y := mainY; width := width;
                      height := (height - mainY)%float |};
       content := None;
       styles := {| backgroundColor :=
                      Some (orElse (nth_error (colorPalette result) 2%nat) "#f8f9fa");
                    color := None; fontSize := None; fontWeight := None;
                    borderRadius := None;
                    padding := Some 20%float; margin := None |} |}.

(** The result [analyzeImage] starts from ("basic analysis without
    AI"), for the dimensions that [sharp] reports. *)
Definition basicAnalysis (width height : nat) : ImageAnalysisResult :=
  {| dimensions := {| imageWidth := ofNat width; imageHeight := ofNat height |};
     elements := [];
     layout := {| layoutType := flow; direction := column;
                  alignment := "center"; spacing := 16; responsive := true |};
     colorPalette := [];
     typography := {| primaryFont := "system-ui, sans-serif";
                      secondaryFont := None;
                      headingSizes := [32; 24; 20; 18]%float;
                      bodySize := 16; lineHeight := 1.5 |};
     designSystem := {| theme := light; radius := medium;
                        shadows := true; animations := false |} |}.




End ImageAnalyzer.

(* ================================================================== *)
(** * The brand registry as a store (brandDatabase.ts)                *)
(* ================================================================== *)

Module BrandStore.
Import BrandIdentifier.
Local Open Scope string_scope.

Record Semantic := {
  success : jsstring;
  warning : jsstring;
  error   : jsstring;
  info    : jsstring
}.

(** The top-level keys of a [BrandAssets] other than [colors]. *)
Inductive Group :=
  | brandInfo | typography | layout | spacing | shapes | shadows
  | animations | components | icons | unique.

Section Assets.
(** The values that no method of the class looks into. *)
Variable Opaque : Type.

(** [String.prototype.toLowerCase], applied to brand names. *)
Variable lowerCase : string -> string.

Record ColorSystem := {
  primary   : jsstring;
  secondary : jsstring;
  accent    : jsstring;
  neutral   : list jsstring;
  semantic  : Semantic;
  gradients : Opaque;
  darkMode  : option Opaque
}.

Record BrandAssets := {
  colors : ColorSystem;
  group  : Group -> Opaque
}.

(** [Partial<BrandAssets>]: each top-level key may be absent. *)
Record PartialAssets := {
  newColors : option ColorSystem;
  newGroup  : Group -> option Opaque
}.

(** The three [Map]s of the class. *)
Record State := {
  brands        : list (string * BrandAssets);
  brandKeywords : list (string * list jsstring);
  brandPatterns : list (string * list RegExp)
}.

(** What [detectBrand] reads of the state. *)
Definition detectionColors (assets : BrandAssets) : Colors :=
  {| BrandIdentifier.primary := primary (colors assets);
     BrandIdentifier.secondary := secondary (colors assets);
     BrandIdentifier.accent := accent (colors assets) |}.

Definition database (st : State) : BrandDatabase :=
  {| BrandIdentifier.brands :=
       List.map (fun entry => (fst entry, detectionColors (snd entry))) (brands st);
     BrandIdentifier.brandKeywords := brandKeywords st;
     BrandIdentifier.brandPatterns := brandPatterns st |}.

Definition detectBrand (st : State) (text : jsstring) (colorPalette : list jsstring)
  : BrandMatch :=
  BrandIdentifier.detectBrand (database st) text colorPalette.

Definition getBrandAssets (st : State) (brandName : string) : option BrandAssets :=
  get (lowerCase brandName) (brands st).

Definition getAllBrands (st : State) : list string :=
  List.map fst (brands st).

(** [Object.values(brand.colors.semantic)] lists the four values in the
    order the literal gives them. *)
Definition getBrandColors (st : State) (brandName : string) : list jsstring :=
  match get (lowerCase brandName) (brands st) with
  | None => []
  | Some brand =>
      ([ primary (colors brand); secondary (colors brand); accent (colors brand) ]
       ++ neutral (colors brand)
       ++ [ success (semantic (colors brand)); warning (semantic (colors brand));
            error (semantic (colors brand)); info (semantic (colors brand)) ])%list
  end.

Definition addBrand (st : State) (brandName : string) (assets : BrandAssets)
  : State :=
  {| brands := set (lowerCase brandName) assets (brands st);
     brandKeywords := brandKeywords st;
     brandPatterns := brandPatterns st |}.

(** [{ ...existing, ...updates }] *)
Definition spread (existing : BrandAssets) (updates : PartialAssets) : BrandAssets :=
  {| colors := match newColors updates with
               | Some c => c
               | None => colors existing
               end;
     group := fun key => match newGroup updates key with
                         | Some v => v
                         | None => group existing key
                         end |}.

Definition updateBrand (st : State) (brandName : string) (updates : PartialAssets)
  : State :=
  match get (lowerCase brandName) (brands st) with
  | Some existing =>
      {| brands := set (lowerCase brandName) (spread existing updates) (brands st);
         brandKeywords := brandKeywords st;
         brandPatterns := brandPatterns st |}
  | None => st
  end.

End Assets.

Arguments brands {Opaque}.
Arguments brandKeywords {Opaque}.
Arguments brandPatterns {Opaque}.
Arguments primary {Opaque}.
Arguments secondary {Opaque}.
Arguments accent {Opaque}.
Arguments neutral {Opaque}.
Arguments semantic {Opaque}.
Arguments gradients {Opaque}.
Arguments darkMode {Opaque}.
Arguments colors {Opaque}.
Arguments group {Opaque}.
Arguments detectionColors {Opaque}.
Arguments database {Opaque}.
Arguments detectBrand {Opaque}.
Arguments getBrandAssets {Opaque}.
Arguments getAllBrands {Opaque}.
Arguments getBrandColors {Opaque}.
Arguments addBrand {Opaque}.
Arguments spread {Opaque}.
Arguments updateBrand {Opaque}.

(** [toLowerCase] on a name made of ASCII characters. *)
Fixpoint asciiLowerCase (s : string) : string :=
  match s with
  | EmptyString => EmptyString
  | String c rest =>
      let n := nat_of_ascii c in
      String (if ((65 <=? n) && (n <=? 90))%nat then ascii_of_nat (n + 32) else c)
             (asciiLowerCase rest)
  end.

(** ** The shipped brands ([initializeBrands], [setupBrandDetection])

    The colour systems are those of the source; the values that no
    method of the class looks into are erased. *)
Definition colorSystem (primary secondary accent : string) (neutral : list string)
           (success warning error info : string) (darkMode : option unit)
  : ColorSystem unit :=
  {| primary := str primary; secondary := str secondary; accent := str accent;
     neutral := List.map str neutral;
     semantic := {| success := str success; warning := str warning;
                    error := str error; info := str info |};
     gradients := tt;
     darkMode := darkMode |}.

Definition shipped : State unit :=
  {| brands :=
       [ ("toss",
          {| colors :=
               colorSystem "#0064FF" "#F5F7FA" "#FF6B35"
                 [ "#1A1A1A"; "#333333"; "#666666"; "#999999"; "#CCCCCC";
                   "#F0F0F0"; "#FFFFFF" ]
                 "#00C896" "#FFB800" "#FF5722" "#2196F3" (Some tt);
             group := fun _ => tt |});
         ("kakao",
          {| colors :=
               colorSystem "#FEE500" "#191919" "#FF6B35"
                 [ "#000000"; "#191919"; "#333333"; "#666666"; "#999999";
                   "#CCCCCC"; "#F5F5F5"; "#FFFFFF" ]
                 "#00C73C" "#FF8A00" "#E53935" "#1976D2" (Some tt);
             group := fun _ => tt |});
         ("naver",
          {| colors :=
               colorSystem "#03C75A" "#F7F9FA" "#1EC800"
                 [ "#000000"; "#333333"; "#666666"; "#999999"; "#CCCCCC";
                   "#F2F2F2"; "#FFFFFF" ]
                 "#03C75A" "#FF6D00" "#E53935" "#0277BD" None;
             group := fun _ => tt |}) ];
     brandKeywords := BrandIdentifier.brandKeywords registry;
     brandPatterns := BrandIdentifier.brandPatterns registry |}.

End BrandStore.

(* ================================================================== *)
(** * Properties                                                      *)
(* ================================================================== *)

(** ** Quality Aggregator *)

Section AggregatorFacts.
Import JS QualityAggregator.
Local Open Scope float_scope.

(** Two doubles that compare differently with a third are not equal. *)
Lemma number_neq (a b c : number) :
  (a =? c) = true -> (b =? c) = false -> a <> b.
Proof. intros Ha Hb E. rewrite E in Ha. congruence. Qed.

Lemma overallScore_rounds_weightedMean (bd : Breakdown) :
  calculateOverallScore bd = Math_round (weightedMean bd).
Proof.
  unfold calculateOverallScore, weightedMean.
  destruct (totals bd); reflexivity.
Qed.

(** C1 (as the code computes it): the weighted mean of the scenario
    [{85,90,85,80,85,100}] is 86.75, and the overall score, its
    rounding, is 87. *)
Theorem overallScore_scenario :
  weightedMean scenario = 86.75 /\ calculateOverallScore scenario = 87.
Proof. split; vm_compute; reflexivity. Qed.

(** C1 (as stated) fails: the overall score of the scenario is not 86. *)
Lemma overallScore_scenario_not_86 : calculateOverallScore scenario <> 86.
Proof. apply (number_neq _ _ 87); vm_compute; reflexivity. Qed.

Lemma fold_left_add_map (f : number -> number) (l : list number) (a : number) :
  fold_left (fun a b => a + f b) l a = fold_left (fun a b => a + b) (List.map f l) a.
Proof. revert a; induction l as [|x l IH]; intros a; simpl; [reflexivity|apply IH]. Qed.

Lemma confidence_rounds_stddev (bd : Breakdown) :
  calculateConfidence bd = Math_round (Math_max 0 (100 - stddev (values bd))).
Proof.
  unfold calculateConfidence, stddev, mean, sum.
  rewrite fold_left_add_map. reflexivity.
Qed.

(** C9 (as stated) fails: on the scenario the confidence is 94, the
    rounding of [max(0, 100 - stddev)], which is about 93.7. *)
Lemma confidence_scenario_is_rounded :
  calculateConfidence scenario <> Math_max 0 (100 - stddev (values scenario)).
Proof. apply (number_neq _ _ 94); vm_compute; reflexivity. Qed.

End AggregatorFacts.

(** ** Color Extractor *)

Section ColorExtractorFacts.
Import JS ColorExtractor.
Local Open Scope string_scope.

(** The rounded channel of a byte is the integer
    [16 * floor ((c + 8) / 16)]. *)
Lemma rounded_is_integer (c : Byte.byte) :
  toZ (rounded (Some c)) = Some (16 * ((Z.of_N (Byte.to_N c) + 8) / 16))%Z.
Proof. destruct c; vm_compute; reflexivity. Qed.

Lemma solidWhite_palette :
  extractColorPalette (Some solidWhite) = ["rgb(256, 256, 256)"].
Proof. vm_compute. reflexivity. Qed.

(** C10: a channel value between 248 and 255 is rounded to 256, and
    the palette of a solid-white image holds the colour
    [rgb(256, 256, 256)], whose channels are outside 0..255. *)
Theorem quantization_reaches_256 :
  (forall c : Z, (248 <= c <= 255)%Z -> roundTo16 (ofZ c) = 256%float) /\
  In "rgb(256, 256, 256)" (extractColorPalette (Some solidWhite)).
Proof.
  split.
  - intros c Hc.
    assert (H : (c = 248 \/ c = 249 \/ c = 250 \/ c = 251 \/ c = 252
                 \/ c = 253 \/ c = 254 \/ c = 255)%Z) by lia.
    repeat destruct H as [H | H]; subst c; vm_compute; reflexivity.
  - rewrite solidWhite_palette. left. reflexivity.
Qed.

Lemma quantization_reaches_256_witness : roundTo16 (ofZ 250) = 256%float.
Proof. apply (proj1 quantization_reaches_256 250%Z). lia. Defined.

(** C3 (as stated) fails: the palette of a solid-white image is not a
    list of hex strings. *)
Lemma palette_of_white_is_not_hex :
  ~ Forall (fun c => isHexColor c = true) (extractColorPalette (Some solidWhite)).
Proof.
  rewrite solidWhite_palette. intros H.
  inversion H as [| c l Hc _]. vm_compute in Hc. discriminate.
Qed.

(** *** The frequency map *)

Definition totalCount (m : list (string * nat)) : nat := list_sum (List.map snd m).

Lemma totalCount_bump (key : string) (m : ColorMap) :
  totalCount (mapSet key (match mapGet key m with Some n => n | None => 0 end + 1) m)
  = S (totalCount m).
Proof.
  unfold totalCount.
  induction m as [| [k v] m IH]; simpl.
  - reflexivity.
  - destruct (String.eqb k key); simpl; [lia | rewrite IH; lia].
Qed.

Lemma in_mapSet (key : string) (v : nat) (m : ColorMap) (c : string) (n : nat) :
  In (c, n) (mapSet key v m) -> In (c, n) m \/ (c = key /\ n = v).
Proof.
  induction m as [| [k v'] m IH]; simpl.
  - intros [H | []]. inversion H. auto.
  - destruct (String.eqb k key) eqn:E; simpl.
    + apply String.eqb_eq in E. subst k.
      intros [H | H]; [inversion H; auto | auto].
    + intros [H | H]; [auto | destruct (IH H); auto].
Qed.

(** What holds of every entry of the map while the loop runs. *)
Definition entriesFrom (data : Buffer) (m : ColorMap) : Prop :=
  forall c n, In (c, n) m ->
    1 <= n /\ exists i, i < List.length data /\ i mod 3 = 0 /\ c = colorAt data i.

Lemma sample_entries (data : Buffer) (m : ColorMap) (i : nat) :
  i < List.length data -> i mod 3 = 0 ->
  entriesFrom data m -> entriesFrom data (sample data m i).
Proof.
  intros Hi Hm Hinv c n Hin. unfold sample in Hin.
  apply in_mapSet in Hin. destruct Hin as [Hin | [-> ->]].
  - apply Hinv, Hin.
  - split; [lia | exists i; auto].
Qed.

Lemma in_indices (len i : nat) : In i (indices len) -> i < len /\ i mod 3 = 0.
Proof.
  unfold indices. rewrite in_map_iff. intros [k [<- Hk]].
  apply in_seq in Hk.
  assert (H3 : 3 * ((len + 2) / 3) <= len + 2) by (apply Nat.Div0.mul_div_le).
  set (q := (len + 2) / 3) in *.
  split; [lia |].
  rewrite Nat.mul_comm. apply Nat.Div0.mod_mul.
Qed.

Lemma loop_invariant (data : Buffer) (idx : list nat) (m : ColorMap) :
  (forall i, In i idx -> i < List.length data /\ i mod 3 = 0) ->
  entriesFrom data m ->
  entriesFrom data (fold_left (sample data) idx m)
  /\ totalCount (fold_left (sample data) idx m) = totalCount m + List.length idx.
Proof.
  revert m. induction idx as [| i idx IH]; intros m Hidx Hinv; simpl.
  - split; [assumption | lia].
  - destruct (Hidx i (or_introl eq_refl)) as [Hi Hm].
    destruct (IH (sample data m i)) as [H1 H2].
    + intros j Hj. apply Hidx. right. exact Hj.
    + apply sample_entries; assumption.
    + split; [exact H1 |].
      rewrite H2. unfold sample. rewrite totalCount_bump. lia.
Qed.

Lemma histogram_spec (data : Buffer) :
  entriesFrom data (histogram data)
  /\ totalCount (histogram data) = (List.length data + 2) / 3.
Proof.
  unfold histogram.
  destruct (loop_invariant data (indices (List.length data)) []) as [H1 H2].
  - apply in_indices.
  - intros c n [].
  - split; [exact H1 |].
    rewrite H2. unfold indices. rewrite length_map, length_seq. reflexivity.
Qed.

Lemma in_firstn {A} (n : nat) (a : A) (l : list A) :
  In a (firstn n l) -> In a l.
Proof.
  revert n. induction l as [| x l IH]; intros [| n]; simpl; try tauto.
  intros [H | H]; [auto | right; eapply IH, H].
Qed.

(** *** The stable sort *)

Section SortingContent.
Context {A : Type} (cmp : A -> A -> Z).

Lemma in_insertSorted (x a : A) (l : list A) :
  In a (insertSorted cmp x l) <-> a = x \/ In a l.
Proof.
  induction l as [| y l IH]; simpl.
  - intuition.
  - destruct (cmp x y <=? 0)%Z; simpl; [intuition | rewrite IH; intuition].
Qed.

Lemma in_sortBy (a : A) (l : list A) : In a (sortBy cmp l) <-> In a l.
Proof.
  induction l as [| x l IH]; simpl; [reflexivity |].
  unfold sortBy in IH |- *. simpl. rewrite in_insertSorted, IH. intuition.
Qed.

Lemma length_insertSorted (x : A) (l : list A) :
  List.length (insertSorted cmp x l) = S (List.length l).
Proof.
  induction l as [| y l IH]; simpl; [reflexivity |].
  destruct (cmp x y <=? 0)%Z; simpl; [reflexivity | rewrite IH; reflexivity].
Qed.

Lemma length_sortBy (l : list A) : List.length (sortBy cmp l) = List.length l.
Proof.
  induction l as [| x l IH]; simpl; [reflexivity |].
  unfold sortBy in IH |- *. simpl. rewrite length_insertSorted, IH. reflexivity.
Qed.

Lemma sum_insertSorted (f : A -> nat) (x : A) (l : list A) :
  list_sum (List.map f (insertSorted cmp x l)) = f x + list_sum (List.map f l).
Proof.
  induction l as [| y l IH]; simpl; [reflexivity |].
  destruct (cmp x y <=? 0)%Z; simpl; [reflexivity | rewrite IH; lia].
Qed.

Lemma sum_sortBy (f : A -> nat) (l : list A) :
  list_sum (List.map f (sortBy cmp l)) = list_sum (List.map f l).
Proof.
  induction l as [| x l IH]; simpl; [reflexivity |].
  unfold sortBy in IH |- *. simpl. rewrite sum_insertSorted, IH. reflexivity.
Qed.

End SortingContent.

Section Sorting.
Context {A : Type} (cmp : A -> A -> Z) (key : A -> nat).
Hypothesis cmp_key : forall a b, (cmp a b <=? 0)%Z = (key b <=? key a)%nat.

Let descending := StronglySorted (fun a b => key b <= key a).

Lemma insertSorted_descending (x : A) (l : list A) :
  descending l -> descending (insertSorted cmp x l).
Proof.
  unfold descending.
  induction l as [| y l IH]; intros Hs; simpl.
  - constructor; constructor.
  - destruct (cmp x y <=? 0)%Z eqn:E.
    + rewrite cmp_key in E. apply Nat.leb_le in E.
      constructor; [assumption |].
      constructor; [assumption |].
      inversion Hs as [| ? ? _ Hall]; subst.
      rewrite Forall_forall in *. intros z Hz. specialize (Hall z Hz). lia.
    + rewrite cmp_key in E. apply Nat.leb_gt in E.
      inversion Hs as [| ? ? Hl Hall]; subst.
      constructor; [apply IH; assumption |].
      rewrite Forall_forall in *. intros z Hz.
      apply in_insertSorted in Hz. destruct Hz as [-> | Hz]; [lia | auto].
Qed.

Lemma sortBy_descending (l : list A) : descending (sortBy cmp l).
Proof.
  induction l as [| x l IH]; simpl; [constructor |].
  apply insertSorted_descending. exact IH.
Qed.

Lemma firstn_descending (n : nat) (l : list A) :
  descending l -> descending (firstn n l).
Proof.
  unfold descending. revert n.
  induction l as [| x l IH]; intros [| n] Hs; simpl; try constructor.
  - apply IH. inversion Hs; assumption.
  - inversion Hs as [| ? ? _ Hall]; subst.
    rewrite Forall_forall in *. intros z Hz.
    apply Hall. eapply in_firstn, Hz.
Qed.
End Sorting.

Lemma sum_firstn_le (n : nat) (l : list nat) :
  list_sum (firstn n l) <= list_sum l.
Proof.
  revert n. induction l as [| x l IH]; intros [| n]; simpl; try lia.
  specialize (IH n). lia.
Qed.

Lemma byCountDesc_key (a b : string * nat) :
  (byCountDesc a b <=? 0)%Z = (snd b <=? snd a)%nat.
Proof.
  unfold byCountDesc.
  destruct (Nat.leb_spec (snd b) (snd a)); [apply Z.leb_le | apply Z.leb_gt]; lia.
Qed.

Lemma colorAt_not_hex (data : Buffer) (i : nat) : isHexColor (colorAt data i) = false.
Proof. reflexivity. Qed.

(** C3 (as the code computes it): for a decoded image the palette has
    between 1 and 5 entries; every entry is the [rgb(R, G, B)] string
    of a sample (not a hex string), seen at least once; the entries
    come by non-increasing sample count; and the counts of the
    returned entries sum to at most the number of samples. *)
Theorem palette_spec (data : Buffer) (Hdata : 0 < List.length data) :
  let top := top5 data in
  extractColorPalette (Some data) = List.map fst top
  /\ 1 <= List.length top <= 5
  /\ (forall c n, In (c, n) top ->
        1 <= n /\ isHexColor c = false
        /\ exists i, i < List.length data /\ i mod 3 = 0 /\ c = colorAt data i)
  /\ StronglySorted (fun a b => snd b <= snd a) top
  /\ list_sum (List.map snd top) <= (List.length data + 2) / 3.
Proof.
  destruct (histogram_spec data) as [Hentries Htotal].
  assert (Hsamples : 1 <= (List.length data + 2) / 3).
  { apply Nat.div_le_lower_bound; lia. }
  assert (Hlen : 1 <= List.length (histogram data)).
  { revert Htotal Hsamples. generalize ((List.length data + 2) / 3).
    destruct (histogram data); [cbn; lia | simpl; lia]. }
  unfold top5. cbv zeta.
  split; [reflexivity |].
  split; [split |].
  - rewrite length_firstn, length_sortBy. lia.
  - apply firstn_le_length.
  - split; [| split].
    + intros c n H. apply in_firstn, in_sortBy in H.
      destruct (Hentries c n H) as [Hn [i [Hi [Hm ->]]]].
      split; [exact Hn |]. split; [apply colorAt_not_hex |].
      exists i. auto.
    + apply (firstn_descending snd),
        (sortBy_descending byCountDesc snd byCountDesc_key).
    + rewrite <- firstn_map.
      etransitivity; [apply sum_firstn_le |].
      rewrite sum_sortBy. fold (totalCount (histogram data)).
      rewrite Htotal. apply le_n.
Qed.

Lemma palette_spec_witness :
  let top := top5 solidWhite in
  extractColorPalette (Some solidWhite) = List.map fst top
  /\ 1 <= List.length top <= 5
  /\ (forall c n, In (c, n) top ->
        1 <= n /\ isHexColor c = false
        /\ exists i, i < List.length solidWhite /\ i mod 3 = 0
                     /\ c = colorAt solidWhite i)
  /\ StronglySorted (fun a b => snd b <= snd a) top
  /\ list_sum (List.map snd top) <= (List.length solidWhite + 2) / 3.
Proof. apply (palette_spec solidWhite). vm_compute. lia. Defined.

End ColorExtractorFacts.

(** ** Comparisons of doubles *)

Section FloatOrder.
Local Open Scope float_scope.

Lemma SFcompare_antisym (x y : spec_float) :
  SFcompare y x = option_map CompOpp (SFcompare x y).
Proof.
  destruct x as [sx | sx | | sx mx ex], y as [sy | sy | | sy my ey];
    simpl; try reflexivity;
    try (destruct sx; reflexivity); try (destruct sy; reflexivity);
    try (destruct sx, sy; reflexivity).
  pose proof (Pos.compare_cont_antisym mx my Eq) as H. simpl in H.
  destruct sx, sy; simpl; try reflexivity;
    rewrite (Z.compare_antisym ex ey); destruct (ex ?= ey)%Z; simpl;
    try reflexivity;
    rewrite <- H; destruct (Pos.compare_cont Eq mx my); reflexivity.
Qed.

(** [a <= b] rules out [b < a]. *)
Lemma leb_not_ltb (a b : float) : (a <=? b) = true -> (b <? a) = false.
Proof.
  rewrite leb_spec, ltb_spec. unfold SFleb, SFltb.
  rewrite (SFcompare_antisym (Prim2SF a) (Prim2SF b)).
  destruct (SFcompare (Prim2SF a) (Prim2SF b)) as [[| |] |]; simpl; congruence.
Qed.

End FloatOrder.

(** ** Rounding to a double

    The operations of [SpecFloat] round through [binary_round_aux]:
    the mantissa is shifted right until it has at most 53 digits (or
    the exponent reaches -1074), rounded to nearest-even on the digits
    shifted out, and renormalised. *)

Section Binary64.
Local Open Scope Z_scope.

Abbreviation bra := (binary_round_aux prec emax).
Abbreviation fexp64 := (fexp prec emax).

Lemma fexp64_eq (z : Z) : fexp64 z = Z.max (z - 53) (-1074).
Proof. reflexivity. Qed.

(** [digits2_pos p] is the number of binary digits of [p]. *)
Lemma digits2_bounds (p : positive) :
  2 ^ (Z.pos (digits2_pos p) - 1) <= Z.pos p < 2 ^ Z.pos (digits2_pos p).
Proof.
  induction p as [p IH | p IH |]; simpl digits2_pos.
  - rewrite Pos2Z.inj_succ.
    replace (Z.succ (Z.pos (digits2_pos p)) - 1) with (Z.succ (Z.pos (digits2_pos p) - 1)) by lia.
    rewrite !Z.pow_succ_r by lia. lia.
  - rewrite Pos2Z.inj_succ.
    replace (Z.succ (Z.pos (digits2_pos p)) - 1) with (Z.succ (Z.pos (digits2_pos p) - 1)) by lia.
    rewrite !Z.pow_succ_r by lia. lia.
  - simpl. lia.
Qed.

Lemma digits2_unique (p : positive) (k : Z) :
  2 ^ (k - 1) <= Z.pos p < 2 ^ k -> Z.pos (digits2_pos p) = k.
Proof.
  intros [Hlo Hhi]. pose proof (digits2_bounds p) as [Dlo Dhi].
  assert (Hk : 0 < k).
  { destruct (Z.lt_trichotomy k 0) as [H | [H | H]]; [| | exact H].
    - rewrite Z.pow_neg_r in Hhi by lia. lia.
    - subst k. simpl in Hhi. lia. }
  destruct (Z.lt_trichotomy (Z.pos (digits2_pos p)) k) as [H | [H | H]]; [| exact H |].
  - assert (2 ^ Z.pos (digits2_pos p) <= 2 ^ (k - 1)) by (apply Z.pow_le_mono_r; lia). lia.
  - assert (2 ^ k <= 2 ^ (Z.pos (digits2_pos p) - 1)) by (apply Z.pow_le_mono_r; lia). lia.
Qed.

(** ** Shifting a mantissa to the right *)

Definition inexact (r : shr_record) : bool := shr_r r || shr_s r.

Lemma shr_1_spec (r : shr_record) :
  0 <= shr_m r ->
  shr_m (shr_1 r) = shr_m r / 2
  /\ (inexact (shr_1 r) = false <-> inexact r = false /\ shr_m r mod 2 = 0).
Proof.
  destruct r as [m r s]. unfold inexact. simpl. intros Hm.
  destruct m as [| [p | p |] | p]; simpl; try lia.
  - split; [reflexivity |]. rewrite orb_false_iff. intuition.
  - split; [rewrite Pos2Z.inj_xI; apply Z.div_unique with 1; lia |].
    replace (Z.pos p~1 mod 2) with 1 by (rewrite Pos2Z.inj_xI; apply Z.mod_unique with (Z.pos p); lia).
    intuition; try discriminate; lia.
  - split; [rewrite Pos2Z.inj_xO; apply Z.div_unique with 0; lia |].
    replace (Z.pos p~0 mod 2) with 0 by (rewrite Pos2Z.inj_xO; apply Z.mod_unique with (Z.pos p); lia).
    rewrite orb_false_iff. intuition.
  - split; [reflexivity |]. 
    intuition; try discriminate.
Qed.

Lemma mod_mul_zero (m a b : Z) :
  0 <= m -> 0 < a -> 0 < b ->
  (m mod (a * b) = 0 <-> m mod a = 0 /\ (m / a) mod b = 0).
Proof.
  intros Hm Ha Hb. rewrite Z.rem_mul_r by lia.
  pose proof (Z.mod_pos_bound m a Ha). pose proof (Z.mod_pos_bound (m / a) b Hb).
  split; [intros H1; split; nia | intros [-> ->]; lia].
Qed.

Lemma shr_iter_spec (p : positive) (r : shr_record) :
  0 <= shr_m r ->
  shr_m (iter_pos shr_1 p r) = shr_m r / 2 ^ Z.pos p
  /\ (inexact (iter_pos shr_1 p r) = false
      <-> inexact r = false /\ shr_m r mod 2 ^ Z.pos p = 0).
Proof.
  revert r. induction p as [p IH | p IH |]; intros r Hm.
  - (* 2p + 1 *)
    simpl iter_pos.
    destruct (shr_1_spec r Hm) as [M1 E1].
    assert (H1 : 0 <= shr_m (shr_1 r)) by (rewrite M1; apply Z.div_pos; lia).
    destruct (IH _ H1) as [M2 E2].
    assert (H2 : 0 <= shr_m (iter_pos shr_1 p (shr_1 r)))
      by (rewrite M2; apply Z.div_pos; [lia | apply Z.pow_pos_nonneg; lia]).
    destruct (IH _ H2) as [M3 E3].
    assert (P : 0 < 2 ^ Z.pos p) by (apply Z.pow_pos_nonneg; lia).
    replace (2 ^ Z.pos p~1) with (2 * (2 ^ Z.pos p * 2 ^ Z.pos p))
      by (rewrite <- Z.pow_add_r by lia; rewrite <- Z.pow_succ_r by lia; f_equal; lia).
    split.
    + rewrite M3, M2, M1, !Z.div_div by lia. reflexivity.
    + rewrite E3, E2, E1, M2, M1.
      rewrite (mod_mul_zero (shr_m r) 2) by lia.
      rewrite (mod_mul_zero (shr_m r / 2) (2 ^ Z.pos p)) by (try apply Z.div_pos; lia).
      tauto.
  - simpl iter_pos.
    destruct (IH _ Hm) as [M2 E2].
    assert (P : 0 < 2 ^ Z.pos p) by (apply Z.pow_pos_nonneg; lia).
    assert (H2 : 0 <= shr_m (iter_pos shr_1 p r)) by (rewrite M2; apply Z.div_pos; lia).
    destruct (IH _ H2) as [M3 E3].
    replace (2 ^ Z.pos p~0) with (2 ^ Z.pos p * 2 ^ Z.pos p)
      by (rewrite <- Z.pow_add_r by lia; f_equal; lia).
    split.
    + rewrite M3, M2, !Z.div_div by lia. reflexivity.
    + rewrite E3, E2, M2.
      rewrite (mod_mul_zero (shr_m r) (2 ^ Z.pos p)) by lia.
      tauto.
  - simpl iter_pos. change (2 ^ 1) with 2. apply shr_1_spec, Hm.
Qed.


Lemma shr_m_of_loc (m : Z) (l : location) : shr_m (shr_record_of_loc m l) = m.
Proof. destruct l as [| []]; reflexivity. Qed.

Lemma shr_fexp_noshift (m e : Z) (l : location) :
  fexp64 (Zdigits2 m + e) <= e ->
  shr_fexp prec emax m e l = (shr_record_of_loc m l, e).
Proof.
  intros H. unfold shr_fexp, shr.
  destruct (fexp64 (Zdigits2 m + e) - e) eqn:E; try reflexivity. lia.
Qed.

Lemma shr_fexp_shift (m e : Z) (l : location) :
  e < fexp64 (Zdigits2 m + e) ->
  exists n : positive,
    Z.pos n = fexp64 (Zdigits2 m + e) - e
    /\ shr_fexp prec emax m e l
       = (iter_pos shr_1 n (shr_record_of_loc m l), fexp64 (Zdigits2 m + e)).
Proof.
  intros H. unfold shr_fexp, shr.
  destruct (fexp64 (Zdigits2 m + e) - e) as [| n | n] eqn:E; try lia.
  exists n. split; [reflexivity |]. f_equal. lia.
Qed.

Lemma shr_fexp_nonneg (m e : Z) (l : location) :
  0 <= m -> 0 <= shr_m (fst (shr_fexp prec emax m e l)).
Proof.
  intros Hm.
  destruct (Z.le_gt_cases (fexp64 (Zdigits2 m + e)) e) as [H | H].
  - rewrite shr_fexp_noshift by exact H. simpl. rewrite shr_m_of_loc. exact Hm.
  - destruct (shr_fexp_shift m e l H) as [n [_ ->]]. simpl.
    destruct (shr_iter_spec n (shr_record_of_loc m l)) as [-> _];
      rewrite shr_m_of_loc; [exact Hm |].
    apply Z.div_pos; [exact Hm | apply Z.pow_pos_nonneg; lia].
Qed.

Lemma round_bounds (m : Z) (l : location) :
  m <= round_nearest_even m l <= m + 1.
Proof.
  destruct l as [| []]; simpl; try lia. destruct (Z.even m); lia.
Qed.

Lemma round_exact (r : shr_record) :
  inexact r = false ->
  round_nearest_even (shr_m r) (loc_of_shr_record r) = shr_m r.
Proof.
  destruct r as [m [] []]; unfold inexact; simpl; intros H; try discriminate.
  reflexivity.
Qed.

(** Rounding keeps the sign and never makes a NaN. *)
Definition signed (sx : bool) (x : spec_float) : Prop :=
  match x with
  | S754_zero s | S754_infinity s | S754_finite s _ _ => s = sx
  | S754_nan => False
  end.

Lemma bra_signed (sx : bool) (m e : Z) (l : location) :
  0 <= m -> signed sx (bra sx m e l).
Proof.
  intros Hm. unfold binary_round_aux.
  pose proof (shr_fexp_nonneg m e l Hm) as H1.
  destruct (shr_fexp prec emax m e l) as [r1 e1]. simpl in H1.
  pose proof (round_bounds (shr_m r1) (loc_of_shr_record r1)) as Hr.
  pose proof (shr_fexp_nonneg (round_nearest_even (shr_m r1) (loc_of_shr_record r1))
                              e1 loc_Exact) as H2.
  destruct (shr_fexp prec emax _ e1 loc_Exact) as [r2 e2]. simpl in H2.
  destruct (shr_m r2) as [| q | q]; [reflexivity | | lia].
  destruct (e2 <=? emax - prec); reflexivity.
Qed.

(** Rounding an exact value that needs no shift. *)
Lemma bra_noshift (sx : bool) (p : positive) (e : Z) :
  fexp64 (Z.pos (digits2_pos p) + e) <= e ->
  bra sx (Z.pos p) e loc_Exact
  = if e <=? 971 then S754_finite sx p e else S754_infinity sx.
Proof.
  intros H. unfold binary_round_aux.
  rewrite shr_fexp_noshift by exact H. simpl.
  rewrite shr_fexp_noshift by exact H. reflexivity.
Qed.

(** Rounding an exact value whose mantissa is shifted right. *)
Lemma bra_shift (sx : bool) (p : positive) (e : Z) :
  let e1 := fexp64 (Z.pos (digits2_pos p) + e) in
  let q := Z.pos p / 2 ^ (e1 - e) in
  e < e1 ->
  exists m1 : Z,
    q <= m1 <= q + 1
    /\ (Z.pos p mod 2 ^ (e1 - e) = 0 -> m1 = q)
    /\ m1 <= 2 ^ 53
    /\ bra sx (Z.pos p) e loc_Exact
       = if m1 =? 2 ^ 53
         then (if e1 + 1 <=? 971 then S754_finite sx (2 ^ 52)%positive (e1 + 1)
               else S754_infinity sx)
         else match m1 with
              | Z0 => S754_zero sx
              | Z.pos m => if e1 <=? 971 then S754_finite sx m e1
                           else S754_infinity sx
              | Z.neg _ => S754_nan
              end.
Proof.
  intros e1 q H. unfold binary_round_aux.
  destruct (shr_fexp_shift (Z.pos p) e loc_Exact H) as [n [Hn ->]].
  change (Zdigits2 (Z.pos p)) with (Z.pos (digits2_pos p)) in Hn |- *.
  fold e1 in Hn |- *. simpl shr_record_of_loc.
  set (r0 := {| shr_m := Z.pos p; shr_r := false; shr_s := false |}).
  destruct (shr_iter_spec n r0) as [M1 E1]; [simpl; lia |].
  simpl (shr_m r0) in M1, E1. rewrite Hn in M1, E1. fold q in M1.
  set (r1 := iter_pos shr_1 n r0) in *.
  set (m1 := round_nearest_even (shr_m r1) (loc_of_shr_record r1)).
  pose proof (round_bounds (shr_m r1) (loc_of_shr_record r1)) as Hb.
  fold m1 in Hb. rewrite M1 in Hb.
  assert (Hq : 0 <= q < 2 ^ 53).
  { pose proof (digits2_bounds p) as [_ Hd].
    assert (P : 0 < 2 ^ (e1 - e)) by (apply Z.pow_pos_nonneg; lia).
    split; [apply Z.div_pos; lia |].
    apply Z.div_lt_upper_bound; [exact P |].
    rewrite <- Z.pow_add_r by lia.
    eapply Z.lt_le_trans; [exact Hd |].
    apply Z.pow_le_mono_r; [lia |].
    unfold e1. rewrite fexp64_eq. lia. }
  assert (He1 : -1074 <= e1) by (unfold e1; rewrite fexp64_eq; lia).
  clearbody q.
  assert (Hm1 : m1 <= 2 ^ 53) by (set (B := 2 ^ 53) in *; lia).
  exists m1. split; [exact Hb |]. split; [| split; [exact Hm1 |]].
  - intros Hmod. unfold m1. rewrite round_exact; [exact M1 |].
    apply E1. split; [reflexivity | exact Hmod].
  - destruct (Z.eqb_spec m1 (2 ^ 53)) as [Heq | Hne].
    + rewrite Heq.
      assert (S : e1 < fexp64 (Zdigits2 (2 ^ 53) + e1))
        by (change (Zdigits2 (2 ^ 53)) with 54; rewrite fexp64_eq; lia).
      destruct (shr_fexp_shift (2 ^ 53) e1 loc_Exact S) as [n1 [Hn1 ->]].
      assert (n1 = 1%positive)
        by (change (Zdigits2 (2 ^ 53)) with 54 in Hn1; rewrite fexp64_eq in Hn1; lia).
      subst n1.
      change (Zdigits2 (2 ^ 53)) with 54.
      replace (fexp64 (54 + e1)) with (e1 + 1) by (rewrite fexp64_eq; lia).
      reflexivity.
    + assert (N : fexp64 (Zdigits2 m1 + e1) <= e1).
      { rewrite fexp64_eq.
        destruct m1 as [| m | m]; simpl Zdigits2; [lia | | lia].
        pose proof (digits2_bounds m) as [Hlo _].
        assert (Z.pos (digits2_pos m) - 1 < 53).
        { apply (Z.pow_lt_mono_r_iff 2); [lia | lia |].
          set (B := 2 ^ 53) in *. lia. }
        lia. }
      rewrite shr_fexp_noshift by exact N. simpl.
      destruct m1 as [| m | m]; reflexivity.
Qed.


(** ** Signs of results *)

(** Zero (of either sign), a positive finite number or +infinity. *)
Definition nonneg (x : spec_float) : Prop :=
  match x with
  | S754_zero _ | S754_finite false _ _ | S754_infinity false => True
  | _ => False
  end.

(** A zero or a finite number. *)
Definition finite (x : spec_float) : Prop :=
  match x with
  | S754_zero _ | S754_finite _ _ _ => True
  | _ => False
  end.

Lemma signed_nonneg (x : spec_float) : signed false x -> nonneg x.
Proof. destruct x as [s | s | | s m e]; simpl; intros H; subst; tauto. Qed.

Lemma signed_not_nan (sx : bool) (x : spec_float) : signed sx x -> x <> S754_nan.
Proof. destruct x; simpl; intros H; [discriminate .. | tauto | discriminate]. Qed.

Lemma binary_round_signed (sx : bool) (m : positive) (e : Z) :
  signed sx (binary_round prec emax sx m e).
Proof.
  unfold binary_round.
  destruct (shl_align m e (fexp64 (Z.pos (digits2_pos m) + e))) as [mz ez].
  apply bra_signed. lia.
Qed.

Lemma binary_normalize_not_nan (m e : Z) (s : bool) :
  binary_normalize prec emax m e s <> S754_nan.
Proof.
  destruct m as [| p | p]; simpl; [discriminate | |];
    eapply signed_not_nan, binary_round_signed.
Qed.

Lemma SFadd_nonneg (x y : spec_float) :
  nonneg x -> nonneg y -> nonneg (SF64add x y).
Proof.
  destruct x as [sx | [] | | [] mx ex], y as [sy | [] | | [] my ey];
    simpl; try tauto.
  - destruct sx, sy; tauto.
  - intros _ _. apply signed_nonneg, binary_round_signed.
Qed.

Lemma SFmul_self_nonneg (x : spec_float) :
  x <> S754_nan -> nonneg (SF64mul x x).
Proof.
  destruct x as [s | s | | s m e]; simpl; intros H; try tauto.
  - destruct s; exact I.
  - apply signed_nonneg. rewrite xorb_nilpotent. apply bra_signed. lia.
Qed.

Lemma SFsub_finite (x y : spec_float) :
  finite x -> finite y -> SF64sub x y <> S754_nan.
Proof.
  destruct x as [sx | sx | | sx mx ex], y as [sy | sy | | sy my ey];
    simpl; try tauto; intros _ _; try discriminate.
  - destruct sx, sy; discriminate.
  - apply binary_normalize_not_nan.
Qed.

Lemma SFsqrt_nonneg (x : spec_float) : nonneg x -> nonneg (SF64sqrt x).
Proof.
  destruct x as [s | [] | | [] m e]; simpl; try tauto.
  intros _. unfold SF64sqrt, SFsqrt.
  destruct (SFsqrt_core_binary prec emax (Z.pos m) e) as [[mz ez] lz] eqn:E.
  apply signed_nonneg, bra_signed.
  unfold SFsqrt_core_binary in E.
  destruct (Z.sqrtrem _) as [q r] eqn:Q in E.
  inversion E; subst.
  pose proof (Z.sqrtrem_sqrt
                match e - 2 * Z.min (fexp64 (Z.div2 (Zdigits2 (Z.pos m) + e + 1))) (Z.div2 e) with
                | 0 => Z.pos m
                | Z.pos _ => Z.shiftl (Z.pos m) (e - 2 * Z.min (fexp64 (Z.div2 (Zdigits2 (Z.pos m) + e + 1))) (Z.div2 e))
                | Z.neg _ => 0
                end) as S.
  rewrite Q in S. simpl in S. subst. apply Z.sqrt_nonneg.
Qed.

Lemma SFdiv_nonneg (x y : spec_float) (my : positive) (ey : Z) :
  nonneg x -> y = S754_finite false my ey -> nonneg (SF64div x y).
Proof.
  intros Hx ->.
  destruct x as [sx | [] | | [] mx ex]; simpl in *; try tauto.
  unfold SF64div, SFdiv.
  destruct (SFdiv_core_binary prec emax (Z.pos mx) ex (Z.pos my) ey) as [[mz ez] lz] eqn:E.
  apply signed_nonneg, bra_signed.
  unfold SFdiv_core_binary in E.
  destruct (Z.div_eucl _ (Z.pos my)) as [q r] eqn:Q in E.
  inversion E; subst. clear E.
  match type of Q with Z.div_eucl ?a ?b = _ =>
    assert (Ha : 0 <= a);
    [ | pose proof (Z.div_eucl_eq a b ltac:(lia)) as D;
        pose proof (Z.mod_pos_bound a b ltac:(lia)) as B;
        unfold Z.modulo in B; rewrite Q in D, B; nia ]
  end.
  destruct (ex - ey - _) eqn:S; try lia.
  apply Z.shiftl_nonneg. lia.
Qed.


(** ** Normal numbers *)

(** A positive normal number whose exponent lies in [lo, hi]. *)
Definition normal (lo hi : Z) (x : spec_float) : Prop :=
  exists m e, x = S754_finite false m e
              /\ Z.pos (digits2_pos m) = 53 /\ lo <= e <= hi.

Lemma SFmul_normal (lo1 hi1 lo2 hi2 : Z) (x y : spec_float) :
  normal lo1 hi1 x -> normal lo2 hi2 y ->
  -1126 <= lo1 + lo2 -> hi1 + hi2 <= 917 ->
  normal (lo1 + lo2 + 52) (hi1 + hi2 + 54) (SF64mul x y).
Proof.
  intros [mx [ex [-> [Dx Ex]]]] [my [ey [-> [Dy Ey]]]] Hlo Hhi.
  unfold SF64mul, SFmul. simpl xorb.
  pose proof (digits2_bounds mx) as Bx. rewrite Dx in Bx.
  pose proof (digits2_bounds my) as By. rewrite Dy in By.
  change (53 - 1) with 52 in Bx, By.
  set (p := (mx * my)%positive). set (e := ex + ey).
  assert (Bp : 2 ^ 104 <= Z.pos p < 2 ^ 106).
  { unfold p. rewrite Pos2Z.inj_mul.
    change (2 ^ 104) with (2 ^ 52 * 2 ^ 52). change (2 ^ 106) with (2 ^ 53 * 2 ^ 53).
    set (a := 2 ^ 52) in *. set (b := 2 ^ 53) in *.
    assert (0 < a) by (unfold a; lia). nia. }
  set (d := Z.pos (digits2_pos p)).
  assert (Hd : d = 105 \/ d = 106).
  { destruct (Z.lt_ge_cases (Z.pos p) (2 ^ 105)) as [H | H].
    - left. apply digits2_unique. change (105 - 1) with 104. lia.
    - right. apply digits2_unique. change (106 - 1) with 105. lia. }
  pose proof (digits2_bounds p) as Bd. fold d in Bd.
  assert (He1 : fexp64 (d + e) = d + e - 53) by (rewrite fexp64_eq; lia).
  destruct (bra_shift false p e) as [m1 [Hm1 [_ [Hle R]]]];
    [fold d; rewrite He1; lia |].
  fold d in Hm1, R. rewrite He1 in Hm1, R. rewrite R. clear R.
  replace (d + e - 53 - e) with (d - 53) in Hm1 by lia.
  assert (Hq : 2 ^ 52 <= Z.pos p / 2 ^ (d - 53) < 2 ^ 53).
  { assert (P : 0 < 2 ^ (d - 53)) by (apply Z.pow_pos_nonneg; lia).
    split.
    - apply Z.div_le_lower_bound; [exact P |].
      rewrite <- Z.pow_add_r by lia. replace (d - 53 + 52) with (d - 1) by lia. lia.
    - apply Z.div_lt_upper_bound; [exact P |].
      rewrite <- Z.pow_add_r by lia. replace (d - 53 + 53) with d by lia. lia. }
  destruct (Z.eqb_spec m1 (2 ^ 53)) as [Heq | Hne].
  - replace (d + e - 53 + 1 <=? 971) with true by (symmetry; apply Z.leb_le; lia).
    exists (2 ^ 52)%positive, (d + e - 53 + 1).
    split; [reflexivity |]. split; [reflexivity | unfold e; lia].
  - destruct m1 as [| m | m]; [lia | | lia].
    replace (d + e - 53 <=? 971) with true by (symmetry; apply Z.leb_le; lia).
    exists m, (d + e - 53).
    split; [reflexivity |]. split; [| unfold e; lia].
    apply digits2_unique. change (53 - 1) with 52. lia.
Qed.

Lemma iter_xO_spec (p n : positive) :
  Z.pos (Pos.iter xO p n) = Z.pos p * 2 ^ Z.pos n.
Proof.
  induction n as [| n IH] using Pos.peano_ind.
  - simpl. lia.
  - rewrite Pos.iter_succ, Pos2Z.inj_xO, IH, Pos2Z.inj_succ, Z.pow_succ_r by lia. lia.
Qed.

(** A count below [2^53] is a double with a 53-digit mantissa. *)
Lemma binary_normalize_count (n : Z) :
  1 <= n < 2 ^ 53 -> normal (-52) 0 (binary_normalize prec emax n 0 false).
Proof.
  intros Hn. destruct n as [| p | p]; try lia. simpl binary_normalize.
  unfold binary_round.
  pose proof (digits2_bounds p) as Bd.
  set (d := Z.pos (digits2_pos p)) in *.
  assert (Hd : 1 <= d <= 53).
  { split; [unfold d; lia |].
    assert (d - 1 < 53) by (apply (Z.pow_lt_mono_r_iff 2); lia). lia. }
  replace (d + 0) with d by lia.
  assert (Hf : fexp64 d = d - 53) by (rewrite fexp64_eq; lia).
  rewrite Hf. unfold shl_align.
  destruct (d - 53 - 0) as [| k | k] eqn:K; try lia.
  - rewrite bra_noshift by (fold d; rewrite fexp64_eq; lia).
    exists p, 0. split; [reflexivity |]. fold d. lia.
  - assert (Dz : Z.pos (digits2_pos (Pos.iter xO p k)) = 53).
    { apply digits2_unique. rewrite iter_xO_spec.
      replace (Z.pos k) with (53 - d) by lia. change (53 - 1) with 52.
      assert (P : 0 < 2 ^ (53 - d)) by (apply Z.pow_pos_nonneg; lia).
      replace (2 ^ 52) with (2 ^ (d - 1) * 2 ^ (53 - d))
        by (rewrite <- Z.pow_add_r by lia; f_equal; lia).
      replace (2 ^ 53) with (2 ^ d * 2 ^ (53 - d))
        by (rewrite <- Z.pow_add_r by lia; f_equal; lia).
      nia. }
    rewrite bra_noshift by (rewrite Dz, fexp64_eq; lia).
    replace (d - 53 <=? 971) with true by (symmetry; apply Z.leb_le; lia).
    exists (Pos.iter xO p k), (d - 53). split; [reflexivity |]. lia.
Qed.

(** ** Subtracting from 1 *)

(** The double 1. *)
Definition one : spec_float := S754_finite false 4503599627370496 (-52).

Lemma shl_align_spec (mx : positive) (ex ex' : Z) :
  let '(m, e) := shl_align mx ex ex' in
  e = Z.min ex ex' /\ Z.pos m = Z.pos mx * 2 ^ (ex - e).
Proof.
  unfold shl_align.
  destruct (ex' - ex) as [| d | d] eqn:E.
  - split; [lia |]. rewrite Z.sub_diag. simpl. lia.
  - split; [lia |]. rewrite Z.sub_diag. simpl. lia.
  - split; [lia |]. rewrite iter_xO_spec. f_equal. f_equal. lia.
Qed.

Lemma SFleb_one_signed_true (x : spec_float) : signed true x -> SFleb x one = true.
Proof. destruct x as [s | s | | s m e]; simpl; intros H; subst; tauto || reflexivity. Qed.

Lemma SFleb_finite_one (m : positive) (e : Z) :
  e < -52 \/ (e = -52 /\ Z.pos m <= 2 ^ 52) ->
  SFleb (S754_finite false m e) one = true.
Proof.
  unfold SFleb, SFcompare, one. intros [H | [-> H]].
  - rewrite (proj2 (Z.compare_lt_iff e (-52)) H). reflexivity.
  - rewrite Z.compare_refl.
    destruct (Pos.compare_cont Eq m 4503599627370496) eqn:C; try reflexivity.
    apply Pos.compare_gt_iff in C.
    assert (Z.pos 4503599627370496 = 2 ^ 52) by reflexivity. lia.
Qed.

Lemma bra_le_one (p : positive) (e : Z) :
  e <= -52 -> Z.pos p < 2 ^ (- e) ->
  SFleb (bra false (Z.pos p) e loc_Exact) one = true.
Proof.
  intros He Hp.
  pose proof (digits2_bounds p) as [Bd _].
  set (d := Z.pos (digits2_pos p)) in *.
  assert (Hd : d + e <= 0).
  { assert (d - 1 < - e) by (apply (Z.pow_lt_mono_r_iff 2); lia). lia. }
  destruct (Z.le_gt_cases (fexp64 (d + e)) e) as [H | H].
  - rewrite bra_noshift by exact H.
    replace (e <=? 971) with true by (symmetry; apply Z.leb_le; lia).
    apply SFleb_finite_one.
    destruct (Z.eq_dec e (-52)) as [-> | Hne]; [right | left; lia].
    split; [reflexivity |]. change (- -52) with 52 in Hp. lia.
  - destruct (bra_shift false p e H) as [m1 [[Hq _] [_ [_ R]]]]. rewrite R. clear R.
    fold d in Hq, H |- *.
    assert (Hm1 : 0 <= m1).
    { etransitivity; [| exact Hq].
      apply Z.div_pos; [lia | apply Z.pow_pos_nonneg; lia]. }
    clear Hq.
    assert (He1 : fexp64 (d + e) <= -53) by (rewrite fexp64_eq; lia).
    set (e1 := fexp64 (d + e)) in *.
    destruct (m1 =? 2 ^ 53).
    + replace (e1 + 1 <=? 971) with true by (symmetry; apply Z.leb_le; lia).
      apply SFleb_finite_one.
      destruct (Z.eq_dec (e1 + 1) (-52)) as [E | Hne]; [right | left; lia].
      split; [exact E | reflexivity].
    + destruct m1 as [| m | m]; [reflexivity | | lia].
      replace (e1 <=? 971) with true by (symmetry; apply Z.leb_le; lia).
      apply SFleb_finite_one. left. lia.
Qed.

Lemma SFsub_one_le (q : spec_float) :
  nonneg q -> SFleb (SF64sub one q) one = true.
Proof.
  destruct q as [s | [] | | [] m e]; cbn [nonneg]; try tauto; intros _;
    try reflexivity.
  unfold SF64sub, SFsub, one.
  set (ez := Z.min (-52) e).
  pose proof (shl_align_spec 4503599627370496 (-52) ez) as A.
  pose proof (shl_align_spec m e ez) as B.
  destruct (shl_align 4503599627370496 (-52) ez) as [ma ea].
  destruct (shl_align m e ez) as [mb eb]. cbn [fst cond_Zopp].
  destruct A as [Ea Ma], B as [Eb Mb].
  assert (Ea' : ea = ez) by (unfold ez in *; lia).
  assert (Ma' : Z.pos ma = 2 ^ (- ez)).
  { rewrite Ma, Ea'. change (Z.pos 4503599627370496) with (2 ^ 52).
    rewrite <- Z.pow_add_r by (unfold ez; lia). f_equal. lia. }
  destruct (Z.pos ma - Z.pos mb) as [| p | p] eqn:D; cbn [binary_normalize].
  - reflexivity.
  - unfold binary_round.
    pose proof (shl_align_spec p ez (fexp64 (Z.pos (digits2_pos p) + ez))) as C.
    destruct (shl_align p ez (fexp64 (Z.pos (digits2_pos p) + ez))) as [mz ez'].
    destruct C as [Ec Mc].
    apply bra_le_one; [unfold ez in *; lia |].
    rewrite Mc.
    assert (Hp : Z.pos p < 2 ^ (- ez)) by lia.
    assert (P : 0 < 2 ^ (ez - ez')) by (apply Z.pow_pos_nonneg; lia).
    replace (2 ^ (- ez')) with (2 ^ (- ez) * 2 ^ (ez - ez'))
      by (rewrite <- Z.pow_add_r by (unfold ez in *; lia); f_equal; lia).
    nia.
  - apply SFleb_one_signed_true, binary_round_signed.
Qed.

End Binary64.

(** ** Comparisons and [Math.max] *)

Section Doubles.
Import JS.
Local Open Scope float_scope.

Lemma Prim2SF_one : Prim2SF 1 = one.
Proof. reflexivity. Qed.

Lemma SFcompare_refl (x : spec_float) : x <> S754_nan -> SFcompare x x = Some Eq.
Proof.
  destruct x as [s | s | | s m e]; simpl; intros H; try reflexivity; try tauto.
  - destruct s; reflexivity.
  - rewrite Z.compare_refl, Pos.compare_cont_refl. destruct s; reflexivity.
Qed.

Lemma leb_not_nan (a b : float) : (a <=? b) = true -> is_nan a = false.
Proof.
  rewrite leb_spec. unfold is_nan. rewrite eqb_spec. unfold SFleb, SFeqb.
  intros H. rewrite SFcompare_refl; [reflexivity |].
  intros E. rewrite E in H. discriminate.
Qed.

Lemma ltb_leb (a b : float) : (a <? b) = true -> (a <=? b) = true.
Proof.
  rewrite ltb_spec, leb_spec. unfold SFltb, SFleb.
  destruct (SFcompare (Prim2SF a) (Prim2SF b)) as [[| |] |]; congruence.
Qed.

(** [Math.max(0, s)] lies in [0, 1] as soon as [s <= 1]. *)
Lemma Math_max_zero_bounds (s : float) :
  (s <=? 1) = true ->
  (0 <=? Math_max 0 s) = true /\ (Math_max 0 s <=? 1) = true.
Proof.
  intros H. unfold Math_max. rewrite (leb_not_nan _ _ H).
  change (is_nan 0 || false) with false. cbv iota.
  destruct (0 <? s) eqn:L.
  - split; [apply ltb_leb, L | exact H].
  - change (get_sign 0) with false. destruct (s <? 0); split; reflexivity.
Qed.

End Doubles.

(** ** Rounding to a mantissa of any size *)

Section RoundingAnywhere.
Local Open Scope Z_scope.
Abbreviation bra := (binary_round_aux prec emax).
Abbreviation fexp64 := (fexp prec emax).

(** The result of rounding once the mantissa [m1] at exponent [e1] has
    been chosen. *)
Definition finish (sx : bool) (m1 e1 : Z) : spec_float :=
  if m1 =? 2 ^ 53
  then (if e1 + 1 <=? 971 then S754_finite sx (2 ^ 52)%positive (e1 + 1)
        else S754_infinity sx)
  else match m1 with
       | Z0 => S754_zero sx
       | Z.pos m => if e1 <=? 971 then S754_finite sx m e1 else S754_infinity sx
       | Z.neg _ => S754_nan
       end.

Lemma Zdigits2_le_53 (m : Z) : 0 <= m < 2 ^ 53 -> Zdigits2 m <= 53.
Proof.
  intros Hm. destruct m as [| p | p]; simpl; [lia | | lia].
  pose proof (digits2_bounds p) as [Hlo _].
  assert (Z.pos (digits2_pos p) - 1 < 53); [| lia].
  apply (Z.pow_lt_mono_r_iff 2); [lia | lia |].
  set (B := 2 ^ 53) in *. lia.
Qed.

Lemma second_stage (sx : bool) (m1 e1 : Z) :
  0 <= m1 <= 2 ^ 53 -> -1074 <= e1 ->
  (let '(mrs, e2) := shr_fexp prec emax m1 e1 loc_Exact in
   match shr_m mrs with
   | Z0 => S754_zero sx
   | Z.pos m => if e2 <=? emax - prec then S754_finite sx m e2 else S754_infinity sx
   | Z.neg _ => S754_nan
   end) = finish sx m1 e1.
Proof.
  intros Hm He. unfold finish.
  destruct (Z.eqb_spec m1 (2 ^ 53)) as [Heq | Hne].
  - rewrite Heq.
    assert (S : e1 < fexp64 (Zdigits2 (2 ^ 53) + e1))
      by (change (Zdigits2 (2 ^ 53)) with 54; rewrite fexp64_eq; lia).
    destruct (shr_fexp_shift (2 ^ 53) e1 loc_Exact S) as [n1 [Hn1 ->]].
    assert (n1 = 1%positive)
      by (change (Zdigits2 (2 ^ 53)) with 54 in Hn1; rewrite fexp64_eq in Hn1; lia).
    subst n1. change (Zdigits2 (2 ^ 53)) with 54.
    replace (fexp64 (54 + e1)) with (e1 + 1) by (rewrite fexp64_eq; lia).
    reflexivity.
  - assert (N : fexp64 (Zdigits2 m1 + e1) <= e1).
    { rewrite fexp64_eq.
      assert (Zdigits2 m1 <= 53) by (apply Zdigits2_le_53; set (B := 2 ^ 53) in *; lia).
      lia. }
    rewrite shr_fexp_noshift by exact N. simpl.
    destruct m1 as [| m | m]; reflexivity.
Qed.

(** Rounding, for any location of the exact value inside its unit
    interval: the mantissa kept is the shifted one or its successor. *)
Lemma bra_any (sx : bool) (m e : Z) (l : location) :
  0 <= m ->
  let e1 := Z.max e (fexp64 (Zdigits2 m + e)) in
  let q := m / 2 ^ (e1 - e) in
  exists m1 : Z,
    q <= m1 <= q + 1 /\ m1 <= 2 ^ 53 /\ bra sx m e l = finish sx m1 e1.
Proof.
  intros Hm e1 q. unfold binary_round_aux.
  assert (Hd : m < 2 ^ Zdigits2 m).
  { destruct m as [| p | p]; simpl; [lia | apply digits2_bounds | lia]. }
  assert (Hd0 : 0 <= Zdigits2 m) by (destruct m; simpl; lia).
  assert (Hq : 0 <= q < 2 ^ 53).
  { assert (P : 0 < 2 ^ (e1 - e)) by (apply Z.pow_pos_nonneg; lia).
    split; [apply Z.div_pos; lia |].
    apply Z.div_lt_upper_bound; [exact P |].
    rewrite <- Z.pow_add_r by lia.
    eapply Z.lt_le_trans; [exact Hd |].
    apply Z.pow_le_mono_r; [lia |].
    unfold e1. rewrite fexp64_eq. lia. }
  destruct (Z.le_gt_cases (fexp64 (Zdigits2 m + e)) e) as [H | H].
  - rewrite shr_fexp_noshift by exact H.
    assert (E : e1 = e) by (unfold e1; lia).
    assert (Q : q = m) by (unfold q; rewrite E, Z.sub_diag; apply Z.div_1_r).
    set (m1 := round_nearest_even (shr_m (shr_record_of_loc m l))
                                  (loc_of_shr_record (shr_record_of_loc m l))).
    pose proof (round_bounds (shr_m (shr_record_of_loc m l))
                             (loc_of_shr_record (shr_record_of_loc m l))) as Hb.
    fold m1 in Hb. rewrite shr_m_of_loc in Hb.
    assert (Hm1 : m1 <= 2 ^ 53) by (set (B := 2 ^ 53) in *; lia).
    exists m1. rewrite Q, E. split; [exact Hb |]. split; [exact Hm1 |].
    apply second_stage; [lia |]. rewrite fexp64_eq in H. lia.
  - destruct (shr_fexp_shift m e l H) as [n [Hn ->]].
    assert (E : e1 = fexp64 (Zdigits2 m + e)) by (unfold e1; lia).
    destruct (shr_iter_spec n (shr_record_of_loc m l)) as [M1 _];
      [rewrite shr_m_of_loc; exact Hm |].
    rewrite shr_m_of_loc, Hn, <- E in M1. fold q in M1.
    set (r1 := SpecFloat.iter_pos shr_1 n (shr_record_of_loc m l)) in *.
    set (m1 := round_nearest_even (shr_m r1) (loc_of_shr_record r1)).
    pose proof (round_bounds (shr_m r1) (loc_of_shr_record r1)) as Hb.
    fold m1 in Hb. rewrite M1 in Hb.
    assert (Hm1 : m1 <= 2 ^ 53) by (set (B := 2 ^ 53) in *; lia).
    exists m1. rewrite <- E. split; [exact Hb |]. split; [exact Hm1 |].
    apply second_stage; [lia |]. rewrite E, fexp64_eq. lia.
Qed.

End RoundingAnywhere.

(** ** The real value of a double and the error of one rounding *)

Section RealValue.
Local Open Scope R_scope.
Abbreviation fexp64 := (fexp prec emax).
Abbreviation bra := (binary_round_aux prec emax).

Definition bpow (e : Z) : R := powerRZ 2 e.

Definition F2R (m e : Z) : R := IZR m * bpow e.

(** The real value of a double (0 for a NaN or an infinity). *)
Definition SF2R (x : spec_float) : R :=
  match x with
  | S754_finite s m e => F2R (if s then Z.neg m else Z.pos m) e
  | _ => 0
  end.

Lemma bpow_pos (e : Z) : 0 < bpow e.
Proof. apply powerRZ_lt. lra. Qed.

Lemma bpow_add (a b : Z) : bpow (a + b) = bpow a * bpow b.
Proof. apply powerRZ_add. lra. Qed.

Lemma IZR_pow2 (k : Z) : (0 <= k)%Z -> IZR (2 ^ k) = bpow k.
Proof.
  intros Hk. destruct k as [| p | p]; [reflexivity | | lia].
  unfold bpow. rewrite <- Zpower_pos_powerRZ. reflexivity.
Qed.

Lemma bpow_le (a b : Z) : (a <= b)%Z -> bpow a <= bpow b.
Proof.
  intros H. replace b with (a + (b - a))%Z by lia. rewrite bpow_add.
  rewrite <- (IZR_pow2 (b - a)) by lia.
  assert (1 <= IZR (2 ^ (b - a))).
  { apply IZR_le. pose proof (Z.pow_pos_nonneg 2 (b - a)). lia. }
  pose proof (bpow_pos a). nra.
Qed.

Lemma bpow_succ (e : Z) : bpow (e + 1) = 2 * bpow e.
Proof. rewrite bpow_add. unfold bpow at 2. simpl. lra. Qed.

Lemma bpow_lt (a b : Z) : (a < b)%Z -> bpow a < bpow b.
Proof.
  intros H. pose proof (bpow_le (a + 1) b ltac:(lia)) as L.
  rewrite bpow_succ in L. pose proof (bpow_pos a). lra.
Qed.

Lemma F2R_neg (p : positive) (e : Z) : F2R (Z.neg p) e = - F2R (Z.pos p) e.
Proof. unfold F2R. change (IZR (Z.neg p)) with (- IZR (Z.pos p)). lra. Qed.

Definition sgn (s : bool) : R := if s then -1 else 1.

Lemma finish_value (sx : bool) (m1 e1 : Z) :
  (0 <= m1 <= 2 ^ 53)%Z -> (e1 + 1 <= 971)%Z ->
  finite (finish sx m1 e1)
  /\ SF2R (finish sx m1 e1) = sgn sx * (IZR m1 * bpow e1).
Proof.
  intros Hm He. unfold finish.
  destruct (Z.eqb_spec m1 (2 ^ 53)) as [-> | Hne].
  - replace (e1 + 1 <=? 971)%Z with true by (symmetry; apply Z.leb_le; lia).
    split; [exact I |]. unfold SF2R, F2R. rewrite bpow_succ.
    change (2 ^ 53)%Z with (2 * Z.pos (2 ^ 52))%Z. rewrite mult_IZR.
    destruct sx; unfold sgn; [change (IZR (Z.neg (2 ^ 52)))
                                with (- IZR (Z.pos (2 ^ 52))) |]; lra.
  - destruct m1 as [| m | m]; [| | lia].
    + split; [exact I |]. simpl. lra.
    + replace (e1 <=? 971)%Z with true by (symmetry; apply Z.leb_le; lia).
      split; [exact I |]. unfold SF2R.
      destruct sx; unfold sgn; [rewrite F2R_neg |]; unfold F2R; lra.
Qed.

(** The rounded value of a number [x] that lies in the unit interval
    starting at [m * 2^e]: it is within [2^e1] of [x], where [e1] is the
    exponent rounding settles on. *)
Lemma bra_error (sx : bool) (m e : Z) (l : location) (x : R) :
  (0 <= m)%Z ->
  IZR m * bpow e <= x <= (IZR m + 1) * bpow e ->
  let e1 := Z.max e (fexp64 (Zdigits2 m + e)) in
  (e1 + 1 <= 971)%Z ->
  finite (bra sx m e l)
  /\ exists y, SF2R (bra sx m e l) = sgn sx * y
               /\ 0 <= y /\ x - bpow e1 <= y <= x + bpow e1.
Proof.
  intros Hm Hx e1 He1.
  destruct (bra_any sx m e l Hm) as [m1 [Hb [Hm1 ->]]]. fold e1 in Hb.
  set (k := (e1 - e)%Z) in *. set (q := (m / 2 ^ k)%Z) in *.
  assert (Hk : (0 <= k)%Z) by (unfold k, e1; lia).
  assert (P : (0 < 2 ^ k)%Z) by (apply Z.pow_pos_nonneg; lia).
  assert (Hq : (0 <= q)%Z) by (apply Z.div_pos; lia).
  destruct (finish_value sx m1 e1) as [F V]; [lia | exact He1 |].
  split; [exact F |].
  exists (IZR m1 * bpow e1). split; [exact V |].
  pose proof (bpow_pos e1) as P1. pose proof (bpow_pos e) as P0.
  assert (E : bpow e1 = IZR (2 ^ k) * bpow e).
  { rewrite IZR_pow2 by exact Hk. rewrite <- bpow_add. f_equal. unfold k. lia. }
  assert (Q1 : IZR (2 ^ k) * IZR q <= IZR m).
  { rewrite <- mult_IZR. apply IZR_le, Z.mul_div_le, P. }
  assert (Q2 : IZR m + 1 <= IZR (2 ^ k) * (IZR q + 1)).
  { rewrite <- (plus_IZR m 1), <- (plus_IZR q 1), <- mult_IZR. apply IZR_le.
    pose proof (Z.mul_succ_div_gt m (2 ^ k) P). unfold q. lia. }
  assert (M1 : IZR q <= IZR m1 <= IZR q + 1).
  { rewrite <- (plus_IZR q 1). split; apply IZR_le; lia. }
  assert (Pk : 0 < IZR (2 ^ k)) by (apply IZR_lt; exact P).
  split.
  - apply Rmult_le_pos; [| lra]. apply IZR_le. lia.
  - rewrite E. split; nra.
Qed.


(** The error bound used throughout: every value met below is smaller
    than [2^10], so rounding moves it by at most [2^-43]. *)
Definition delta : R := bpow (-43).

Lemma Zdigits2_le (m n : Z) : (0 <= m < 2 ^ n)%Z -> (0 <= n)%Z -> (Zdigits2 m <= n)%Z.
Proof.
  intros Hm Hn. destruct m as [| p | p]; simpl; [lia | | lia].
  pose proof (digits2_bounds p) as [Hlo _].
  assert (Z.pos (digits2_pos p) - 1 < n)%Z; [| lia].
  apply (Z.pow_lt_mono_r_iff 2); lia.
Qed.

Lemma F2R_lt_bpow (m e n : Z) :
  (0 <= m)%Z -> F2R m e < bpow n -> (e <= n)%Z -> (Zdigits2 m + e <= n)%Z.
Proof.
  intros Hm H Hen. unfold F2R in H.
  assert (Hlt : (m < 2 ^ (n - e))%Z).
  { apply lt_IZR. rewrite IZR_pow2 by lia.
    replace n with ((n - e) + e)%Z in H at 1 by lia. rewrite bpow_add in H.
    pose proof (bpow_pos e). nra. }
  pose proof (Zdigits2_le m (n - e)). lia.
Qed.

Lemma bra_error_small (sx : bool) (m e : Z) (l : location) (x : R) :
  (0 <= m)%Z ->
  IZR m * bpow e <= x <= (IZR m + 1) * bpow e ->
  (e <= -43)%Z -> x < bpow 10 ->
  finite (bra sx m e l)
  /\ exists y, SF2R (bra sx m e l) = sgn sx * y
               /\ 0 <= y /\ x - delta <= y <= x + delta.
Proof.
  intros Hm Hx He Hlt.
  assert (Hd : (Zdigits2 m + e <= 10)%Z).
  { apply F2R_lt_bpow; [exact Hm | unfold F2R; lra | lia]. }
  assert (He1 : (Z.max e (fexp64 (Zdigits2 m + e)) <= -43)%Z)
    by (rewrite fexp64_eq; lia).
  destruct (bra_error sx m e l x Hm Hx) as [F [y [V [Y0 Y]]]]; [lia |].
  split; [exact F |]. exists y. split; [exact V |]. split; [exact Y0 |].
  pose proof (bpow_le _ _ He1). unfold delta. lra.
Qed.

(** A zero or a finite number whose exponent is at most -43. *)
Definition small (x : spec_float) : Prop :=
  match x with
  | S754_zero _ => True
  | S754_finite _ _ e => (e <= -43)%Z
  | _ => False
  end.

Lemma small_finite (x : spec_float) : small x -> finite x.
Proof. destruct x; simpl; tauto. Qed.

Lemma valid_small (x : spec_float) :
  valid_binary x = true -> finite x -> - bpow 10 < SF2R x < bpow 10 -> small x.
Proof.
  destruct x as [s | s | | s m e]; cbn [SF2R finite valid_binary small];
    try tauto.
  intros V _ H. unfold bounded, canonical_mantissa in V.
  apply andb_true_iff in V. destruct V as [V _]. apply Z.eqb_eq in V.
  assert (Hd : (Z.pos (digits2_pos m) + e <= 10)%Z).
  { apply (F2R_lt_bpow (Z.pos m) e 10); [lia | |].
    - destruct s; [rewrite F2R_neg in H |]; lra.
    - destruct (Z.le_gt_cases e 10) as [L | L]; [exact L | exfalso].
      assert (bpow 10 <= bpow e) by (apply bpow_le; lia).
      assert (1 <= IZR (Z.pos m)) by (apply IZR_le; lia).
      pose proof (bpow_pos e).
      destruct s; [rewrite F2R_neg in H |]; unfold F2R in *; nra. }
  rewrite fexp64_eq in V. lia.
Qed.

Lemma shl_align_value (mx : positive) (ex ex' : Z) :
  let '(m, e) := shl_align mx ex ex' in
  (e <= ex)%Z /\ F2R (Z.pos m) e = F2R (Z.pos mx) ex.
Proof.
  pose proof (shl_align_spec mx ex ex') as H.
  destruct (shl_align mx ex ex') as [m e]. destruct H as [He Hm].
  split; [lia |]. unfold F2R. rewrite Hm, mult_IZR, IZR_pow2 by lia.
  assert (E : bpow ex = bpow (ex - e) * bpow e)
    by (rewrite <- bpow_add; f_equal; lia).
  rewrite E. lra.
Qed.

Lemma binary_round_error (s : bool) (p : positive) (ez : Z) :
  (ez <= -43)%Z -> F2R (Z.pos p) ez < bpow 10 ->
  finite (binary_round prec emax s p ez)
  /\ exists y, SF2R (binary_round prec emax s p ez) = sgn s * y
               /\ F2R (Z.pos p) ez - delta <= y <= F2R (Z.pos p) ez + delta.
Proof.
  intros He H. unfold binary_round.
  pose proof (shl_align_value p ez (fexp64 (Z.pos (digits2_pos p) + ez))) as A.
  destruct (shl_align p ez (fexp64 (Z.pos (digits2_pos p) + ez))) as [mz ez'].
  destruct A as [Ez Vz].
  destruct (bra_error_small s (Z.pos mz) ez' loc_Exact (F2R (Z.pos p) ez))
    as [F [y [V [_ Y]]]]; try lia; try assumption.
  - rewrite <- Vz. unfold F2R. pose proof (bpow_pos ez'). nra.
  - split; [exact F |]. exists y. split; assumption.
Qed.

Lemma binary_normalize_error (M ez : Z) (s0 : bool) :
  (ez <= -43)%Z -> - bpow 10 < F2R M ez < bpow 10 ->
  finite (binary_normalize prec emax M ez s0)
  /\ F2R M ez - delta <= SF2R (binary_normalize prec emax M ez s0) <= F2R M ez + delta.
Proof.
  intros He H. pose proof (bpow_pos (-43)) as D. fold delta in D.
  destruct M as [| p | p]; cbn [binary_normalize].
  - split; [exact I |]. unfold F2R. simpl. lra.
  - destruct (binary_round_error false p ez He) as [F [y [V Y]]]; [lra |].
    split; [exact F |]. rewrite V. unfold sgn. lra.
  - pose proof (F2R_neg p ez) as N.
    destruct (binary_round_error true p ez He) as [F [y [V Y]]]; [lra |].
    split; [exact F |]. rewrite V, N. unfold sgn. lra.
Qed.


(** ** Addition and subtraction *)

Lemma aligned_value (s : bool) (mx : positive) (ex ez : Z) :
  (ez <= ex)%Z ->
  F2R (cond_Zopp s (Z.pos (fst (shl_align mx ex ez)))) ez
  = SF2R (S754_finite s mx ex).
Proof.
  intros H. pose proof (shl_align_spec mx ex ez) as A.
  pose proof (shl_align_value mx ex ez) as B.
  destruct (shl_align mx ex ez) as [m e]. destruct A as [E _], B as [_ V].
  assert (Ee : e = ez) by lia. clear E. subst e. cbn [fst SF2R].
  destruct s; cbn [cond_Zopp]; [| exact V].
  change (- Z.pos m)%Z with (Z.neg m). rewrite !F2R_neg, V. reflexivity.
Qed.

Lemma F2R_plus (a b e : Z) : F2R (a + b) e = F2R a e + F2R b e.
Proof. unfold F2R. rewrite plus_IZR. lra. Qed.

Lemma F2R_minus (a b e : Z) : F2R (a - b) e = F2R a e - F2R b e.
Proof. unfold F2R. rewrite minus_IZR. lra. Qed.

Lemma SFadd_error (x y : spec_float) :
  small x -> small y -> - bpow 10 < SF2R x + SF2R y < bpow 10 ->
  finite (SF64add x y)
  /\ SF2R x + SF2R y - delta <= SF2R (SF64add x y) <= SF2R x + SF2R y + delta.
Proof.
  pose proof (bpow_pos (-43)) as D. fold delta in D.
  destruct x as [sx | sx | | sx mx ex], y as [sy | sy | | sy my ey];
    cbn [small]; try tauto; intros Hx Hy H.
  - cbn [SF64add SFadd]. destruct sx, sy; cbn [finite SF2R]; split; (exact I || lra).
  - cbn [SF64add SFadd finite]. split; [exact I |]. cbn [SF2R]. lra.
  - cbn [SF64add SFadd finite]. split; [exact I |]. cbn [SF2R]. lra.
  - unfold SF64add, SFadd.
    rewrite <- (aligned_value sx mx ex (Z.min ex ey)),
            <- (aligned_value sy my ey (Z.min ex ey)), <- F2R_plus in H |- * by lia.
    apply binary_normalize_error; [lia | exact H].
Qed.

Lemma SFsub_error (x y : spec_float) :
  small x -> small y -> - bpow 10 < SF2R x - SF2R y < bpow 10 ->
  finite (SF64sub x y)
  /\ SF2R x - SF2R y - delta <= SF2R (SF64sub x y) <= SF2R x - SF2R y + delta.
Proof.
  pose proof (bpow_pos (-43)) as D. fold delta in D.
  destruct x as [sx | sx | | sx mx ex], y as [sy | sy | | sy my ey];
    cbn [small]; try tauto; intros Hx Hy H.
  - cbn [SF64sub SFsub]. destruct sx, sy; cbn [finite SF2R]; split; (exact I || lra).
  - cbn [SF64sub SFsub finite]. split; [exact I |]. cbn [SF2R].
    assert (F2R (if negb sy then Z.neg my else Z.pos my) ey
            = - F2R (if sy then Z.neg my else Z.pos my) ey).
    { destruct sy; cbn [negb]; rewrite F2R_neg; lra. }
    lra.
  - cbn [SF64sub SFsub finite]. split; [exact I |]. cbn [SF2R]. lra.
  - unfold SF64sub, SFsub.
    rewrite <- (aligned_value sx mx ex (Z.min ex ey)),
            <- (aligned_value sy my ey (Z.min ex ey)), <- F2R_minus in H |- * by lia.
    apply binary_normalize_error; [lia | exact H].
Qed.


(** ** Squares, quotients and square roots of small numbers *)

Lemma bpow_lt_inv (a b : Z) : bpow a < bpow b -> (a < b)%Z.
Proof.
  intros H. destruct (Z.lt_ge_cases a b) as [L | L]; [exact L | exfalso].
  pose proof (bpow_le b a L). lra.
Qed.

Lemma bpow_square (e : Z) : bpow (e + e) = bpow e * bpow e.
Proof. apply bpow_add. Qed.

Lemma SFmul_square_bound (x : spec_float) :
  small x -> - bpow (-20) <= SF2R x <= bpow (-20) ->
  finite (SF64mul x x) /\ 0 <= SF2R (SF64mul x x) <= bpow (-39).
Proof.
  pose proof (bpow_pos (-43)) as D. fold delta in D.
  pose proof (bpow_pos (-39)) as D39.
  destruct x as [s | s | | s m e]; cbn [small]; try tauto; intros Hx H.
  - cbn [SF64mul SFmul finite SF2R]. split; [exact I | lra].
  - unfold SF64mul, SFmul. rewrite xorb_nilpotent.
    set (X := IZR (Z.pos (m * m)) * bpow (e + e)).
    assert (HX : 0 <= X <= bpow (-40)).
    { unfold X. rewrite Pos2Z.inj_mul, mult_IZR, bpow_square.
      change (-40)%Z with (-20 + -20)%Z. rewrite bpow_square.
      cbn [SF2R] in H.
      assert (A : - bpow (-20) <= IZR (Z.pos m) * bpow e <= bpow (-20)).
      { destruct s; [rewrite F2R_neg in H |]; unfold F2R in H; lra. }
      pose proof (bpow_pos (-20)). split; nra. }
    assert (B1 : bpow (-40) < bpow 10) by (apply bpow_lt; lia).
    assert (B2 : delta <= bpow (-40)) by (apply bpow_le; lia).
    assert (B3 : bpow (-39) = 2 * bpow (-40))
      by (change (-39)%Z with (-40 + 1)%Z; apply bpow_succ).
    pose proof (bpow_pos 10) as D10. pose proof (bpow_pos (e + e)) as De.
    destruct (bra_error_small false (Z.pos (m * m)) (e + e) loc_Exact X)
      as [F [y [V [Y0 Y]]]]; try lia.
    + unfold X. nra.
    + lra.
    + split; [exact F |]. rewrite V. unfold sgn. lra.
Qed.

Lemma digits_pos_gt (m : positive) (e : Z) :
  1 <= F2R (Z.pos m) e -> (0 < Z.pos (digits2_pos m) + e)%Z.
Proof.
  intros H. pose proof (digits2_bounds m) as [_ Hd].
  apply IZR_lt in Hd. rewrite IZR_pow2 in Hd by lia.
  unfold F2R in H. pose proof (bpow_pos e) as P.
  assert (L : bpow 0 < bpow (Z.pos (digits2_pos m) + e)).
  { rewrite bpow_add. change (bpow 0) with 1. nra. }
  apply bpow_lt_inv in L. lia.
Qed.

Lemma SFdiv_error (x y : spec_float) (my : positive) (ey : Z) :
  small x -> 0 <= SF2R x < bpow 10 ->
  y = S754_finite false my ey -> 1 <= SF2R y ->
  finite (SF64div x y)
  /\ SF2R x / SF2R y - delta <= SF2R (SF64div x y) <= SF2R x / SF2R y + delta.
Proof.
  pose proof (bpow_pos (-43)) as D. fold delta in D.
  intros Hx H -> Hy. cbn [SF2R] in Hy.
  destruct x as [sx | sx | | sx mx ex]; cbn [small] in Hx; try tauto.
  - cbn [SF64div SFdiv finite SF2R]. split; [exact I |].
    unfold Rdiv. rewrite Rmult_0_l. lra.
  - assert (sx = false).
    { destruct sx; [| reflexivity]. cbn [SF2R] in H.
      rewrite F2R_neg in H. unfold F2R in H.
      assert (0 < IZR (Z.pos mx)) by (apply IZR_lt; lia).
      pose proof (bpow_pos ex). nra. }
    subst sx. cbn [SF2R] in H |- *.
    unfold SF64div, SFdiv, SFdiv_core_binary. cbn [xorb].
    set (d1 := Zdigits2 (Z.pos mx)). set (d2 := Zdigits2 (Z.pos my)).
    set (e' := Z.min (fexp64 (d1 + ex - (d2 + ey))) (ex - ey)).
    set (s := (ex - ey - e')%Z).
    assert (Hs : (0 <= s)%Z) by (unfold s, e'; lia).
    set (m' := match s with
               | 0%Z => Z.pos mx
               | Z.pos _ => Z.shiftl (Z.pos mx) s
               | Z.neg _ => 0%Z
               end).
    assert (Hm' : m' = (Z.pos mx * 2 ^ s)%Z).
    { unfold m'. destruct s as [| p | p] eqn:S; [simpl; lia | | lia].
      apply Z.shiftl_mul_pow2. lia. }
    pose proof (Z.div_eucl_eq m' (Z.pos my) ltac:(lia)) as Q.
    pose proof (Z.mod_pos_bound m' (Z.pos my) ltac:(lia)) as R.
    unfold Z.modulo in R.
    destruct (Z.div_eucl m' (Z.pos my)) as [q r].
    assert (P2 : (0 < 2 ^ s)%Z) by (apply Z.pow_pos_nonneg; lia).
    assert (Hq : (0 <= q)%Z) by nia.
    assert (Hd1 : (d1 + ex <= 10)%Z)
      by (apply F2R_lt_bpow; [lia | lra | lia]).
    assert (Hd2 : (0 < d2 + ey)%Z) by (apply digits_pos_gt, Hy).
    assert (He' : (e' <= -43)%Z) by (unfold e'; rewrite fexp64_eq; lia).
    set (X := F2R (Z.pos mx) ex / F2R (Z.pos my) ey).
    assert (Py : 0 < F2R (Z.pos my) ey) by lra.
    assert (HX : IZR q * bpow e' <= X <= (IZR q + 1) * bpow e').
    { assert (E1 : F2R (Z.pos mx) ex
                   = IZR m' * bpow e' * bpow ey).
      { unfold F2R. rewrite Hm', mult_IZR, IZR_pow2 by lia.
        assert (E : bpow ex = bpow s * bpow e' * bpow ey).
        { rewrite <- !bpow_add. f_equal. unfold s. lia. }
        rewrite E. lra. }
      assert (E2 : X = IZR m' / IZR (Z.pos my) * bpow e').
      { unfold X. rewrite E1. unfold F2R.
        pose proof (bpow_pos ey).
        assert (0 < IZR (Z.pos my)) by (apply IZR_lt; lia).
        field. split; lra. }
      rewrite E2. rewrite Q, plus_IZR, mult_IZR.
      assert (Pm : 0 < IZR (Z.pos my)) by (apply IZR_lt; lia).
      assert (Hr : 0 <= IZR r < IZR (Z.pos my))
        by (split; [apply IZR_le | apply IZR_lt]; lia).
      assert (E3 : (IZR (Z.pos my) * IZR q + IZR r) / IZR (Z.pos my)
                   = IZR q + IZR r / IZR (Z.pos my)) by (field; lra).
      rewrite E3.
      assert (0 <= IZR r / IZR (Z.pos my) < 1).
      { split.
        - apply Rmult_le_pos; [lra |]. left. apply Rinv_0_lt_compat. exact Pm.
        - apply (Rmult_lt_reg_r (IZR (Z.pos my))); [exact Pm |].
          unfold Rdiv. rewrite Rmult_assoc, Rinv_l by lra. lra. }
      pose proof (bpow_pos e'). split; nra. }
    assert (HXle : X <= F2R (Z.pos mx) ex).
    { unfold X. apply (Rmult_le_reg_r (F2R (Z.pos my) ey)); [exact Py |].
      unfold Rdiv. rewrite Rmult_assoc, Rinv_l by lra. nra. }
    destruct (bra_error_small false q e' (new_location (Z.pos my) r) X)
      as [F [y [V [Y0 Y]]]]; try lia; try assumption; try lra.
    split; [exact F |]. rewrite V. unfold sgn. fold X. lra.
Qed.

Lemma SFsqrt_bound (x : spec_float) :
  small x -> 0 <= SF2R x <= bpow (-37) ->
  finite (SF64sqrt x) /\ 0 <= SF2R (SF64sqrt x) <= bpow (-17).
Proof.
  pose proof (bpow_pos (-43)) as D. fold delta in D.
  pose proof (bpow_pos (-17)) as D17.
  intros Hx H.
  destruct x as [sx | sx | | sx m e]; cbn [small] in Hx; try tauto.
  - cbn [SF64sqrt SFsqrt finite SF2R]. split; [exact I | lra].
  - assert (sx = false).
    { destruct sx; [| reflexivity]. cbn [SF2R] in H.
      rewrite F2R_neg in H. unfold F2R in H.
      assert (0 < IZR (Z.pos m)) by (apply IZR_lt; lia).
      pose proof (bpow_pos e). nra. }
    subst sx. cbn [SF2R] in H.
    unfold SF64sqrt, SFsqrt, SFsqrt_core_binary.
    set (d := Zdigits2 (Z.pos m)).
    set (e' := Z.min (fexp64 (Z.div2 (d + e + 1))) (Z.div2 e)).
    set (s := (e - 2 * e')%Z).
    assert (B37 : bpow (-37) <= bpow (-36)) by (apply bpow_le; lia).
    assert (Hd : (d + e <= -36)%Z).
    { apply F2R_lt_bpow; [lia | | lia].
      assert (bpow (-37) < bpow (-36)) by (apply bpow_lt; lia).
      lra. }
    assert (He' : (e' <= -43)%Z).
    { unfold e'. rewrite fexp64_eq, !Z.div2_div.
      assert ((d + e + 1) / 2 < -17)%Z
        by (apply Z.div_lt_upper_bound; lia).
      lia. }
    assert (Hs : (0 <= s)%Z).
    { unfold s, e'. rewrite (Z.div2_div e).
      pose proof (Z.mul_div_le e 2). lia. }
    set (m' := match s with
               | 0%Z => Z.pos m
               | Z.pos _ => Z.shiftl (Z.pos m) s
               | Z.neg _ => 0%Z
               end).
    assert (Hm' : m' = (Z.pos m * 2 ^ s)%Z).
    { unfold m'. destruct s as [| p | p] eqn:S; [simpl; lia | | lia].
      apply Z.shiftl_mul_pow2. lia. }
    assert (P2 : (0 < 2 ^ s)%Z) by (apply Z.pow_pos_nonneg; lia).
    pose proof (Z.sqrtrem_spec m' ltac:(lia)) as Q.
    pose proof (Z.sqrtrem_sqrt m') as Q'.
    destruct (Z.sqrtrem m') as [q r]. cbn [fst] in Q'. destruct Q as [Q Qr].
    assert (Hq : (0 <= q)%Z) by (rewrite Q'; apply Z.sqrt_nonneg).
    set (X := IZR q * bpow e').
    assert (HX2 : X * X <= bpow (-36)).
    { assert (E : F2R (Z.pos m) e = IZR m' * (bpow e' * bpow e')).
      { unfold F2R. rewrite Hm', mult_IZR, IZR_pow2 by lia.
        assert (Ee : bpow e = bpow s * (bpow e' * bpow e')).
        { rewrite <- !bpow_add. f_equal. unfold s. lia. }
        rewrite Ee. lra. }
      assert (Hle : IZR q * IZR q <= IZR m').
      { rewrite <- mult_IZR. apply IZR_le. lia. }
      pose proof (bpow_pos e') as Pe.
      assert (0 <= bpow e' * bpow e') by nra.
      unfold X. nra. }
    assert (HX0 : 0 <= X).
    { unfold X. apply Rmult_le_pos; [apply IZR_le; lia | left; apply bpow_pos]. }
    assert (HX : X <= bpow (-18)).
    { pose proof (bpow_pos (-18)) as P18.
      assert (E36 : bpow (-36) = bpow (-18) * bpow (-18))
        by (change (-36)%Z with (-18 + -18)%Z; apply bpow_square).
      destruct (Rle_lt_dec X (bpow (-18))) as [L | L]; [exact L | exfalso]. nra. }
    assert (B10 : bpow (-18) < bpow 10) by (apply bpow_lt; lia).
    assert (B17 : bpow (-17) = 2 * bpow (-18))
      by (change (-17)%Z with (-18 + 1)%Z; apply bpow_succ).
    assert (Bd : delta <= bpow (-18)) by (apply bpow_le; lia).
    destruct (bra_error_small false q e'
                (if (r =? 0)%Z then loc_Exact
                 else loc_Inexact (if (r <=? q)%Z then Lt else Gt)) X)
      as [F [y [V [Y0 Y]]]]; try lia; try lra.
    + unfold X. pose proof (bpow_pos e'). nra.
    + split; [exact F |]. rewrite V. unfold sgn. lra.
Qed.

End RealValue.

(** ** Doubles known up to an interval *)

Section DoubleValues.
Import JS.
Local Open Scope R_scope.

(** The real value of a double, and a double known to be finite with
    its value in an interval. *)
Definition val (a : float) : R := SF2R (Prim2SF a).

Definition within (lo hi : R) (a : float) : Prop :=
  finite (Prim2SF a) /\ lo <= val a <= hi.

Lemma within_small (lo hi : R) (a : float) :
  within lo hi a -> - bpow 10 < lo -> hi < bpow 10 -> small (Prim2SF a).
Proof.
  intros [F V] Hlo Hhi. apply valid_small; [apply Prim2SF_valid | exact F |].
  unfold val in V. lra.
Qed.

Lemma within_weaken (lo hi lo' hi' : R) (a : float) :
  within lo hi a -> lo' <= lo -> hi <= hi' -> within lo' hi' a.
Proof. intros [F V] H1 H2. split; [exact F | lra]. Qed.

Lemma add_within (la ha lb hb : R) (a b : float) :
  within la ha a -> within lb hb b ->
  - bpow 10 < la -> ha < bpow 10 -> - bpow 10 < lb -> hb < bpow 10 ->
  - bpow 10 < la + lb -> ha + hb < bpow 10 ->
  within (la + lb - delta) (ha + hb + delta) (a + b)%float.
Proof.
  intros Ha Hb A1 A2 B1 B2 C1 C2.
  pose proof (within_small _ _ _ Ha A1 A2) as Sa.
  pose proof (within_small _ _ _ Hb B1 B2) as Sb.
  destruct Ha as [_ Va], Hb as [_ Vb]. unfold within, val in *.
  rewrite FloatAxioms.add_spec.
  destruct (SFadd_error _ _ Sa Sb) as [F E]; [lra |].
  split; [exact F | lra].
Qed.

Lemma sub_within (la ha lb hb : R) (a b : float) :
  within la ha a -> within lb hb b ->
  - bpow 10 < la -> ha < bpow 10 -> - bpow 10 < lb -> hb < bpow 10 ->
  - bpow 10 < la - hb -> ha - lb < bpow 10 ->
  within (la - hb - delta) (ha - lb + delta) (a - b)%float.
Proof.
  intros Ha Hb A1 A2 B1 B2 C1 C2.
  pose proof (within_small _ _ _ Ha A1 A2) as Sa.
  pose proof (within_small _ _ _ Hb B1 B2) as Sb.
  destruct Ha as [_ Va], Hb as [_ Vb]. unfold within, val in *.
  rewrite FloatAxioms.sub_spec.
  destruct (SFsub_error _ _ Sa Sb) as [F E]; [lra |].
  split; [exact F | lra].
Qed.

Lemma div6_within (la ha : R) (a : float) :
  within la ha a -> 0 <= val a -> - bpow 10 < la -> ha < bpow 10 ->
  within (la / 6 - delta) (ha / 6 + delta) (a / 6)%float.
Proof.
  intros Ha A0 A1 A2.
  pose proof (within_small _ _ _ Ha A1 A2) as Sa.
  destruct Ha as [_ Va]. unfold within, val in *.
  rewrite div_spec.
  assert (S6 : Prim2SF 6 = S754_finite false 6755399441055744 (-50))
    by reflexivity.
  assert (V6 : SF2R (Prim2SF 6) = 6).
  { rewrite S6. unfold SF2R, F2R.
    change (Z.pos 6755399441055744) with (6 * 2 ^ 50)%Z.
    rewrite mult_IZR, IZR_pow2 by lia. rewrite Rmult_assoc, <- bpow_add.
    change (bpow (50 + -50)) with 1. lra. }
  destruct (SFdiv_error (Prim2SF a) (Prim2SF 6) 6755399441055744 (-50) Sa)
    as [F E]; [lra | exact S6 | lra |].
  rewrite V6 in E. split; [exact F | lra].
Qed.

Lemma square_within (a : float) :
  within (- bpow (-20)) (bpow (-20)) a ->
  within 0 (bpow (-39)) (Math_pow2 a).
Proof.
  intros Ha.
  assert (Sa : small (Prim2SF a)).
  { apply (within_small _ _ _ Ha).
    - pose proof (bpow_lt (-20) 10 ltac:(lia)). lra.
    - apply bpow_lt. lia. }
  destruct Ha as [_ Va]. unfold within, val, Math_pow2 in *.
  rewrite FloatAxioms.mul_spec. apply SFmul_square_bound; assumption.
Qed.

Lemma sqrt_within (a : float) :
  within 0 (bpow (-37)) a -> within 0 (bpow (-17)) (Math_sqrt a).
Proof.
  intros Ha.
  assert (Sa : small (Prim2SF a)).
  { apply (within_small _ _ _ Ha).
    - pose proof (bpow_pos 10). lra.
    - apply bpow_lt. lia. }
  destruct Ha as [_ Va]. unfold within, val, Math_sqrt in *.
  rewrite sqrt_spec. apply SFsqrt_bound; assumption.
Qed.


Lemma nonneg_val (a : float) : nonneg (Prim2SF a) -> 0 <= val a.
Proof.
  unfold val. destruct (Prim2SF a) as [s | s | | s m e]; simpl; try lra.
  destruct s; [tauto |]. intros _. unfold F2R.
  apply Rmult_le_pos; [apply IZR_le; lia | left; apply bpow_pos].
Qed.

Lemma positive_double (lo hi : R) (c : float) :
  within lo hi c -> 0 < lo ->
  exists m e, Prim2SF c = S754_finite false m e.
Proof.
  intros [F V] H. unfold val in V.
  destruct (Prim2SF c) as [s | s | | s m e]; simpl in F, V; try tauto; try lra.
  destruct s; [| exists m, e; reflexivity].
  exfalso. unfold F2R in V. change (IZR (Z.neg m)) with (- IZR (Z.pos m)) in V.
  assert (0 < IZR (Z.pos m)) by (apply IZR_lt; lia).
  pose proof (bpow_pos e). nra.
Qed.

Lemma Math_max_zero_positive (lo hi : R) (c : float) :
  within lo hi c -> 0 < lo -> Math_max 0%float c = c.
Proof.
  intros Hc H. destruct (positive_double _ _ _ Hc H) as [m [e E]].
  unfold Math_max, is_nan.
  rewrite (eqb_spec c c), (ltb_spec 0%float c), E. unfold SFeqb.
  rewrite SFcompare_refl by discriminate. reflexivity.
Qed.

(** A double between 99.5 and 100.25 rounds to 100. *)
Lemma Math_round_100 (c : float) :
  within (199 / 2) (401 / 4) c -> Math_round c = 100%float.
Proof.
  intros Hc. destruct (positive_double _ _ _ Hc) as [m [e E]]; [lra |].
  pose proof (Prim2SF_valid c) as V. rewrite E in V.
  destruct Hc as [_ Hv]. unfold val in Hv. rewrite E in Hv. cbn [SF2R] in Hv.
  cbn [valid_binary] in V. unfold bounded, canonical_mantissa in V.
  apply andb_true_iff in V. destruct V as [V _]. apply Z.eqb_eq in V.
  pose proof (digits2_bounds m) as [_ Hd].
  apply IZR_lt in Hd. rewrite IZR_pow2 in Hd by lia.
  pose proof (bpow_pos e) as Pe.
  assert (B6 : bpow 6 = 64) by (unfold bpow; simpl; lra).
  assert (B7 : bpow 7 = 128) by (unfold bpow; simpl; lra).
  assert (E7 : (Z.pos (digits2_pos m) + e = 7)%Z).
  { assert (L : bpow 6 < bpow (Z.pos (digits2_pos m) + e)).
    { rewrite bpow_add. unfold F2R in Hv. nra. }
    apply bpow_lt_inv in L.
    assert (He : (e <= 7)%Z).
    { destruct (Z.le_gt_cases e 7) as [L7 | L7]; [exact L7 | exfalso].
      pose proof (bpow_le 7 e ltac:(lia)).
      assert (1 <= IZR (Z.pos m)) by (apply IZR_le; lia).
      unfold F2R in Hv. nra. }
    pose proof (F2R_lt_bpow (Z.pos m) e 7 ltac:(lia) ltac:(lra) He).
    simpl Zdigits2 in *. lia. }
  rewrite E7, fexp64_eq in V. assert (e = -46)%Z by lia. clear V E7. subst e.
  unfold Math_round. rewrite E.
  change (0 <=? -46)%Z with false. cbv iota.
  assert (Hm : (199 * 2 ^ 45 <= Z.pos m <= 401 * 2 ^ 44)%Z).
  { unfold F2R in Hv.
    assert (B46 : bpow (-46) * IZR (2 ^ 46) = 1).
    { rewrite IZR_pow2 by lia. rewrite <- bpow_add. reflexivity. }
    assert (HM : IZR (Z.pos m) = IZR (Z.pos m) * bpow (-46) * IZR (2 ^ 46))
      by (rewrite Rmult_assoc, B46; lra).
    set (t := IZR (Z.pos m) * bpow (-46)) in *.
    split; apply le_IZR; rewrite mult_IZR, HM.
    - change (2 ^ 46)%Z with (2 * 2 ^ 45)%Z. rewrite mult_IZR.
      assert (0 < IZR (2 ^ 45)) by (apply IZR_lt; reflexivity).
      set (A := IZR (2 ^ 45)) in *. nra.
    - change (2 ^ 46)%Z with (4 * 2 ^ 44)%Z. rewrite mult_IZR.
      assert (0 < IZR (2 ^ 44)) by (apply IZR_lt; reflexivity).
      set (A := IZR (2 ^ 44)) in *. nra. }
  assert (Z : ((2 * Z.pos m + 2 ^ (- -46)) / 2 ^ (1 - -46) = 100)%Z).
  { change (2 ^ (- -46))%Z with (4 * 2 ^ 44)%Z.
    change (2 ^ (1 - -46))%Z with (8 * 2 ^ 44)%Z.
    change (2 ^ 45)%Z with (2 * 2 ^ 44)%Z in Hm.
    set (A := (2 ^ 44)%Z) in *. assert (0 < A)%Z by reflexivity.
    symmetry. apply Z.div_unique with (2 * Z.pos m + 4 * A - 800 * A)%Z; lia. }
  rewrite Z. reflexivity.
Qed.

End DoubleValues.

(** ** The confidence of six equal scores *)

Section EqualScores.
Import JS QualityAggregator.
Local Open Scope R_scope.

(** A score between 0 and 100 (as doubles compare) is finite, and its
    value lies between 0 and 100. *)
Lemma score_within (v : float) :
  (0 <=? v)%float = true -> (v <=? 100)%float = true -> within 0 100 v.
Proof.
  rewrite !leb_spec. intros H0 H100.
  pose proof (Prim2SF_valid v) as V.
  unfold within, val.
  change (Prim2SF 0) with (S754_zero false) in H0.
  change (Prim2SF 100) with (S754_finite false 7036874417766400 (-46)) in H100.
  destruct (Prim2SF v) as [s | s | | s m e]; cbn [finite SF2R].
  - split; [exact I | lra].
  - destruct s; discriminate.
  - discriminate.
  - destruct s; [discriminate |]. split; [exact I |].
    pose proof (bpow_pos e) as Pe.
    assert (P : 0 < IZR (Z.pos m)) by (apply IZR_lt; lia).
    split; [unfold F2R; nra |].
    cbn [valid_binary] in V. unfold bounded, canonical_mantissa in V.
    apply andb_true_iff in V. destruct V as [V _]. apply Z.eqb_eq in V.
    rewrite fexp64_eq in V.
    pose proof (digits2_bounds m) as [_ Hd].
    unfold SFleb, SFcompare in H100.
    destruct (Z.compare_spec e (-46)) as [E | E | E]; [| | discriminate].
    + subst e.
      destruct (Pos.compare_cont Eq m 7036874417766400) eqn:C; try discriminate.
      * apply Pos.compare_eq in C. subst m. unfold F2R.
        change (Z.pos 7036874417766400) with (100 * 2 ^ 46)%Z.
        rewrite mult_IZR, IZR_pow2 by lia. rewrite Rmult_assoc, <- bpow_add.
        change (bpow (46 + -46)) with 1. lra.
      * apply Pos.compare_lt_iff in C.
        assert (L : IZR (Z.pos m) <= IZR (100 * 2 ^ 46)).
        { apply IZR_le. change (100 * 2 ^ 46)%Z with (Z.pos 7036874417766400).
          apply Pos2Z.pos_le_pos, Pos.lt_le_incl, C. }
        rewrite mult_IZR, IZR_pow2 in L by lia. unfold F2R.
        assert (B : bpow 46 * bpow (-46) = 1) by (rewrite <- bpow_add; reflexivity).
        pose proof (bpow_pos (-46)). nra.
    + assert (Hd53 : (Z.pos (digits2_pos m) <= 53)%Z) by lia.
      assert (L : IZR (Z.pos m) < bpow 53).
      { rewrite <- IZR_pow2 by lia. apply IZR_lt.
        eapply Z.lt_le_trans; [exact Hd |]. apply Z.pow_le_mono_r; lia. }
      assert (Le : bpow e <= bpow (-47)) by (apply bpow_le; lia).
      assert (B : bpow 53 * bpow (-47) = 64)
        by (rewrite <- bpow_add; unfold bpow; simpl; lra).
      pose proof (bpow_pos 53). pose proof (bpow_pos (-47)).
      unfold F2R. nra.
Qed.


Lemma zero_within : within 0 0 0%float.
Proof. split; [exact I | unfold val; simpl; lra]. Qed.

Lemma hundred_within : within 100 100 100%float.
Proof.
  split; [exact I |]. unfold val.
  change (Prim2SF 100) with (S754_finite false 7036874417766400 (-46)).
  unfold SF2R, F2R. change (Z.pos 7036874417766400) with (100 * 2 ^ 46)%Z.
  rewrite mult_IZR, IZR_pow2 by lia. rewrite Rmult_assoc, <- bpow_add.
  change (bpow (46 + -46)) with 1. lra.
Qed.

Lemma leb_zero_nonneg (v : float) : (0 <=? v)%float = true -> nonneg (Prim2SF v).
Proof.
  rewrite leb_spec. change (Prim2SF 0) with (S754_zero false).
  destruct (Prim2SF v) as [s | [] | | [] m e]; simpl; intros H;
    try exact I; discriminate.
Qed.

Lemma add_nonneg (a b : float) :
  nonneg (Prim2SF a) -> nonneg (Prim2SF b) -> nonneg (Prim2SF (a + b)%float).
Proof. intros Ha Hb. rewrite FloatAxioms.add_spec. apply SFadd_nonneg; assumption. Qed.

Lemma finite_not_nan (x : spec_float) : finite x -> x <> S754_nan.
Proof. destruct x; simpl; intros H; [discriminate | tauto | tauto | discriminate]. Qed.

(** The six-fold sum of one number, as [reduce] computes it from 0. *)
Lemma sum_of_six (lo hi : R) (a : float) :
  within lo hi a -> nonneg (Prim2SF a) -> 0 <= hi <= 100 -> - 100 <= lo ->
  let s := (0 + a + a + a + a + a + a)%float in
  within (6 * lo - 6 * delta) (6 * hi + 6 * delta) s /\ 0 <= val s.
Proof.
  intros Ha Na Hhi Hlo.
  assert (D0 : 0 < delta) by apply bpow_pos.
  assert (D1 : delta <= 1).
  { change 1 with (bpow 0). apply bpow_le. lia. }
  assert (B10 : bpow 10 = 1024) by (unfold bpow; simpl; lra).
  pose proof zero_within as H0.
  pose proof (add_within _ _ _ _ _ _ H0 Ha) as H1.
  pose proof (add_within _ _ _ _ _ _ (H1 ltac:(lra) ltac:(lra) ltac:(lra)
                ltac:(lra) ltac:(lra) ltac:(lra)) Ha) as H2.
  pose proof (add_within _ _ _ _ _ _ (H2 ltac:(lra) ltac:(lra) ltac:(lra)
                ltac:(lra) ltac:(lra) ltac:(lra)) Ha) as H3.
  pose proof (add_within _ _ _ _ _ _ (H3 ltac:(lra) ltac:(lra) ltac:(lra)
                ltac:(lra) ltac:(lra) ltac:(lra)) Ha) as H4.
  pose proof (add_within _ _ _ _ _ _ (H4 ltac:(lra) ltac:(lra) ltac:(lra)
                ltac:(lra) ltac:(lra) ltac:(lra)) Ha) as H5.
  pose proof (add_within _ _ _ _ _ _ (H5 ltac:(lra) ltac:(lra) ltac:(lra)
                ltac:(lra) ltac:(lra) ltac:(lra)) Ha) as H6.
  specialize (H6 ltac:(lra) ltac:(lra) ltac:(lra) ltac:(lra) ltac:(lra) ltac:(lra)).
  split.
  - eapply within_weaken; [exact H6 | lra | lra].
  - apply nonneg_val. repeat apply add_nonneg; try exact Na. exact I.
Qed.


(** Six equal scores between 0 and 100 give the confidence 100. *)
Lemma confidence_of_equal_scores (v : float) :
  (0 <=? v)%float = true -> (v <=? 100)%float = true ->
  calculateConfidence (uniform v) = 100%float.
Proof.
  intros H0 H100.
  pose proof (score_within v H0 H100) as [Fv Hx].
  pose proof (leb_zero_nonneg v H0) as Nv.
  set (x := val v) in *.
  assert (Hv : within x x v) by (split; [exact Fv | unfold x; lra]).
  assert (D0 : 0 < delta) by apply bpow_pos.
  assert (D1 : delta <= bpow (-39)) by (apply bpow_le; lia).
  assert (D2 : 4 * delta = bpow (-41)).
  { unfold delta. change (-41)%Z with (-43 + 1 + 1)%Z. rewrite !bpow_succ. lra. }
  assert (D3 : bpow (-41) <= bpow (-20)) by (apply bpow_le; lia).
  assert (D4 : 4 * bpow (-39) = bpow (-37)).
  { change (-37)%Z with (-39 + 1 + 1)%Z. rewrite !bpow_succ. lra. }
  assert (D5 : bpow (-17) <= bpow (-2)) by (apply bpow_le; lia).
  assert (D6 : bpow (-2) = / 4) by (unfold bpow; simpl; lra).
  assert (D7 : bpow (-39) <= bpow (-2)) by (apply bpow_le; lia).
  assert (B10 : bpow 10 = 1024) by (unfold bpow; simpl; lra).
  unfold calculateConfidence, sum.
  change (values (uniform v)) with [v; v; v; v; v; v].
  cbn [fold_left List.length]. change (ofNat 6) with 6%float.
  (* the average *)
  destruct (sum_of_six x x v Hv Nv ltac:(lra) ltac:(lra)) as [Hs Ns].
  set (s := (0 + v + v + v + v + v + v)%float) in *.
  pose proof (div6_within _ _ s Hs Ns ltac:(lra) ltac:(lra)) as Ha.
  set (average := (s / 6)%float) in *.
  (* the deviation and its square *)
  pose proof (sub_within _ _ _ _ _ _ Hv Ha ltac:(lra) ltac:(lra) ltac:(lra)
                ltac:(lra) ltac:(lra) ltac:(lra)) as Hd.
  set (d := (v - average)%float) in *.
  assert (Hd' : within (- bpow (-20)) (bpow (-20)) d)
    by (eapply within_weaken; [exact Hd | lra | lra]).
  pose proof (square_within d Hd') as Hq.
  assert (Nq : nonneg (Prim2SF (Math_pow2 d))).
  { unfold Math_pow2. rewrite FloatAxioms.mul_spec.
    apply SFmul_self_nonneg, finite_not_nan, Hd. }
  set (q := Math_pow2 d) in *.
  (* the variance *)
  destruct (sum_of_six 0 (bpow (-39)) q Hq Nq ltac:(lra) ltac:(lra)) as [Ht Nt].
  set (t := (0 + q + q + q + q + q + q)%float) in *.
  pose proof (div6_within _ _ t Ht Nt ltac:(lra) ltac:(lra)) as Hvar.
  assert (Nvar : 0 <= val (t / 6)%float).
  { apply nonneg_val. rewrite div_spec.
    eapply SFdiv_nonneg with (my := 6755399441055744%positive) (ey := (-50)%Z);
      [| reflexivity].
    destruct Ht as [Ft _]. revert Nt Ft. unfold val.
    destruct (Prim2SF t) as [s0 | s0 | | s0 m e]; simpl; try tauto.
    destruct s0; [| tauto]. intros Nt _. exfalso.
    unfold F2R in Nt. change (IZR (Z.neg m)) with (- IZR (Z.pos m)) in Nt.
    assert (0 < IZR (Z.pos m)) by (apply IZR_lt; lia).
    pose proof (bpow_pos e). nra. }
  set (variance := (t / 6)%float) in *.
  assert (Hvar' : within 0 (bpow (-37)) variance)
    by (split; [apply Hvar | destruct Hvar as [_ Hvar]; lra]).
  (* the standard deviation and the confidence *)
  pose proof (sqrt_within variance Hvar') as Hsd.
  set (sd := Math_sqrt variance) in *.
  pose proof (sub_within _ _ _ _ _ _ hundred_within Hsd ltac:(lra) ltac:(lra)
                ltac:(lra) ltac:(lra) ltac:(lra) ltac:(lra)) as Hc.
  set (c := (100 - sd)%float) in *.
  rewrite (Math_max_zero_positive _ _ c Hc) by lra.
  apply Math_round_100.
  eapply within_weaken; [exact Hc | lra | lra].
Qed.

(** C9 (as the code computes it): the confidence is
    [max(0, 100 - stddev)] rounded to the nearest integer; when the six
    sub-scores are equal, each a score between 0 and 100, it is
    exactly 100. *)
Theorem confidence_spec :
  (forall bd : Breakdown,
     calculateConfidence bd
     = Math_round (Math_max 0 (100 - stddev (values bd)))%float)
  /\ (forall v : number,
        (0 <=? v)%float = true -> (v <=? 100)%float = true ->
        calculateConfidence (uniform v) = 100%float).
Proof.
  split; [exact confidence_rounds_stddev | exact confidence_of_equal_scores].
Qed.

Lemma confidence_spec_witness : calculateConfidence (uniform 0.1%float) = 100%float.
Proof. apply (proj2 confidence_spec 0.1%float); reflexivity. Defined.

End EqualScores.

(** ** Brand Identifier *)

Section BrandIdentifierFacts.
Import JS BrandIdentifier.
Local Open Scope string_scope.

(** C5: the text "toss payment app" with the colours #0064FF and
    #F5F7FA is identified as "toss", with confidence 0.85 >= 0.5. *)
Theorem detectBrand_toss_scenario :
  let result :=
    detectBrand registry (str "toss payment app") [str "#0064FF"; str "#F5F7FA"] in
  brand result = Some "toss"
  /\ confidence result = (85 / 100)%float
  /\ (0.5 <=? confidence result)%float = true.
Proof. vm_compute. repeat split. Qed.

Lemma scores_nil (db : BrandDatabase) (text : jsstring) (palette : list jsstring) :
  (forall name keywords, In (name, keywords) (brandKeywords db) ->
     scoreOf db text palette name keywords = 0) ->
  scores db text palette = [].
Proof.
  unfold scores. generalize (brandKeywords db). intros l H.
  induction l as [| [name keywords] l IH]; simpl; [reflexivity |].
  rewrite (H name keywords (or_introl eq_refl)). simpl.
  apply IH. intros n k Hin. apply H. right. exact Hin.
Qed.

(** C6: no brand is named when no profile scores above 0, or when the
    confidence is at most 0.3; empty text with no colour gives a null
    match with confidence 0. *)
Theorem detectBrand_null (db : BrandDatabase) (text : jsstring)
        (palette : list jsstring) :
  ((forall name keywords, In (name, keywords) (brandKeywords db) ->
      scoreOf db text palette name keywords = 0) ->
   detectBrand db text palette = {| brand := None; confidence := 0%float |})
  /\ ((confidence (detectBrand db text palette) <=? 0.3)%float = true ->
      brand (detectBrand db text palette) = None)
  /\ detectBrand registry [] [] = {| brand := None; confidence := 0%float |}.
Proof.
  split; [| split].
  - intros H. unfold detectBrand. rewrite (scores_nil _ _ _ H). reflexivity.
  - unfold detectBrand.
    destruct (ColorExtractor.sortBy byScoreDesc (scores db text palette))
      as [| topBrand rest]; simpl; [reflexivity |].
    intros H. rewrite (leb_not_ltb _ _ H). reflexivity.
  - vm_compute. reflexivity.
Qed.

Lemma detectBrand_null_witness :
  detectBrand registry (str "hello world") [] = {| brand := None; confidence := 0%float |}
  /\ brand (detectBrand registry (str "kakao") []) = None.
Proof.
  split.
  - apply (proj1 (detectBrand_null registry (str "hello world") [])).
    intros name keywords [H | [H | [H | []]]]; inversion H; vm_compute; reflexivity.
  - apply (proj1 (proj2 (detectBrand_null registry (str "kakao") []))).
    vm_compute. reflexivity.
Defined.

(** *** The accumulated score is the score of the spec *)




(** *** The [scores] map lists the profiles with a positive score *)






(** *** The head of the sorted scores *)

Lemma sortBy_head {A} (cmp : A -> A -> Z) (key : A -> nat)
      (cmp_key : forall a b, (cmp a b <=? 0)%Z = (key b <=? key a)%nat)
      (l : list A) :
  match ColorExtractor.sortBy cmp l with
  | [] => l = []
  | top :: _ =>
      exists before after,
        l = (before ++ top :: after)%list
        /\ (forall a, In a before -> key a < key top)
        /\ (forall a, In a after -> key a <= key top)
  end.
Proof.
  induction l as [| x l IH]; simpl; [reflexivity |].
  destruct (ColorExtractor.sortBy cmp l) as [| top rest] eqn:E; simpl.
  - subst l. exists [], []. simpl. repeat split; intros a [].
  - destruct IH as [before [after [Hl [Hb Ha]]]].
    destruct (cmp x top <=? 0)%Z eqn:C; rewrite cmp_key in C.
    + apply Nat.leb_le in C.
      exists [], l. simpl. repeat split; [intros a [] |].
      intros a Hin. rewrite Hl in Hin. apply in_app_iff in Hin.
      destruct Hin as [Hin | [<- | Hin]];
        [specialize (Hb a Hin) | | specialize (Ha a Hin)]; lia.
    + apply Nat.leb_gt in C.
      exists (x :: before), after. rewrite Hl. simpl. repeat split.
      * intros a [<- | Hin]; [exact C | apply Hb, Hin].
      * exact Ha.
Qed.






End BrandIdentifierFacts.

(** ** Pixel Comparator *)

Section PixelComparatorFacts.
Import JS PixelComparator.

Variable resize : nat -> nat -> Image -> Image.

(** C2 (as stated) fails: against a black 2x1 image, the image
    [redThenWhite] gives the severities 40/255 and then 1. *)
Lemma differences_not_by_severity :
  nonIncreasing
    (List.map severity
       (differences
          (comparePixelLevel keep (Some (solid 2 1 black)) (Some redThenWhite))))
  = false.
Proof. vm_compute. reflexivity. Qed.

(** *** The two loops visit the pixels in [scanOrder] *)

Definition step (original rendered : Image) (st : LoopState) (p : nat * nat) :=
  body original rendered st (fst p) (snd p).

Lemma fold_left_flat_map {A B C} (f : A -> C -> A) (g : B -> list C)
      (l : list B) (a : A) :
  fold_left f (flat_map g l) a = fold_left (fun a y => fold_left f (g y) a) l a.
Proof.
  revert a. induction l as [| y l IH]; intros a; simpl; [reflexivity |].
  rewrite fold_left_app. apply IH.
Qed.

Lemma fold_left_map {A B C} (f : A -> C -> A) (h : B -> C) (l : list B) (a : A) :
  fold_left f (List.map h l) a = fold_left (fun a x => f a (h x)) l a.
Proof. revert a. induction l as [| x l IH]; intros a; simpl; auto. Qed.

Lemma fold_left_ext_eq {A B} (f g : A -> B -> A) (l : list B) (a : A) :
  (forall a b, f a b = g a b) -> fold_left f l a = fold_left g l a.
Proof.
  intros H. revert a. induction l as [| x l IH]; intros a; simpl; [reflexivity |].
  rewrite H. apply IH.
Qed.

Lemma scan_scanOrder (original rendered : Image) (width height : nat) :
  scan original rendered width height
  = fold_left (step original rendered) (scanOrder width height)
              {| totalDifference := 0%float; diffs := []; pixelCount := 0 |}.
Proof.
  unfold scan, scanOrder. rewrite fold_left_flat_map.
  apply fold_left_ext_eq. intros st y. rewrite fold_left_map. reflexivity.
Qed.

Lemma length_scanOrder (width height : nat) :
  List.length (scanOrder width height) = height * width.
Proof.
  unfold scanOrder. generalize 0 at 2. 
  induction height as [| h IH]; intros s; simpl; [reflexivity |].
  rewrite length_app, length_map, length_seq, IH. reflexivity.
Qed.

(** *** What the loops leave in [diffs], [pixelCount], [totalDifference] *)

Lemma diffs_fold (original rendered : Image) (ps : list (nat * nat))
      (st : LoopState) :
  diffs (fold_left (step original rendered) ps st)
  = diffs st ++
    List.map (differenceAt original rendered)
             (firstn (100 - List.length (diffs st))
                     (filter (exceeds original rendered) ps)).
Proof.
  revert st. induction ps as [| p ps IH]; intros st; cbn [fold_left filter].
  - rewrite firstn_nil. cbn [List.map]. rewrite app_nil_r. reflexivity.
  - rewrite IH.
    assert (Hd : diffs (step original rendered st p)
                 = if exceeds original rendered p
                      && (List.length (diffs st) <? 100)%nat
                   then diffs st ++ [differenceAt original rendered p]
                   else diffs st) by reflexivity.
    rewrite Hd. clear Hd.
    destruct (exceeds original rendered p); cbn [andb]; [| reflexivity].
    destruct (Nat.ltb_spec (List.length (diffs st)) 100) as [Hlt | Hge].
    + rewrite length_app. cbn [List.length].
      replace (100 - List.length (diffs st))
        with (S (100 - (List.length (diffs st) + 1))) by lia.
      cbn [firstn List.map]. rewrite <- app_assoc. reflexivity.
    + replace (100 - List.length (diffs st)) with 0 by lia. reflexivity.
Qed.

Lemma pixelCount_fold (original rendered : Image) (ps : list (nat * nat))
      (st : LoopState) :
  pixelCount (fold_left (step original rendered) ps st)
  = pixelCount st + List.length ps.
Proof.
  revert st. induction ps as [| p ps IH]; intros st; simpl; [lia |].
  rewrite IH. simpl. lia.
Qed.

Lemma totalDifference_fold (original rendered : Image) (ps : list (nat * nat))
      (st : LoopState) :
  totalDifference (fold_left (step original rendered) ps st)
  = fold_left (fun t p => (t + distanceAt original rendered p)%float) ps
              (totalDifference st).
Proof.
  revert st. induction ps as [| p ps IH]; intros st; simpl; [reflexivity |].
  rewrite IH. reflexivity.
Qed.

(** C2 (as the code computes it): the differences are the first 100
    pixels, in scan order, whose distance exceeds the threshold; they
    are not ordered by severity. *)
Theorem differences_in_scan_order (original rendered : Image) :
  let width := Nat.min (getWidth original) (getWidth rendered) in
  let height := Nat.min (getHeight original) (getHeight rendered) in
  let o := resize width height original in
  let r := resize width height rendered in
  differences (comparePixelLevel resize (Some original) (Some rendered))
  = List.map (differenceAt o r)
             (firstn 100 (filter (exceeds o r) (scanOrder width height))).
Proof.
  cbv zeta. unfold comparePixelLevel. cbn [differences].
  rewrite scan_scanOrder, diffs_fold. cbn [diffs List.length app].
  apply firstn_all2.
  rewrite length_map. apply firstn_le_length.
Qed.

(** *** Signs and ranges of the doubles of the comparison *)

Lemma channel_finite (c : Byte.byte) : finite (Prim2SF (channel c)).
Proof. destruct c; exact I. Qed.

Lemma distance_nonneg (c1 c2 : RGBA) : nonneg (Prim2SF (distance c1 c2)).
Proof.
  unfold distance, Math_sqrt, Math_pow2.
  rewrite sqrt_spec, !FloatAxioms.add_spec, !FloatAxioms.mul_spec, !FloatAxioms.sub_spec.
  apply SFsqrt_nonneg.
  repeat apply SFadd_nonneg;
    apply SFmul_self_nonneg, SFsub_finite; apply channel_finite.
Qed.

Lemma total_nonneg (original rendered : Image) (ps : list (nat * nat)) (t : number) :
  nonneg (Prim2SF t) ->
  nonneg (Prim2SF (fold_left (fun t p => (t + distanceAt original rendered p)%float)
                             ps t)).
Proof.
  revert t. induction ps as [| p ps IH]; intros t Ht; simpl; [exact Ht |].
  apply IH. rewrite FloatAxioms.add_spec.
  apply SFadd_nonneg; [exact Ht | apply distance_nonneg].
Qed.

Lemma ofNat_normal (n : nat) :
  (1 <= Z.of_nat n < 2 ^ 53)%Z -> normal (-52) 0 (Prim2SF (ofNat n)).
Proof.
  intros Hn. unfold ofNat, ofZ.
  replace (Z.of_nat n <? 0)%Z with false by (symmetry; apply Z.ltb_ge; lia).
  rewrite of_uint63_spec, Uint63.of_Z_spec.
  rewrite Z.mod_small.
  - apply binary_normalize_count, Hn.
  - split; [lia |]. eapply Z.lt_trans; [apply Hn | reflexivity].
Qed.

(** [pixelCount * 255 * Math.sqrt(3)] is a positive normal double. *)
Lemma maxPossible_normal (n : nat) :
  (1 <= Z.of_nat n < 2 ^ 53)%Z ->
  normal (-45) 11 (Prim2SF (ofNat n * 255 * Math_sqrt 3)%float).
Proof.
  intros Hn. rewrite !FloatAxioms.mul_spec.
  assert (H255 : normal (-45) (-45) (Prim2SF 255)).
  { exists 8972014882652160%positive, (-45)%Z. repeat split; reflexivity || lia. }
  assert (Hsqrt : normal (-52) (-52) (Prim2SF (Math_sqrt 3%float))).
  { exists 7800463371553962%positive, (-52)%Z. repeat split; reflexivity || lia. }
  exact (SFmul_normal (-45) 9 (-52) (-52) _ _
           (SFmul_normal (-52) 0 (-45) (-45) _ _ (ofNat_normal n Hn) H255
                         ltac:(lia) ltac:(lia))
           Hsqrt ltac:(lia) ltac:(lia)).
Qed.

Lemma similarity_bounds (total maxPossible : number) (lo hi : Z) :
  nonneg (Prim2SF total) -> normal lo hi (Prim2SF maxPossible) ->
  let s := Math_max 0%float (1 - total / maxPossible)%float in
  (0 <=? s)%float = true /\ (s <=? 1)%float = true.
Proof.
  intros Ht [m [e [Hm _]]]. apply Math_max_zero_bounds.
  rewrite leb_spec, FloatAxioms.sub_spec, div_spec, Prim2SF_one.
  apply SFsub_one_le. eapply SFdiv_nonneg; [exact Ht | exact Hm].
Qed.

Lemma count_in_range (original rendered : Image) :
  decodable original -> decodable rendered ->
  (1 <= Z.of_nat (Nat.min (getHeight original) (getHeight rendered)
                  * Nat.min (getWidth original) (getWidth rendered)) < 2 ^ 53)%Z.
Proof.
  intros [W1 [H1 B1]] [W2 [H2 B2]].
  set (B := (2 ^ 53)%Z) in *. nia.
Qed.

(** C8: the similarity lies in [0, 1] and at most 100 regions are
    returned, for two readable images and on the fallback path. *)
Theorem similarity_and_regions_bounded (original rendered : option Image)
        (Horiginal : readable original) (Hrendered : readable rendered) :
  let result := comparePixelLevel resize original rendered in
  (0 <=? similarity result)%float = true
  /\ (similarity result <=? 1)%float = true
  /\ List.length (differences result) <= 100.
Proof.
  destruct original as [original |], rendered as [rendered |];
    try (cbv zeta; repeat split; simpl; lia).
  cbv zeta. unfold comparePixelLevel. cbn [similarity differences].
  rewrite scan_scanOrder, pixelCount_fold, totalDifference_fold, length_scanOrder.
  cbn [pixelCount totalDifference Nat.add].
  split; [| split; [| apply firstn_le_length]];
    eapply similarity_bounds;
    try (apply total_nonneg; exact I);
    apply maxPossible_normal, count_in_range; assumption.
Qed.

Lemma distance_self (c : RGBA) : distance c c = 0%float.
Proof.
  assert (H : forall x, (channel x - channel x)%float = 0%float)
    by (intros x; destruct x; reflexivity).
  unfold distance. rewrite !H. reflexivity.
Qed.

Lemma filter_none {A} (f : A -> bool) (l : list A) :
  (forall a, f a = false) -> filter f l = [].
Proof.
  intros H. induction l as [| a l IH]; simpl; [reflexivity |]. rewrite H. exact IH.
Qed.

Lemma total_of_copies (img : Image) (ps : list (nat * nat)) :
  fold_left (fun t p => (t + distanceAt img img p)%float) ps 0%float = 0%float.
Proof.
  induction ps as [| p ps IH]; simpl; [reflexivity |].
  unfold distanceAt at 2. rewrite distance_self. exact IH.
Qed.

(** C7: an image compared with itself has similarity exactly 1 and no
    difference region. *)
Theorem self_comparison (img : Image) (Himg : decodable img) :
  comparePixelLevel resize (Some img) (Some img)
  = {| similarity := 1%float; differences := [] |}.
Proof.
  unfold comparePixelLevel.
  rewrite scan_scanOrder, pixelCount_fold, totalDifference_fold, diffs_fold,
    length_scanOrder.
  cbn [pixelCount totalDifference diffs Nat.add List.length app].
  rewrite total_of_copies.
  rewrite filter_none
    by (intros p; unfold exceeds, distanceAt; rewrite distance_self; reflexivity).
  destruct (maxPossible_normal _ (count_in_range img img Himg Himg))
    as [m [e [Hm _]]].
  set (maxPossible := (ofNat _ * 255 * Math_sqrt 3)%float) in *.
  assert (Hq : (0 / maxPossible)%float = 0%float).
  { apply Prim2SF_inj. rewrite div_spec, Hm. reflexivity. }
  rewrite Hq. reflexivity.
Qed.

End PixelComparatorFacts.

Section PixelComparatorExamples.
Import JS PixelComparator.

(** Two 100x100 solid-white images: similarity 1.0 and no region. *)
Lemma self_comparison_witness :
  comparePixelLevel keep (Some (solid 100 100 white)) (Some (solid 100 100 white))
  = {| similarity := 1%float; differences := [] |}.
Proof.
  apply (self_comparison keep (solid 100 100 white)).
  unfold decodable. simpl. lia.
Defined.

Lemma similarity_and_regions_bounded_witness :
  let result :=
    comparePixelLevel keep (Some (solid 2 1 black)) (Some redThenWhite) in
  (0 <=? similarity result)%float = true
  /\ (similarity result <=? 1)%float = true
  /\ List.length (differences result) <= 100.
Proof.
  apply (similarity_and_regions_bounded keep (Some (solid 2 1 black))
                                        (Some redThenWhite));
    unfold readable, decodable; simpl; lia.
Defined.

End PixelComparatorExamples.

(** ** More on comparisons, [Math.min] and products *)

Section MoreDoubles.
Import JS.

Lemma is_nan_spec (a : float) : is_nan a = false <-> Prim2SF a <> S754_nan.
Proof.
  unfold is_nan. rewrite eqb_spec. unfold SFeqb.
  destruct (Prim2SF a) as [s | s | | s m e]; simpl.
  - split; [discriminate | reflexivity].
  - split; [discriminate | destruct s; reflexivity].
  - split; [discriminate | tauto].
  - rewrite Z.compare_refl, Pos.compare_cont_refl.
    split; [discriminate | destruct s; reflexivity].
Qed.

Lemma nonneg_not_nan (x : spec_float) : nonneg x -> x <> S754_nan.
Proof. destruct x; simpl; [discriminate .. | tauto | discriminate]. Qed.

Lemma SFcompare_some (x y : spec_float) :
  x <> S754_nan -> y <> S754_nan -> exists c, SFcompare x y = Some c.
Proof.
  destruct x as [sx | sx | | sx mx ex], y as [sy | sy | | sy my ey];
    simpl; intros Hx Hy; try tauto; eexists; reflexivity.
Qed.

Lemma nonneg_leb_zero (x : float) : nonneg (Prim2SF x) -> (0 <=? x)%float = true.
Proof.
  rewrite leb_spec. change (Prim2SF 0%float) with (S754_zero false).
  destruct (Prim2SF x) as [s | [] | | [] m e]; simpl; tauto || reflexivity.
Qed.

(** Without a NaN, [Math.min] returns one of its arguments, and one
    that is at most the other. *)
Lemma Math_min_cases (a b : float) :
  is_nan a = false -> is_nan b = false ->
  (Math_min a b = a /\ (a <=? b)%float = true)
  \/ (Math_min a b = b /\ (b <=? a)%float = true).
Proof.
  intros Ha Hb. unfold Math_min. rewrite Ha, Hb. cbn [orb].
  destruct (a <? b)%float eqn:L1; [left; split; [reflexivity | apply ltb_leb, L1] |].
  destruct (b <? a)%float eqn:L2; [right; split; [reflexivity | apply ltb_leb, L2] |].
  apply is_nan_spec in Ha, Hb.
  destruct (SFcompare_some _ _ Ha Hb) as [c Hc].
  assert (E : SFcompare (Prim2SF a) (Prim2SF b) = Some Eq).
  { rewrite ltb_spec in L1, L2. unfold SFltb in L1, L2.
    rewrite (SFcompare_antisym (Prim2SF a) (Prim2SF b)) in L2.
    rewrite Hc in *. destruct c; simpl in *; congruence. }
  destruct (get_sign a); [left | right]; (split; [reflexivity |]);
    rewrite leb_spec; unfold SFleb.
  - rewrite E. reflexivity.
  - rewrite (SFcompare_antisym (Prim2SF a) (Prim2SF b)), E. reflexivity.
Qed.

Lemma SFmul_nonneg_finite (x : spec_float) (m : positive) (e : Z) :
  nonneg x -> nonneg (SF64mul x (S754_finite false m e)).
Proof.
  destruct x as [sx | [] | | [] mx ex]; simpl; try tauto; intros _.
  apply signed_nonneg, bra_signed. lia.
Qed.

(** A count below [2^53] is a non-negative double, and a finite
    positive one when it is not 0. *)
Lemma ofNat_nonneg (n : nat) :
  (Z.of_nat n < 2 ^ 53)%Z -> nonneg (Prim2SF (ofNat n)).
Proof.
  intros Hn. destruct n as [| n]; [exact I |].
  destruct (ofNat_normal (S n)) as [m [e [-> _]]]; [lia | exact I].
Qed.

Lemma ofNat_positive (n : nat) :
  (1 <= Z.of_nat n < 2 ^ 53)%Z ->
  exists m e, Prim2SF (ofNat n) = S754_finite false m e.
Proof.
  intros Hn. destruct (ofNat_normal n Hn) as [m [e [-> _]]]. eauto.
Qed.

(** [Math.min(100, (count / expected) * 100)] lies between 0 and 100. *)
Lemma percentage_bounds (count expected : nat) :
  (Z.of_nat count < 2 ^ 53)%Z -> (1 <= Z.of_nat expected < 2 ^ 53)%Z ->
  let score := Math_min 100%float (ofNat count / ofNat expected * 100)%float in
  (0 <=? score)%float = true /\ (score <=? 100)%float = true.
Proof.
  intros Hc He score.
  assert (Hx : nonneg (Prim2SF (ofNat count / ofNat expected * 100)%float)).
  { rewrite FloatAxioms.mul_spec, div_spec.
    destruct (ofNat_positive expected He) as [m [e Hm]].
    change (Prim2SF 100%float) with (S754_finite false 7036874417766400 (-46)).
    apply SFmul_nonneg_finite.
    eapply SFdiv_nonneg; [apply ofNat_nonneg, Hc | exact Hm]. }
  assert (Hn : is_nan (ofNat count / ofNat expected * 100)%float = false)
    by (apply is_nan_spec, nonneg_not_nan, Hx).
  destruct (Math_min_cases 100%float _ eq_refl Hn) as [[E L] | [E L]];
    unfold score; rewrite E.
  - split; reflexivity.
  - split; [apply nonneg_leb_zero, Hx | exact L].
Qed.

End MoreDoubles.

(** ** The validator's issues and suggestions *)

Section ValidatorFacts.
Import JS JSArray QualityAggregator UIValidator.

Variable resize : nat -> nat -> PixelComparator.Image -> PixelComparator.Image.

Lemma push_length {A} (l : list A) (a : A) : List.length (push l a) = S (List.length l).
Proof. unfold push. rewrite length_app. simpl. lia. Qed.

Lemma Forall_push {A} (P : A -> Prop) (l : list A) (a : A) :
  Forall P l -> P a -> Forall P (push l a).
Proof. intros Hl Ha. unfold push. apply Forall_app. split; [exact Hl | constructor; auto]. Qed.

(** The scores of [performAIAnalysis] never fall below 70. *)
Lemma performAIAnalysis_thresholds (content : option (option string)) :
  (AI.colorScore (performAIAnalysis content) <? 70)%float = false
  /\ (AI.typographyScore (performAIAnalysis content) <? 70)%float = false.
Proof. destruct content; split; reflexivity. Qed.

Lemma issues_after_analysis (pixelComparison : PixelComparator.PixelComparisonResult)
      (content : option (option string)) (structuralAnalysis : Structure.Analysis) :
  let found :=
    identifyIssues pixelComparison (performAIAnalysis content) structuralAnalysis in
  List.length found <= 3
  /\ Forall (fun i => (type i = layout \/ type i = interaction)
                      /\ location i = None) found.
Proof.
  cbv zeta. unfold identifyIssues.
  destruct (performAIAnalysis_thresholds content) as [-> ->].
  destruct (PixelComparator.similarity _ <? 0.8)%float,
           (Structure.layoutScore _ <? 70)%float,
           (Structure.interactionScore _ <? 80)%float;
    (split; [cbn; lia | repeat apply Forall_push; try apply Forall_nil; cbn; auto]).
Qed.

(** Whatever the images, the answer of the vision model and the code,
    [validateUI] reports at most three issues, of type [layout] or
    [interaction] and without a location: the colour and typography
    rules of [identifyIssues] never fire on the scores that
    [performAIAnalysis] returns. *)
Theorem validateUI_issues (original rendered : option PixelComparator.Image)
        (content : option (option string)) (code : jsstring)
        (analysisResult : Advanced.AnalysisResult) :
  let result := validateUI resize original rendered content code analysisResult in
  List.length (issues result) <= 3
  /\ Forall (fun i => (type i = layout \/ type i = interaction)
                      /\ location i = None)
            (issues result).
Proof. apply issues_after_analysis. Qed.

Lemma performAIAnalysis_hints (content : option (option string)) :
  let failed := match content with None => true | Some _ => false end in
  (AI.colorScore (performAIAnalysis content) <? 80)%float = failed
  /\ (AI.typographyScore (performAIAnalysis content) <? 80)%float = failed.
Proof. destruct content; split; reflexivity. Qed.

(** The improvements of [validateUI] are at most five hints followed by
    the three general advices; the colour hint and the typography hint
    are given together, exactly when the request to the vision model
    failed. *)
Theorem validateUI_improvements (original rendered : option PixelComparator.Image)
        (content : option (option string)) (code : jsstring)
        (analysisResult : Advanced.AnalysisResult) :
  let result := validateUI resize original rendered content code analysisResult in
  (exists hints,
      improvements result = (hints ++ generalAdvice)%list /\ List.length hints <= 5)
  /\ (In "브랜드 가이드라인에 따른 정확한 색상 코드를 사용하세요"%string
         (improvements result) <-> content = None)
  /\ (In "원본과 동일한 폰트 패밀리, 크기, 굵기를 적용하세요"%string
         (improvements result) <-> content = None).
Proof.
  cbv zeta. unfold validateUI. cbn [improvements]. unfold generateImprovements.
  cbn [visualSimilarity colorMatching typographyMatch interactionElements
       brandConsistency].
  destruct (performAIAnalysis_hints content) as [-> ->].
  set (s := (_ <? 80)%float). set (i := (_ <? 80)%float). set (b := (_ <? 80)%float).
  split; [eexists; split; [reflexivity |] | ].
  - destruct s, content, i, b; cbn; lia.
  - destruct s, content, i, b; unfold push, generalAdvice; cbn;
      (split; split; intros H; try discriminate; try tauto;
       repeat (destruct H as [H | H]; try discriminate H); try contradiction).
Qed.

(** [generateRealTimeImprovements] gives one suggestion for each issue
    that is not of type [brand], in the order of the issues, and
    nothing for a [brand] issue. *)
Lemma realTime_flat_map (l : list ValidationIssue) (acc : list string) :
  fold_left (fun improvements issue =>
               (improvements ++ suggestionFor (type issue))%list) l acc
  = (acc ++ flat_map (fun issue => suggestionFor (type issue)) l)%list.
Proof.
  revert acc. induction l as [| i l IH]; intros acc; simpl.
  - rewrite app_nil_r. reflexivity.
  - rewrite IH, app_assoc. reflexivity.
Qed.

Definition isBrand (t : IssueType) : bool :=
  match t with brand => true | _ => false end.

Lemma realTime_one_each (l : list ValidationIssue) :
  Forall (fun i => type i <> brand) l ->
  List.map Some (flat_map (fun issue => suggestionFor (type issue)) l)
  = List.map (fun i => hd_error (suggestionFor (type i))) l.
Proof.
  induction l as [| i l IH]; intros H; [reflexivity |].
  inversion H as [| ? ? Hi Hl]; subst.
  cbn [flat_map List.map]. rewrite map_app, IH by exact Hl.
  destruct (type i); try reflexivity. contradiction.
Qed.

(** [generateRealTimeImprovements] gives one suggestion for each issue
    that is not of type [brand] and none for a [brand] issue; on a
    result of [validateUI] it gives exactly one suggestion per issue,
    in the order of the issues. *)
Theorem realTime_suggestions :
  (forall result : ValidationResult,
      List.length (generateRealTimeImprovements result)
      = List.length (filter (fun i => negb (isBrand (type i))) (issues result)))
  /\ (forall original rendered content code analysisResult,
        let result :=
          validateUI resize original rendered content code analysisResult in
        List.map Some (generateRealTimeImprovements result)
        = List.map (fun i => hd_error (suggestionFor (type i))) (issues result)).
Proof.
  split.
  - intros result. unfold generateRealTimeImprovements.
    rewrite realTime_flat_map. cbn [app].
    induction (issues result) as [| i l IH]; [reflexivity |].
    cbn [flat_map filter]. rewrite length_app, IH.
    destruct (type i); reflexivity.
  - intros original rendered content code analysisResult result.
    unfold generateRealTimeImprovements. rewrite realTime_flat_map. cbn [app].
    apply realTime_one_each.
    eapply Forall_impl; [| apply issues_after_analysis].
    intros i [[H | H] _]; rewrite H; discriminate.
Qed.


(** *** Brand consistency *)

Lemma includes_tail (s search : jsstring) (c : N) :
  includes s (c :: search) = true -> includes s search = true.
Proof.
  induction s as [| a s IH]; [discriminate |].
  cbn [includes startsWith]. intros H.
  apply orb_true_iff in H. destruct H as [H | H].
  - apply andb_true_iff in H. destruct H as [_ H].
    apply orb_true_iff. right.
    destruct s; destruct search; cbn [includes startsWith] in *;
      rewrite ?H; reflexivity.
  - apply orb_true_iff. right. apply IH, H.
Qed.

Definition isToss (detectedBrand : option string) : bool :=
  match detectedBrand with
  | Some name => String.eqb name "toss"
  | None => false
  end.

Lemma brandConsistency_values (detectedBrand : option string)
        (code : jsstring) :
  let score := validateBrandConsistency detectedBrand code in
  score
  = (if isToss detectedBrand then
       ofZ (100
            - (if includes code (str "0064FF") then 0 else 30)
            - (if includes code (str "Toss Face") || includes code (str "system-ui")
               then 0 else 20)
            - (if includes code (str "border-radius")
                  || includes code (str "borderRadius")
               then 0 else 20))
     else 100%float)
  /\ (30 <=? score)%float = true /\ (score <=? 100)%float = true.
Proof.
  cbv zeta. unfold validateBrandConsistency, isToss.
  destruct detectedBrand as [name |]; [| repeat split; reflexivity].
  destruct (String.eqb name "toss"); [| repeat split; reflexivity].
  destruct (includes code (str "#0064FF")) eqn:Hblue.
  - assert (Hbare : includes code (str "0064FF") = true)
      by (apply (includes_tail _ _ 35%N); exact Hblue).
    rewrite Hbare.
    destruct (includes code (str "Toss Face")), (includes code (str "system-ui")),
      (includes code (str "border-radius")), (includes code (str "borderRadius"));
      repeat split; reflexivity.
  - destruct (includes code (str "0064FF")),
      (includes code (str "Toss Face")), (includes code (str "system-ui")),
      (includes code (str "border-radius")), (includes code (str "borderRadius"));
      repeat split; reflexivity.
Qed.

(** The brand-consistency score is 100 for every brand other than
    toss.  For toss it is 100 less 30 when the code does not contain
    [0064FF] (the test for [#0064FF] changes nothing), less 20 when it
    names neither font, less 20 when it sets no border radius: it is
    never below 30, so that the final [Math.max(0, score)] never
    applies. *)
Theorem brandConsistency_closed_form (detectedBrand : option string)
        (code : jsstring) :
  let score := validateBrandConsistency detectedBrand code in
  score
  = (if isToss detectedBrand then
       ofZ (100
            - (if includes code (str "0064FF") then 0 else 30)
            - (if includes code (str "Toss Face") || includes code (str "system-ui")
               then 0 else 20)
            - (if includes code (str "border-radius")
                  || includes code (str "borderRadius")
               then 0 else 20))
     else 100%float)
  /\ (30 <=? score)%float = true /\ (score <=? 100)%float = true.
Proof. exact (brandConsistency_values detectedBrand code). Qed.

End ValidatorFacts.

Section StructureFacts.
Import JS JSArray QualityAggregator UIValidator.

(** *** The structural scores *)

Lemma countFrom_le (re : Pattern) (skip : nat) (s : jsstring) :
  countFrom re skip s <= S (List.length s).
Proof.
  revert skip. induction s as [| c s IH]; intros skip; cbn [countFrom List.length].
  - destruct skip, (matchAt re []); lia.
  - destruct skip as [| k]; [| specialize (IH k); lia].
    destruct (matchAt re (c :: s)) as [[| n] |];
      [specialize (IH 0) | specialize (IH n) | specialize (IH 0)]; lia.
Qed.

Lemma structure_scores_range (code : jsstring)
        (analysisResult : Advanced.AnalysisResult)
        (Hcode : (Z.of_nat (List.length code) < 2 ^ 53 - 1)%Z)
        (Hchildren : forall n, Advanced.children analysisResult = Some n ->
                               (Z.of_nat n < 2 ^ 53)%Z)
        (Hinteractions :
           (Z.of_nat (Advanced.interactionElements analysisResult) < 2 ^ 53)%Z) :
  let structure := analyzeStructure code analysisResult in
  ((0 <=? Structure.layoutScore structure)%float = true
   /\ (Structure.layoutScore structure <=? 100)%float = true)
  /\ ((0 <=? Structure.interactionScore structure)%float = true
      /\ (Structure.interactionScore structure <=? 100)%float = true)
  /\ (Advanced.interactionElements analysisResult = 0 ->
      Structure.interactionScore structure = 100%float).
Proof.
  cbv zeta. unfold analyzeStructure.
  cbn [Structure.layoutScore Structure.interactionScore].
  assert (Hcount : forall re, (Z.of_nat (matchCount re code) < 2 ^ 53)%Z).
  { intros re. pose proof (countFrom_le re 0 code) as H. unfold matchCount.
    set (B := (2 ^ 53)%Z) in *. lia. }
  split; [| split].
  - apply percentage_bounds; [apply Hcount |].
    destruct (Advanced.children analysisResult) as [[| n] |] eqn:E;
      [cbn; lia | | cbn; lia].
    specialize (Hchildren (S n) eq_refl). lia.
  - destruct (Advanced.interactionElements analysisResult) as [| n] eqn:E.
    + split; reflexivity.
    + change (0 <? S n) with true. cbv iota.
      apply percentage_bounds; [apply Hcount | lia].
  - intros ->. reflexivity.
Qed.

(** For a source text and expectations of a size a program can hold,
    both structural scores are doubles between 0 and 100 (never NaN),
    and the interaction score is 100 when no interaction element is
    expected, whatever the code. *)
Theorem structure_scores_bounded (code : jsstring)
        (analysisResult : Advanced.AnalysisResult)
        (Hcode : (Z.of_nat (List.length code) < 2 ^ 53 - 1)%Z)
        (Hchildren : forall n, Advanced.children analysisResult = Some n ->
                               (Z.of_nat n < 2 ^ 53)%Z)
        (Hinteractions :
           (Z.of_nat (Advanced.interactionElements analysisResult) < 2 ^ 53)%Z) :
  let structure := analyzeStructure code analysisResult in
  ((0 <=? Structure.layoutScore structure)%float = true
   /\ (Structure.layoutScore structure <=? 100)%float = true)
  /\ ((0 <=? Structure.interactionScore structure)%float = true
      /\ (Structure.interactionScore structure <=? 100)%float = true)
  /\ (Advanced.interactionElements analysisResult = 0 ->
      Structure.interactionScore structure = 100%float).
Proof. exact (structure_scores_range code analysisResult Hcode Hchildren Hinteractions). Qed.

Lemma structure_scores_bounded_witness :
  let structure :=
    analyzeStructure (str "<div onclick=f()><p>hi</p></div>")
      {| Advanced.children := Some 4; Advanced.interactionElements := 2;
         Advanced.detectedBrand := None |} in
  ((0 <=? Structure.layoutScore structure)%float = true
   /\ (Structure.layoutScore structure <=? 100)%float = true)
  /\ ((0 <=? Structure.interactionScore structure)%float = true
      /\ (Structure.interactionScore structure <=? 100)%float = true)
  /\ (2 = 0 -> Structure.interactionScore structure = 100%float).
Proof.
  apply (structure_scores_bounded (str "<div onclick=f()><p>hi</p></div>")
           {| Advanced.children := Some 4; Advanced.interactionElements := 2;
              Advanced.detectedBrand := None |}).
  - vm_compute. reflexivity.
  - intros n H. inversion H. vm_compute. reflexivity.
  - vm_compute. reflexivity.
Defined.

End StructureFacts.

(** ** The basic elements *)

Section BasicElementsFacts.
Import JS JSArray ImageAnalyzer.
Local Open Scope float_scope.

Lemma SFmul_finite_not_nan (x : spec_float) (s : bool) (m : positive) (e : Z) :
  x <> S754_nan -> SF64mul x (S754_finite s m e) <> S754_nan.
Proof.
  destruct x as [sx | sx | | sx mx ex]; simpl; intros H;
    try discriminate; try tauto.
  eapply signed_not_nan, bra_signed. lia.
Qed.

Lemma ltb_not_nan (a b : float) : (a <? b)%float = true -> is_nan a = false.
Proof. intros H. eapply leb_not_nan, ltb_leb, H. Qed.

(** A header is at most 80 high. *)
Lemma header_height (height width : number) :
  (height * 1.5 <? width)%float = true ->
  (Math_min 80 (height * 0.15) <=? 80)%float = true.
Proof.
  intros H. apply ltb_not_nan, is_nan_spec in H.
  assert (Hh : Prim2SF height <> S754_nan).
  { intros E. apply H. rewrite FloatAxioms.mul_spec, E. reflexivity. }
  assert (Hx : is_nan (height * 0.15)%float = false).
  { apply is_nan_spec. rewrite FloatAxioms.mul_spec.
    apply (SFmul_finite_not_nan _ false 5404319552844595 (-55)), Hh. }
  destruct (Math_min_cases 80%float _ eq_refl Hx) as [[-> _] | [-> L]];
    [reflexivity | exact L].
Qed.

(** [generateBasicElements] returns a container, preceded by a header
    when the image is more than one and a half times as wide as it is
    high.  Both start at the left edge and take the width of the
    image; the header starts at the top and is at most 80 high, and
    the container that follows it starts at 80, so that the two never
    overlap. *)
Theorem basicElements_layout (result : ImageAnalysisResult) :
  let w := imageWidth (dimensions result) in
  let h := imageHeight (dimensions result) in
  match generateBasicElements result with
  | [main] =>
      (h * 1.5 <? w)%float = false
      /\ type main = container
      /\ position main = {| x := 0; y := 0; width := w; height := (h - 0)%float |}
  | [top; main] =>
      (h * 1.5 <? w)%float = true
      /\ type top = header /\ type main = container
      /\ x (position top) = 0%float /\ y (position top) = 0%float
      /\ width (position top) = w
      /\ (height (position top) <=? 80)%float = true
      /\ position main = {| x := 0; y := 80; width := w; height := (h - 80)%float |}
  | _ => False
  end.
Proof.
  cbv zeta. unfold generateBasicElements.
  destruct (imageHeight (dimensions result) * 1.5 <? imageWidth (dimensions result))%float
    eqn:E; cbn.
  - repeat split. apply (header_height _ _ E).
  - repeat split.
Qed.

Lemma below_80 (h : nat) :
  (h < 80)%nat ->
  (ofNat h - 80 <? 0)%float = true /\ (ofNat h <? 80)%float = true.
Proof.
  intros H.
  do 80 (destruct h as [| h]; [split; vm_compute; reflexivity |]).
  lia.
Qed.

(** For an image less than 80 pixels high and more than one and a half
    times as wide, the container starts below the bottom of the image
    and its height is negative. *)
Theorem basicElements_short_wide_image (result : ImageAnalysisResult) (w h : nat)
        (Hdimensions :
           dimensions result = {| imageWidth := ofNat w; imageHeight := ofNat h |})
        (Hshort : (h < 80)%nat)
        (Hwide : (ofNat h * 1.5 <? ofNat w)%float = true) :
  exists top main,
    generateBasicElements result = [top; main]
    /\ type main = container
    /\ (imageHeight (dimensions result) <? y (position main))%float = true
    /\ (height (position main) <? 0)%float = true.
Proof.
  unfold generateBasicElements. rewrite Hdimensions. cbn [imageWidth imageHeight].
  rewrite Hwide. cbn.
  do 2 eexists. split; [reflexivity |]. cbn.
  destruct (below_80 h Hshort) as [H1 H2]. auto.
Qed.


Lemma basicElements_short_wide_image_witness :
  exists top main,
    generateBasicElements (basicAnalysis 1000 50) = [top; main]
    /\ type main = container
    /\ (imageHeight (dimensions (basicAnalysis 1000 50)) <? y (position main))%float
       = true
    /\ (height (position main) <? 0)%float = true.
Proof.
  apply (basicElements_short_wide_image (basicAnalysis 1000 50) 1000 50).
  - reflexivity.
  - lia.
  - vm_compute. reflexivity.
Defined.

(** *** [analyzeImage] without a vision model *)





End BasicElementsFacts.

(** ** The brand store *)

Section MapFacts.
Import BrandIdentifier.
Context {A : Type}.

Lemma get_set_same (key : string) (v : A) (m : list (string * A)) :
  get key (set key v m) = Some v.
Proof.
  induction m as [| [k v'] m IH]; simpl.
  - rewrite String.eqb_refl. reflexivity.
  - destruct (String.eqb k key) eqn:E; simpl; rewrite E; [reflexivity | exact IH].
Qed.

Lemma get_set_other (key key' : string) (v : A) (m : list (string * A)) :
  key <> key' -> get key' (set key v m) = get key' m.
Proof.
  intros Hne. induction m as [| [k v'] m IH]; simpl.
  - destruct (String.eqb_spec key key'); [contradiction | reflexivity].
  - destruct (String.eqb_spec k key) as [-> | Hk]; simpl.
    + destruct (String.eqb_spec key key'); [contradiction | reflexivity].
    + rewrite IH. reflexivity.
Qed.

Lemma keys_set (key : string) (v : A) (m : list (string * A)) :
  List.map fst (set key v m)
  = match get key m with
    | Some _ => List.map fst m
    | None => (List.map fst m ++ [key])%list
    end.
Proof.
  induction m as [| [k v'] m IH]; simpl; [reflexivity |].
  destruct (String.eqb k key); simpl; [reflexivity |].
  rewrite IH. destruct (get key m); reflexivity.
Qed.

Lemma get_map {B} (f : A -> B) (key : string) (m : list (string * A)) :
  get key (List.map (fun entry => (fst entry, f (snd entry))) m)
  = option_map f (get key m).
Proof.
  induction m as [| [k v] m IH]; simpl; [reflexivity |].
  destruct (String.eqb k key); [reflexivity | exact IH].
Qed.

End MapFacts.

Section BrandStoreFacts.
Import BrandIdentifier BrandStore.

Variable Opaque : Type.
Variable lowerCase : string -> string.

Abbreviation State := (BrandStore.State Opaque).
Abbreviation BrandAssets := (BrandStore.BrandAssets Opaque).
Abbreviation PartialAssets := (BrandStore.PartialAssets Opaque).

(** After [addBrand(name, assets)], [getBrandAssets] returns [assets]
    for every name with the same lower-case form and what it returned
    before for every other name; the list of brands is unchanged when
    the lower-case name was a key already (the brand keeps its place)
    and has the lower-case name appended otherwise. *)
Theorem addBrand_getBrandAssets (st : State) (brandName : string)
        (assets : BrandAssets) :
  (forall other,
      getBrandAssets lowerCase (addBrand lowerCase st brandName assets) other
      = if String.eqb (lowerCase brandName) (lowerCase other)
        then Some assets
        else getBrandAssets lowerCase st other)
  /\ getAllBrands (addBrand lowerCase st brandName assets)
     = match getBrandAssets lowerCase st brandName with
       | Some _ => getAllBrands st
       | None => (getAllBrands st ++ [lowerCase brandName])%list
       end.
Proof.
  unfold getBrandAssets, getAllBrands, addBrand. cbn [BrandStore.brands]. split.
  - intros other.
    destruct (String.eqb_spec (lowerCase brandName) (lowerCase other)) as [<- | Hne].
    + apply get_set_same.
    + apply get_set_other, Hne.
  - apply keys_set.
Qed.

(** [updateBrand] leaves the state as it is when the brand is unknown;
    otherwise the brand's assets become the old ones overridden, key
    by key, by the updates.  It never adds, removes or moves a brand,
    and it changes no other brand. *)
Theorem updateBrand_spec (st : State) (brandName : string)
        (updates : PartialAssets) :
  (getBrandAssets lowerCase st brandName = None ->
   updateBrand lowerCase st brandName updates = st)
  /\ (forall existing,
         getBrandAssets lowerCase st brandName = Some existing ->
         getBrandAssets lowerCase (updateBrand lowerCase st brandName updates)
                        brandName
         = Some (spread existing updates))
  /\ getAllBrands (updateBrand lowerCase st brandName updates) = getAllBrands st
  /\ (forall other,
         lowerCase other <> lowerCase brandName ->
         getBrandAssets lowerCase (updateBrand lowerCase st brandName updates) other
         = getBrandAssets lowerCase st other).
Proof.
  unfold getBrandAssets, getAllBrands, updateBrand.
  destruct (get (lowerCase brandName) (BrandStore.brands st)) as [existing |] eqn:E;
    cbn [BrandStore.brands].
  - split; [discriminate |]. split; [| split].
    + intros ? H. inversion H; subst. apply get_set_same.
    + rewrite keys_set, E. reflexivity.
    + intros other Hne. apply get_set_other. congruence.
  - repeat split; auto. discriminate.
Qed.


(** *** Detection only looks at the brands that have keywords *)

Lemma fold_left_ext_in {X Y} (f g : X -> Y -> X) (l : list Y) (a : X) :
  (forall a b, In b l -> f a b = g a b) -> fold_left f l a = fold_left g l a.
Proof.
  revert a. induction l as [| y l IH]; intros a H; simpl; [reflexivity |].
  rewrite H by (left; reflexivity). apply IH. intros a' b Hb. apply H. right. exact Hb.
Qed.

Lemma scoreOf_same_brand (db db' : BrandDatabase) (text : jsstring)
      (palette : list jsstring) (name : string) (keywords : list jsstring) :
  BrandIdentifier.brandPatterns db' = BrandIdentifier.brandPatterns db ->
  get name (BrandIdentifier.brands db') = get name (BrandIdentifier.brands db) ->
  scoreOf db' text palette name keywords = scoreOf db text palette name keywords.
Proof. intros Hp Hb. unfold scoreOf. rewrite Hp, Hb. reflexivity. Qed.

(** A brand added with [addBrand] under a name that has no keywords is
    invisible to [detectBrand]: for every text and every colour list
    the answer is the same as before the call. *)
Theorem addBrand_not_detected (st : State) (brandName : string)
        (assets : BrandAssets)
        (Hnew : ~ In (lowerCase brandName) (List.map fst (BrandStore.brandKeywords st)))
        (text : jsstring) (colorPalette : list jsstring) :
  BrandStore.detectBrand (addBrand lowerCase st brandName assets) text colorPalette
  = BrandStore.detectBrand st text colorPalette.
Proof.
  unfold BrandStore.detectBrand, BrandIdentifier.detectBrand.
  replace (scores (database (addBrand lowerCase st brandName assets)) text colorPalette)
    with (scores (database st) text colorPalette); [reflexivity |].
  unfold scores. cbn [database addBrand BrandIdentifier.brandKeywords
                      BrandStore.brandKeywords].
  apply fold_left_ext_in. intros acc [name keywords] Hin. cbn [fst snd].
  rewrite (scoreOf_same_brand (database st)
             (database (addBrand lowerCase st brandName assets)));
    [reflexivity | reflexivity |].
  cbn [database addBrand BrandIdentifier.brands BrandStore.brands].
  rewrite !get_map. f_equal. apply get_set_other.
  intros E. apply Hnew. rewrite E. apply (in_map fst _ _ Hin).
Qed.


End BrandStoreFacts.

Section ShippedBrands.
Import BrandIdentifier BrandStore.

(** What [detectBrand] reads of the shipped store is the registry. *)
Lemma database_shipped : database shipped = registry.
Proof. reflexivity. Qed.

Lemma addBrand_not_detected_witness :
  BrandStore.detectBrand
    (addBrand asciiLowerCase shipped "Stripe"
       {| colors := colorSystem "#635BFF" "#0A2540" "#00D4FF" [] "" "" "" "" None;
          group := fun _ => tt |})
    (str "stripe checkout") [str "#635BFF"]
  = BrandStore.detectBrand shipped (str "stripe checkout") [str "#635BFF"].
Proof.
  apply (addBrand_not_detected unit asciiLowerCase shipped "Stripe").
  vm_compute. intuition discriminate.
Defined.

End ShippedBrands.

(** ** What [detectBrand] can answer *)

Section DetectionFacts.
Import JS BrandIdentifier.

Lemma in_set {A} (key : string) (v : A) (m : list (string * A)) (k : string) (a : A) :
  In (k, a) (set key v m) -> In (k, a) m \/ (k = key /\ a = v).
Proof.
  induction m as [| [k' v'] m IH]; simpl.
  - intros [H | []]. inversion H. auto.
  - destruct (String.eqb_spec k' key) as [-> | Hne]; simpl.
    + intros [H | H]; [inversion H; auto | auto].
    + intros [H | H]; [auto | destruct (IH H); auto].
Qed.

(** Every entry of [scores] is a brand of [brandKeywords] with its
    score. *)
Lemma scores_entries (db : BrandDatabase) (text : jsstring)
      (palette : list jsstring) (name : string) (score : nat) :
  In (name, score) (scores db text palette) ->
  exists keywords,
    In (name, keywords) (brandKeywords db)
    /\ score = scoreOf db text palette name keywords.
Proof.
  unfold scores.
  assert (H : forall l acc,
             In (name, score)
                (fold_left
                   (fun scores entry =>
                      let score := scoreOf db text palette (fst entry) (snd entry) in
                      if (0 <? score)%nat then set (fst entry) score scores else scores)
                   l acc) ->
             In (name, score) acc
             \/ exists keywords,
                 In (name, keywords) l
                 /\ score = scoreOf db text palette name keywords).
  { induction l as [| [n kws] l IH]; intros acc Hin; simpl in Hin; [auto |].
    destruct (IH _ Hin) as [Hacc | [keywords [Hl Hs]]].
    - destruct (0 <? scoreOf db text palette n kws)%nat.
      + apply in_set in Hacc. destruct Hacc as [Hacc | [-> ->]]; [auto |].
        right. exists kws. split; [left; reflexivity | reflexivity].
      + auto.
    - right. exists keywords. split; [right; exact Hl | exact Hs]. }
  intros Hin. destruct (H _ _ Hin) as [[] | Hex]. exact Hex.
Qed.

(** [detectBrand] names a brand only when its confidence exceeds 0.3,
    and only a brand that has an entry in [brandKeywords]: a brand
    known by its patterns or its colours alone is never named. *)
Theorem detectBrand_names_keyword_brand (db : BrandDatabase) (text : jsstring)
        (palette : list jsstring) (name : string) :
  brand (detectBrand db text palette) = Some name ->
  In name (List.map fst (brandKeywords db))
  /\ (0.3 <? confidence (detectBrand db text palette))%float = true.
Proof.
  unfold detectBrand.
  destruct (ColorExtractor.sortBy byScoreDesc (scores db text palette))
    as [| [top score] rest] eqn:E; cbn [brand confidence]; [discriminate |].
  cbn [fst snd].
  destruct (0.3 <? Math_min (ofNat score / 100) 1)%float eqn:C; [| discriminate].
  intros H. inversion H; subst. split; [| reflexivity].
  assert (Hin : In (name, score) (scores db text palette)).
  { eapply in_sortBy. rewrite E. left. reflexivity. }
  destruct (scores_entries _ _ _ _ _ Hin) as [keywords [Hk _]].
  apply (in_map fst _ _ Hk).
Qed.

Lemma detectBrand_names_keyword_brand_witness :
  In "toss"%string (List.map fst (brandKeywords registry))
  /\ (0.3 <? confidence (detectBrand registry (str "toss pay") []))%float = true.
Proof.
  apply (detectBrand_names_keyword_brand registry (str "toss pay") [] "toss").
  vm_compute. reflexivity.
Defined.

(** As long as every score stays below [2^53], where a double counts
    exactly, the confidence lies between 0 and 1. *)
Theorem detectBrand_confidence_range (db : BrandDatabase) (text : jsstring)
        (palette : list jsstring)
        (Hexact : forall name keywords,
            In (name, keywords) (brandKeywords db) ->
            (Z.of_nat (scoreOf db text palette name keywords) < 2 ^ 53)%Z) :
  (0 <=? confidence (detectBrand db text palette))%float = true
  /\ (confidence (detectBrand db text palette) <=? 1)%float = true.
Proof.
  unfold detectBrand.
  destruct (ColorExtractor.sortBy byScoreDesc (scores db text palette))
    as [| [top score] rest] eqn:E; cbn [brand confidence]; [split; reflexivity |].
  cbn [fst snd].
  assert (Hin : In (top, score) (scores db text palette)).
  { eapply in_sortBy. rewrite E. left. reflexivity. }
  destruct (scores_entries _ _ _ _ _ Hin) as [keywords [Hk ->]].
  specialize (Hexact _ _ Hk).
  set (score := scoreOf db text palette top keywords) in *.
  assert (Hx : nonneg (Prim2SF (ofNat score / 100)%float)).
  { rewrite div_spec.
    eapply SFdiv_nonneg with (my := 7036874417766400%positive) (ey := (-46)%Z);
      [apply ofNat_nonneg, Hexact | reflexivity]. }
  assert (Hn : is_nan (ofNat score / 100)%float = false)
    by (apply is_nan_spec, nonneg_not_nan, Hx).
  destruct (Math_min_cases _ 1%float Hn eq_refl) as [[-> L] | [-> L]].
  - split; [apply nonneg_leb_zero, Hx | exact L].
  - split; reflexivity.
Qed.

Lemma detectBrand_confidence_range_witness :
  (0 <=? confidence (detectBrand registry (str "toss pay") []))%float = true
  /\ (confidence (detectBrand registry (str "toss pay") []) <=? 1)%float = true.
Proof.
  apply (detectBrand_confidence_range registry (str "toss pay") []).
  intros name keywords Hin.
  repeat (destruct Hin as [Hin | Hin];
          [inversion Hin; subst; vm_compute; reflexivity |]).
  destruct Hin.
Defined.

End DetectionFacts.

(** ** Detection and the case of letters *)

Section CaseFacts.
Import JS BrandIdentifier.

(** The code unit [toLowerCase] puts for [c]. *)
Definition lower (c : N) : N :=
  if ((65 <=? c) && (c <=? 90))%N then (c + 32)%N else c.

Lemma toLowerCase_map (s : jsstring) : toLowerCase s = List.map lower s.
Proof. reflexivity. Qed.

Ltac ncases :=
  repeat match goal with
         | |- context [(?a <=? ?b)%N] => destruct (N.leb_spec a b)
         | |- context [(?a =? ?b)%N] => destruct (N.eqb_spec a b)
         end; cbn [andb orb negb] in *; try reflexivity; try lia.

Lemma lower_idempotent (c : N) : lower (lower c) = lower c.
Proof. unfold lower. ncases. Qed.

Lemma canonicalize_lower (c : N) : canonicalize (lower c) = canonicalize c.
Proof. unfold canonicalize, lower. ncases. Qed.

Lemma isLineTerminator_lower (c : N) : isLineTerminator (lower c) = isLineTerminator c.
Proof. unfold isLineTerminator, lower. ncases. Qed.

Definition notLetter (p : N) : bool :=
  negb (((65 <=? p) && (p <=? 90)) || ((97 <=? p) && (p <=? 122)))%N.

(** An atom that cannot tell the case of a letter: any atom under the
    [i] flag, and otherwise [.] or a character that is no ASCII
    letter. *)
Definition blindAtom (ic : bool) (a : atom) : bool :=
  ic || match a with Chr p => notLetter p | Dot => true end.

Definition caseBlind (re : RegExp) : bool :=
  forallb (fun it => blindAtom (ignoreCase re) (it_atom it)) (source re).

Lemma atomMatches_lower (ic : bool) (a : atom) (c : N) :
  blindAtom ic a = true -> atomMatches ic a (lower c) = atomMatches ic a c.
Proof.
  unfold blindAtom, atomMatches. destruct a as [p |].
  - destruct ic; cbn [orb].
    + intros _. rewrite canonicalize_lower. reflexivity.
    + unfold notLetter, lower. ncases; intros; try discriminate; lia.
  - intros _. rewrite isLineTerminator_lower. reflexivity.
Qed.

Lemma matchHere_lower (ic : bool) (items : list item) (s : jsstring) :
  forallb (fun it => blindAtom ic (it_atom it)) items = true ->
  matchHere ic items (List.map lower s) = matchHere ic items s.
Proof.
  revert s. induction items as [| it rest IH]; intros s H; [reflexivity |].
  cbn [forallb] in H. apply andb_true_iff in H. destruct H as [Hit Hrest].
  destruct s as [| c s]; cbn [matchHere List.map].
  - reflexivity.
  - rewrite (atomMatches_lower _ _ _ Hit), (IH s Hrest).
    change (lower c :: List.map lower s) with (List.map lower (c :: s)).
    rewrite (IH (c :: s) Hrest). reflexivity.
Qed.

Lemma countFrom_lower (re : RegExp) (skip : nat) (s : jsstring) :
  caseBlind re = true ->
  countFrom re skip (List.map lower s) = countFrom re skip s.
Proof.
  intros H. revert skip. induction s as [| c s IH]; intros skip; [reflexivity |].
  cbn [countFrom List.map]. destruct skip as [| k]; [| apply IH].
  change (lower c :: List.map lower s) with (List.map lower (c :: s)).
  rewrite (matchHere_lower _ _ _ H).
  destruct (matchHere (ignoreCase re) (source re) (c :: s)) as [[| n] |];
    rewrite IH; reflexivity.
Qed.

Lemma keywordRegExp_caseBlind (keyword : jsstring) :
  caseBlind (keywordRegExp keyword) = true.
Proof.
  unfold caseBlind, keywordRegExp. cbn [ignoreCase source].
  apply forallb_forall. intros it _. reflexivity.
Qed.

Lemma includes_lower (l : list jsstring) (color : jsstring) :
  includes l (toLowerCase (toLowerCase color)) = includes l (toLowerCase color).
Proof.
  f_equal. unfold toLowerCase. rewrite map_map.
  apply map_ext. exact lower_idempotent.
Qed.

Lemma scoreOf_lower (db : BrandDatabase) (text : jsstring) (palette : list jsstring)
      (name : string) (keywords : list jsstring) :
  (forall patterns, get name (brandPatterns db) = Some patterns ->
                    forallb caseBlind patterns = true) ->
  scoreOf db (toLowerCase text) (List.map toLowerCase palette) name keywords
  = scoreOf db text palette name keywords.
Proof.
  intros Hp. unfold scoreOf. rewrite length_map.
  assert (Hk : forall a,
             fold_left (fun score keyword =>
                          score + matchCount (keywordRegExp keyword)
                                    (toLowerCase text) * 10) keywords a
             = fold_left (fun score keyword =>
                            score + matchCount (keywordRegExp keyword) text * 10)
                         keywords a).
  { intros a. apply fold_left_ext_in. intros acc k _. unfold matchCount.
    rewrite toLowerCase_map, countFrom_lower by apply keywordRegExp_caseBlind.
    reflexivity. }
  rewrite Hk.
  set (afterKeywords := fold_left _ keywords 0).
  assert (Hq : fold_left (fun score pattern =>
                            score + matchCount pattern (toLowerCase text) * 15)
                 match get name (brandPatterns db) with
                 | Some ps => ps
                 | None => []
                 end afterKeywords
               = fold_left (fun score pattern => score + matchCount pattern text * 15)
                   match get name (brandPatterns db) with
                   | Some ps => ps
                   | None => []
                   end afterKeywords).
  { destruct (get name (brandPatterns db)) as [ps |]; [| reflexivity].
    specialize (Hp ps eq_refl). rewrite forallb_forall in Hp.
    apply fold_left_ext_in. intros acc p Hin. unfold matchCount.
    rewrite toLowerCase_map, countFrom_lower by (apply Hp, Hin). reflexivity. }
  rewrite Hq.
  destruct (0 <? List.length palette); [| reflexivity].
  destruct (get name (brands db)) as [assets |]; [| reflexivity].
  rewrite fold_left_map. apply fold_left_ext_in. intros acc color _.
  rewrite includes_lower. reflexivity.
Qed.

(** With the shipped registry, [detectBrand] cannot tell the case of
    the ASCII letters of its input: lowering them in the text and in
    the candidate colours changes neither the brand nor the
    confidence. *)
Theorem detectBrand_ignores_case (text : jsstring) (palette : list jsstring) :
  detectBrand registry (toLowerCase text) (List.map toLowerCase palette)
  = detectBrand registry text palette.
Proof.
  unfold detectBrand.
  replace (scores registry (toLowerCase text) (List.map toLowerCase palette))
    with (scores registry text palette); [reflexivity |].
  unfold scores. apply fold_left_ext_in. intros acc [name keywords] Hin.
  cbn [fst snd]. rewrite scoreOf_lower; [reflexivity |].
  intros patterns Hget.
  repeat (destruct Hin as [Hin | Hin];
          [inversion Hin; subst; vm_compute in Hget; inversion Hget; subst;
           vm_compute; reflexivity |]).
  destruct Hin.
Qed.

End CaseFacts.

(** ** The comparison is symmetric *)

Section BytePairs.

Definition allBytes : list Byte.byte :=
  flat_map (fun n => match Byte.of_nat n with
                     | Some b => [b]
                     | None => []
                     end) (seq 0 256).

Lemma in_allBytes (b : Byte.byte) : In b allBytes.
Proof.
  unfold allBytes. apply in_flat_map. exists (Byte.to_nat b). split.
  - apply in_seq. pose proof (Byte.to_nat_bounded b). lia.
  - rewrite Byte.of_to_nat. left. reflexivity.
Qed.

Lemma forall_byte_pairs (P : Byte.byte -> Byte.byte -> bool) :
  forallb (fun a => forallb (P a) allBytes) allBytes = true ->
  forall a b, P a b = true.
Proof.
  intros H a b. rewrite forallb_forall in H.
  specialize (H a (in_allBytes a)). rewrite forallb_forall in H.
  apply H, in_allBytes.
Qed.

Definition SFbeq (x y : spec_float) : bool :=
  match x, y with
  | S754_zero s, S754_zero s' => Bool.eqb s s'
  | S754_infinity s, S754_infinity s' => Bool.eqb s s'
  | S754_nan, S754_nan => true
  | S754_finite s m e, S754_finite s' m' e' =>
      Bool.eqb s s' && Pos.eqb m m' && Z.eqb e e'
  | _, _ => false
  end.

Lemma SFbeq_eq (x y : float) : SFbeq (Prim2SF x) (Prim2SF y) = true -> x = y.
Proof.
  intros H. apply Prim2SF_inj.
  destruct (Prim2SF x) as [s | s | | s m e], (Prim2SF y) as [s' | s' | | s' m' e'];
    simpl in H; try discriminate; try reflexivity.
  - apply Bool.eqb_prop in H. congruence.
  - apply Bool.eqb_prop in H. congruence.
  - apply andb_true_iff in H. destruct H as [H He].
    apply andb_true_iff in H. destruct H as [Hs Hm].
    apply Bool.eqb_prop in Hs. apply Pos.eqb_eq in Hm. apply Z.eqb_eq in He.
    congruence.
Qed.

End BytePairs.

Section SymmetryFacts.
Import JS PixelComparator.

Variable resize : nat -> nat -> Image -> Image.

Lemma square_of_difference (a b : Byte.byte) :
  Math_pow2 (channel b - channel a)%float = Math_pow2 (channel a - channel b)%float.
Proof.
  apply SFbeq_eq.
  apply (forall_byte_pairs
           (fun a b => SFbeq (Prim2SF (Math_pow2 (channel b - channel a)%float))
                             (Prim2SF (Math_pow2 (channel a - channel b)%float)))).
  vm_compute. reflexivity.
Qed.

Lemma distance_sym (c1 c2 : RGBA) : distance c1 c2 = distance c2 c1.
Proof.
  unfold distance.
  rewrite (square_of_difference (r c1) (r c2)),
    (square_of_difference (g c1) (g c2)), (square_of_difference (b c1) (b c2)).
  reflexivity.
Qed.

Lemma body_sym (original rendered : Image) (st : LoopState) (x y : nat) :
  body original rendered st x y = body rendered original st x y.
Proof. unfold body. rewrite distance_sym. reflexivity. Qed.

Lemma scan_sym (original rendered : Image) (width height : nat) :
  scan original rendered width height = scan rendered original width height.
Proof.
  unfold scan. apply fold_left_ext_eq. intros st y.
  apply fold_left_ext_eq. intros st' x. apply body_sym.
Qed.

(** [comparePixelLevel] is symmetric: exchanging the original and the
    rendered image changes neither the similarity nor the regions,
    their severities and their descriptions. *)
Theorem comparePixelLevel_sym (original rendered : option Image) :
  comparePixelLevel resize original rendered
  = comparePixelLevel resize rendered original.
Proof.
  destruct original as [original |], rendered as [rendered |]; try reflexivity.
  unfold comparePixelLevel.
  rewrite (Nat.min_comm (getWidth rendered)), (Nat.min_comm (getHeight rendered)).
  rewrite scan_sym. reflexivity.
Qed.


(** *** The regions *)

Lemma in_scanOrder (px py width height : nat) :
  In (px, py) (scanOrder width height) -> px < width /\ py < height.
Proof.
  unfold scanOrder. rewrite in_flat_map. intros [row [Hrow Hin]].
  apply in_map_iff in Hin. destruct Hin as [col [E Hcol]].
  inversion E; subst. apply in_seq in Hrow, Hcol. lia.
Qed.

Lemma severity_bounds (diff : number) :
  nonneg (Prim2SF diff) ->
  let severity := Math_min (diff / 255)%float 1%float in
  (0 <=? severity)%float = true /\ (severity <=? 1)%float = true.
Proof.
  intros Hd severity.
  assert (Hx : nonneg (Prim2SF (diff / 255)%float)).
  { rewrite div_spec.
    eapply SFdiv_nonneg with (my := 8972014882652160%positive) (ey := (-45)%Z);
      [exact Hd | reflexivity]. }
  assert (Hn : is_nan (diff / 255)%float = false)
    by (apply is_nan_spec, nonneg_not_nan, Hx).
  unfold severity.
  destruct (Math_min_cases _ 1%float Hn eq_refl) as [[-> L] | [-> L]].
  - split; [apply nonneg_leb_zero, Hx | exact L].
  - split; reflexivity.
Qed.

(** Every region that [comparePixelLevel] returns is one pixel of the
    compared area (the smaller width by the smaller height) whose
    colours are more than 30 apart; it is of type [color] and its
    severity lies between 0 and 1. *)
Theorem regions_wellformed (original rendered : Image) (d : ImageDifference) :
  let width := Nat.min (getWidth original) (getWidth rendered) in
  let height := Nat.min (getHeight original) (getHeight rendered) in
  let o := resize width height original in
  let r := resize width height rendered in
  In d (differences (comparePixelLevel resize (Some original) (Some rendered))) ->
  exists px py,
    px < width /\ py < height
    /\ region d = {| x := px; y := py; PixelComparator.width := 1;
                     PixelComparator.height := 1 |}
    /\ (threshold <? distance (getPixelColor o px py) (getPixelColor r px py))%float
       = true
    /\ type d = color
    /\ (0 <=? severity d)%float = true /\ (severity d <=? 1)%float = true.
Proof.
  cbv zeta. unfold comparePixelLevel. cbn [differences].
  intros Hin. apply in_firstn in Hin.
  rewrite scan_scanOrder, diffs_fold in Hin. cbn [diffs app] in Hin.
  apply in_map_iff in Hin. destruct Hin as [[px py] [<- Hin]].
  apply in_firstn, filter_In in Hin. destruct Hin as [Hin Hex].
  apply in_scanOrder in Hin.
  exists px, py. repeat split; try apply Hin; try exact Hex;
    apply severity_bounds, distance_nonneg.
Qed.

End SymmetryFacts.

Section SymmetryExamples.
Import JS PixelComparator.

Lemma regions_wellformed_witness :
  exists px py,
    px < 2 /\ py < 1
    /\ region (differenceAt (solid 2 1 black) redThenWhite (0, 0)%nat)
       = {| x := px; y := py; PixelComparator.width := 1;
            PixelComparator.height := 1 |}
    /\ (threshold <? distance (getPixelColor (keep 2 1 (solid 2 1 black)) px py)
                              (getPixelColor (keep 2 1 redThenWhite) px py))%float
       = true
    /\ type (differenceAt (solid 2 1 black) redThenWhite (0, 0)%nat) = color
    /\ (0 <=? severity (differenceAt (solid 2 1 black) redThenWhite (0, 0)%nat))%float
       = true
    /\ (severity (differenceAt (solid 2 1 black) redThenWhite (0, 0)%nat) <=? 1)%float
       = true.
Proof.
  apply (regions_wellformed keep (solid 2 1 black) redThenWhite
           (differenceAt (solid 2 1 black) redThenWhite (0, 0)%nat)).
  vm_compute. left. reflexivity.
Defined.

End SymmetryExamples.

(** ** More on the palette *)

Section PaletteFacts.
Import JS ColorExtractor.

(** *** The counts of the frequency map *)

Lemma mapGet_mapSet_same (key : string) (v : nat) (m : ColorMap) :
  mapGet key (mapSet key v m) = Some v.
Proof.
  induction m as [| [k v'] m IH]; simpl.
  - rewrite String.eqb_refl. reflexivity.
  - destruct (String.eqb k key) eqn:E; simpl; rewrite E; [reflexivity | exact IH].
Qed.

Lemma mapGet_mapSet_other (key key' : string) (v : nat) (m : ColorMap) :
  key <> key' -> mapGet key' (mapSet key v m) = mapGet key' m.
Proof.
  intros Hne. induction m as [| [k v'] m IH]; simpl.
  - destruct (String.eqb_spec key key'); [contradiction | reflexivity].
  - destruct (String.eqb_spec k key) as [-> | Hk]; simpl.
    + destruct (String.eqb_spec key key'); [contradiction | reflexivity].
    + rewrite IH. reflexivity.
Qed.

Lemma keys_mapSet (key : string) (v : nat) (m : ColorMap) :
  List.map fst (mapSet key v m)
  = match mapGet key m with
    | Some _ => List.map fst m
    | None => (List.map fst m ++ [key])%list
    end.
Proof.
  induction m as [| [k v'] m IH]; simpl; [reflexivity |].
  destruct (String.eqb k key); simpl; [reflexivity |].
  rewrite IH. destruct (mapGet key m); reflexivity.
Qed.

Lemma mapGet_in (key : string) (m : ColorMap) :
  mapGet key m = None -> ~ In key (List.map fst m).
Proof.
  induction m as [| [k v] m IH]; simpl; [tauto |].
  destruct (String.eqb_spec k key); [discriminate |].
  intros H [E | Hin]; [contradiction | exact (IH H Hin)].
Qed.

Lemma in_mapGet (key : string) (n : nat) (m : ColorMap) :
  NoDup (List.map fst m) -> In (key, n) m -> mapGet key m = Some n.
Proof.
  induction m as [| [k v] m IH]; simpl; [tauto |].
  intros Hnd [E | Hin].
  - inversion E; subst. rewrite String.eqb_refl. reflexivity.
  - inversion Hnd as [| ? ? Hnotin Hnd']; subst.
    destruct (String.eqb_spec k key) as [-> | Hne].
    + exfalso. apply Hnotin. apply (in_map fst _ _ Hin).
    + apply IH; assumption.
Qed.

(** The number of samples, among those that start at the indices
    [idx], whose colour is [c]. *)
Definition occurrences (data : Buffer) (idx : list nat) (c : string) : nat :=
  List.length (filter (fun i => String.eqb (colorAt data i) c) idx).

Definition countOf (m : ColorMap) (c : string) : nat :=
  match mapGet c m with
  | Some n => n
  | None => 0
  end.

Lemma sample_counts (data : Buffer) (m : ColorMap) (i : nat) (c : string) :
  countOf (sample data m i) c
  = countOf m c + (if String.eqb (colorAt data i) c then 1 else 0).
Proof.
  unfold sample, countOf.
  destruct (String.eqb_spec (colorAt data i) c) as [<- | Hne].
  - rewrite mapGet_mapSet_same. reflexivity.
  - rewrite mapGet_mapSet_other by exact Hne. lia.
Qed.

Lemma sample_keys (data : Buffer) (m : ColorMap) (i : nat) :
  NoDup (List.map fst m) ->
  (forall c n, In (c, n) m -> 1 <= n) ->
  NoDup (List.map fst (sample data m i))
  /\ (forall c n, In (c, n) (sample data m i) -> 1 <= n).
Proof.
  intros Hnd Hpos. unfold sample. split.
  - rewrite keys_mapSet.
    destruct (mapGet (colorAt data i) m) eqn:E; [exact Hnd |].
    apply NoDup_app; [exact Hnd | repeat constructor; intros [] |].
    intros k Hk [<- | []]. exact (mapGet_in _ _ E Hk).
  - intros c n Hin. apply in_mapSet in Hin.
    destruct Hin as [Hin | [_ ->]]; [apply (Hpos c n Hin) | lia].
Qed.

Lemma fold_counts (data : Buffer) (idx : list nat) (m : ColorMap) :
  NoDup (List.map fst m) ->
  (forall c n, In (c, n) m -> 1 <= n) ->
  let m' := fold_left (sample data) idx m in
  NoDup (List.map fst m')
  /\ (forall c n, In (c, n) m' -> 1 <= n)
  /\ (forall c, countOf m' c = countOf m c + occurrences data idx c).
Proof.
  revert m. induction idx as [| i idx IH]; intros m Hnd Hpos; cbn [fold_left].
  - repeat split; auto; intros c; unfold occurrences; cbn; lia.
  - destruct (sample_keys data m i Hnd Hpos) as [Hnd' Hpos'].
    destruct (IH _ Hnd' Hpos') as [H1 [H2 H3]].
    split; [exact H1 |]. split; [exact H2 |].
    intros c. rewrite H3, sample_counts. unfold occurrences. cbn [filter].
    destruct (String.eqb (colorAt data i) c); cbn [List.length]; lia.
Qed.

(** The frequency map counts: it has exactly one entry for each colour
    that occurs among the samples, and the entry holds the number of
    samples of that colour. *)
Theorem histogram_counts (data : Buffer) :
  NoDup (List.map fst (histogram data))
  /\ forall c n,
       In (c, n) (histogram data)
       <-> (1 <= n /\ n = occurrences data (indices (List.length data)) c).
Proof.
  destruct (fold_counts data (indices (List.length data)) [] (NoDup_nil _)
              ltac:(intros c n [])) as [Hnd [Hpos Hcount]].
  fold (histogram data) in Hnd, Hpos, Hcount.
  split; [exact Hnd |].
  intros c n. specialize (Hcount c). unfold countOf at 2 in Hcount.
  cbn [mapGet Nat.add] in Hcount. split.
  - intros Hin. split; [apply (Hpos c n Hin) |].
    unfold countOf in Hcount. rewrite (in_mapGet _ _ _ Hnd Hin) in Hcount. exact Hcount.
  - intros [Hn ->]. unfold countOf in Hcount.
    destruct (mapGet c (histogram data)) as [n |] eqn:E; [| lia].
    subst n. clear - E. revert E.
    generalize (occurrences data (indices (List.length data)) c). intros n E.
    induction (histogram data) as [| [k v] m IH]; [discriminate |].
    cbn [mapGet] in E. destruct (String.eqb_spec k c) as [-> | Hne].
    + inversion E. left. reflexivity.
    + right. apply IH, E.
Qed.


(** *** The ranking *)

Lemma NoDup_insertSorted {A B} (cmp : A -> A -> Z) (f : A -> B) (x : A) (l : list A) :
  NoDup (List.map f (x :: l)) -> NoDup (List.map f (insertSorted cmp x l)).
Proof.
  induction l as [| y l IH]; intros H; [exact H |].
  cbn [insertSorted]. destruct (cmp x y <=? 0)%Z; [exact H |].
  cbn [List.map] in *.
  inversion H as [| ? ? Hx Hrest]; subst.
  inversion Hrest as [| ? ? Hy Hl]; subst.
  constructor.
  - intros Hin. apply in_map_iff in Hin. destruct Hin as [z [Hz Hin]].
    apply in_insertSorted in Hin. destruct Hin as [-> | Hin].
    + apply Hx. left. symmetry. exact Hz.
    + apply Hy. rewrite <- Hz. apply in_map, Hin.
  - apply IH. constructor; [| exact Hl].
    intros Hin. apply Hx. right. exact Hin.
Qed.

Lemma NoDup_sortBy {A B} (cmp : A -> A -> Z) (f : A -> B) (l : list A) :
  NoDup (List.map f l) -> NoDup (List.map f (sortBy cmp l)).
Proof.
  induction l as [| x l IH]; intros H; [exact H |].
  unfold sortBy in IH |- *. cbn [fold_right].
  apply NoDup_insertSorted. cbn [List.map] in *.
  inversion H as [| ? ? Hx Hl]; subst.
  constructor; [| apply IH, Hl].
  intros Hin. apply Hx. apply in_map_iff in Hin. destruct Hin as [z [Hz Hin]].
  apply in_sortBy in Hin. rewrite <- Hz. apply in_map, Hin.
Qed.

Lemma NoDup_firstn {A} (n : nat) (l : list A) : NoDup l -> NoDup (firstn n l).
Proof.
  intros H. rewrite <- (firstn_skipn n l) in H. exact (NoDup_app_remove_r _ _ H).
Qed.

Lemma sorted_split {A} (R : A -> A -> Prop) (n : nat) (l : list A) :
  StronglySorted R l ->
  forall a b, In a (firstn n l) -> In b (skipn n l) -> R a b.
Proof.
  intros Hs. revert n. induction Hs as [| x l Hs IH Hall]; intros n a b Ha Hb.
  - rewrite firstn_nil in Ha. destruct Ha.
  - destruct n as [| n]; [destruct Ha |].
    cbn [firstn skipn] in Ha, Hb. destruct Ha as [<- | Ha].
    + rewrite Forall_forall in Hall. apply Hall.
      rewrite <- (firstn_skipn n l). apply in_or_app. right. exact Hb.
    + eapply IH; eassumption.
Qed.

(** The palette lists no colour twice, and it holds the most frequent
    colours: a colour of the samples that is left out occurs at most
    as often as every colour that is listed.  The first colour is the
    one that, among the most frequent ones, was sampled first. *)
Theorem palette_ranking (data : Buffer) :
  let top := top5 data in
  NoDup (extractColorPalette (Some data))
  /\ (forall c n c' n',
         In (c, n) top -> In (c', n') (histogram data) ->
         ~ In c' (extractColorPalette (Some data)) -> n' <= n)
  /\ match top with
     | [] => data = []
     | (c, n) :: _ =>
         exists before after,
           histogram data = (before ++ (c, n) :: after)%list
           /\ (forall e, In e before -> snd e < n)
           /\ (forall e, In e after -> snd e <= n)
     end.
Proof.
  cbv zeta. unfold extractColorPalette, top5.
  destruct (histogram_counts data) as [Hnd _].
  set (sorted := sortBy byCountDesc (histogram data)).
  split; [| split].
  - rewrite <- firstn_map. apply NoDup_firstn, NoDup_sortBy, Hnd.
  - intros c n c' n' Hin Hin' Hout.
    apply (in_sortBy byCountDesc) in Hin'. fold sorted in Hin'.
    rewrite <- (firstn_skipn 5 sorted) in Hin'. apply in_app_or in Hin'.
    destruct Hin' as [Hin' | Hin'].
    + exfalso. apply Hout. apply (in_map fst _ _ Hin').
    + exact (sorted_split (fun a b => snd b <= snd a) 5 sorted
               (sortBy_descending byCountDesc snd byCountDesc_key _)
               (c, n) (c', n') Hin Hin').
  - pose proof (sortBy_head byCountDesc snd byCountDesc_key (histogram data)) as H.
    fold sorted in H. destruct sorted as [| [c n] rest]; cbn [firstn].
    + destruct (histogram_spec data) as [_ Htotal].
      destruct data as [| b data]; [reflexivity |]. exfalso.
      assert (Hsamples : 1 <= (List.length (b :: data) + 2) / 3)
        by (apply Nat.div_le_lower_bound; cbn [List.length]; lia).
      rewrite <- Htotal, H in Hsamples. cbn in Hsamples. lia.
    + exact H.
Qed.

End PaletteFacts.

(** ** The quantized channels *)

Section ChannelFacts.
Import JS ColorExtractor.
Local Open Scope string_scope.

Lemma forall_byte (P : Byte.byte -> bool) :
  forallb P allBytes = true -> forall b, P b = true.
Proof. intros H b. rewrite forallb_forall in H. apply H, in_allBytes. Qed.

(** The quantized value of a byte [v], as an integer, and what holds of
    it: a multiple of 16 between 0 and 256, at most 7 below [v] and
    at most 8 above. *)
Definition quantizedWell (b : Byte.byte) : bool :=
  let v := Z.of_N (Byte.to_N b) in
  match toZ (roundTo16 (byteValue b)) with
  | Some z =>
      ((z mod 16 =? 0) && (0 <=? z) && (z <=? 256) && (v - 7 <=? z) && (z <=? v + 8))%Z
  | None => false
  end.

Lemma quantization_range_aux (b : Byte.byte) :
  let v := Z.of_N (Byte.to_N b) in
  exists z,
    toZ (roundTo16 (byteValue b)) = Some z
    /\ (z mod 16 = 0)%Z /\ (0 <= z <= 256)%Z /\ (v - 7 <= z <= v + 8)%Z.
Proof.
  cbv zeta.
  assert (H : quantizedWell b = true)
    by (apply forall_byte; vm_compute; reflexivity).
  unfold quantizedWell in H.
  destruct (toZ (roundTo16 (byteValue b))) as [z |]; [| discriminate].
  exists z. split; [reflexivity |].
  repeat (apply andb_true_iff in H; destruct H as [H ?]).
  apply Z.eqb_eq in H.
  repeat match goal with H : (_ <=? _)%Z = true |- _ => apply Z.leb_le in H end.
  repeat split; assumption.
Qed.

(** Quantization sends a channel value [v] to a whole multiple of 16
    between 0 and 256 (17 values), at most 7 below [v] and at most 8
    above it. *)
Theorem quantization_range (b : Byte.byte) :
  let v := Z.of_N (Byte.to_N b) in
  exists z,
    toZ (roundTo16 (byteValue b)) = Some z
    /\ (z mod 16 = 0)%Z /\ (0 <= z <= 256)%Z /\ (v - 7 <= z <= v + 8)%Z.
Proof. exact (quantization_range_aux b). Qed.

Definition decimal (z : Z) : string := NilZero.string_of_int (Z.to_int z).

Lemma show_rounded_byte (b : Byte.byte) :
  exists z, (z mod 16 = 0)%Z /\ (0 <= z <= 256)%Z
            /\ show (rounded (Some b)) = decimal z.
Proof.
  destruct (quantization_range_aux b) as [z [Hz [Hm [Hr _]]]].
  exists z. repeat split; try assumption; try apply Hr.
  unfold show, rounded. rewrite Hz. reflexivity.
Qed.


Lemma last_index (len : nat) :
  len mod 3 <> 0 ->
  In (3 * (len / 3)) (indices len) /\ len <= 3 * (len / 3) + 2.
Proof.
  intros Hr. pose proof (Nat.div_mod_eq len 3) as E.
  pose proof (Nat.mod_upper_bound len 3 ltac:(lia)) as Hb.
  set (q := len / 3) in *. set (r := len mod 3) in *.
  split; [| lia].
  unfold indices. apply in_map, in_seq. split; [lia |].
  assert (q + 1 <= (len + 2) / 3) by (apply Nat.div_le_lower_bound; lia).
  lia.
Qed.

Lemma occurrences_positive (data : Buffer) (idx : list nat) (i : nat) :
  In i idx -> 1 <= occurrences data idx (colorAt data i).
Proof.
  intros Hin. unfold occurrences.
  assert (H : In i (filter (fun j => String.eqb (colorAt data j) (colorAt data i)) idx))
    by (apply filter_In; split; [exact Hin | apply String.eqb_refl]).
  destruct (filter _ idx); [destruct H | cbn; lia].
Qed.

(** When the buffer holds whole RGB triples, every colour of the
    palette reads [rgb(R, G, B)] with three multiples of 16 between 0
    and 256.  When its length is not a multiple of 3 (a buffer with
    an alpha channel may be so), the last sample reads past the end
    and the frequency map holds a colour whose blue channel is
    [NaN]. *)
Theorem palette_channels (data : Buffer) :
  (List.length data mod 3 = 0 ->
   forall c, In c (extractColorPalette (Some data)) ->
     exists zr zg zb,
       Forall (fun z => (z mod 16 = 0)%Z /\ (0 <= z <= 256)%Z) [zr; zg; zb]
       /\ c = "rgb(" ++ decimal zr ++ ", " ++ decimal zg ++ ", " ++ decimal zb ++ ")")
  /\ (List.length data mod 3 <> 0 ->
      exists red green n,
        1 <= n
        /\ In ("rgb(" ++ red ++ ", " ++ green ++ ", NaN)", n) (histogram data)).
Proof.
  split.
  - intros Hlen c Hin. unfold extractColorPalette, top5 in Hin.
    apply in_map_iff in Hin. destruct Hin as [[c' n] [<- Hin]].
    apply in_firstn, in_sortBy in Hin.
    destruct (histogram_spec data) as [Hentries _].
    destruct (Hentries _ _ Hin) as [_ [i [Hi [Hm ->]]]]. cbn [fst].
    assert (Hfull : i + 2 < List.length data).
    { pose proof (Nat.div_mod_eq (List.length data) 3) as E1.
      pose proof (Nat.div_mod_eq i 3) as E2.
      rewrite Hlen in E1. rewrite Hm in E2.
      set (q := List.length data / 3) in *. set (k := i / 3) in *. lia. }
    unfold colorAt, at_, rgb.
    destruct (nth_error data i) as [b1 |] eqn:E1;
      [| apply nth_error_None in E1; lia].
    destruct (nth_error data (i + 1)) as [b2 |] eqn:E2;
      [| apply nth_error_None in E2; lia].
    destruct (nth_error data (i + 2)) as [b3 |] eqn:E3;
      [| apply nth_error_None in E3; lia].
    destruct (show_rounded_byte b1) as [zr [Hr1 [Hr2 ->]]].
    destruct (show_rounded_byte b2) as [zg [Hg1 [Hg2 ->]]].
    destruct (show_rounded_byte b3) as [zb [Hb1 [Hb2 ->]]].
    exists zr, zg, zb. split; [| reflexivity].
    repeat (apply Forall_cons; [split; assumption |]). apply Forall_nil.
  - intros Hlen. destruct (last_index _ Hlen) as [Hin Hend].
    set (i := 3 * (List.length data / 3)) in *.
    exists (show (rounded (at_ data i))), (show (rounded (at_ data (i + 1)))),
      (occurrences data (indices (List.length data)) (colorAt data i)).
    split; [apply occurrences_positive, Hin |].
    assert (Hc : colorAt data i
                 = "rgb(" ++ show (rounded (at_ data i)) ++ ", "
                   ++ show (rounded (at_ data (i + 1))) ++ ", NaN)").
    { unfold colorAt, at_, rgb.
      assert (E : nth_error data (i + 2) = None) by (apply nth_error_None; lia).
      rewrite E. reflexivity. }
    rewrite <- Hc. apply histogram_counts.
    split; [apply occurrences_positive, Hin | reflexivity].
Qed.

End ChannelFacts.

(** ** Subtracting from 100 *)

Section Hundred.
Local Open Scope Z_scope.
Abbreviation bra := (binary_round_aux prec emax).
Abbreviation fexp64 := (fexp prec emax).

Definition hundred : spec_float := S754_finite false 7036874417766400 (-46).

Lemma SFleb_hundred_signed_true (x : spec_float) :
  signed true x -> SFleb x hundred = true.
Proof. destruct x as [s | s | | s m e]; simpl; intros H; subst; tauto || reflexivity. Qed.

Lemma SFleb_finite_hundred (m : positive) (e : Z) :
  e < -46 \/ (e = -46 /\ Z.pos m <= 25 * 2 ^ 48) ->
  SFleb (S754_finite false m e) hundred = true.
Proof.
  unfold SFleb, SFcompare, hundred. intros [H | [-> H]].
  - rewrite (proj2 (Z.compare_lt_iff e (-46)) H). reflexivity.
  - rewrite Z.compare_refl.
    destruct (Pos.compare_cont Eq m 7036874417766400) eqn:C; try reflexivity.
    apply Pos.compare_gt_iff in C.
    assert (Z.pos 7036874417766400 = 25 * 2 ^ 48) by reflexivity. lia.
Qed.

(** Rounding a positive number that is at most 100 gives at most 100. *)
Lemma bra_le_hundred (p : positive) (e : Z) :
  e <= -46 -> Z.pos p <= 25 * 2 ^ (2 - e) ->
  SFleb (bra false (Z.pos p) e loc_Exact) hundred = true.
Proof.
  intros He Hp.
  pose proof (digits2_bounds p) as [Bd _].
  set (d := Z.pos (digits2_pos p)) in *.
  assert (Hd : d + e <= 7).
  { assert (L : 2 ^ (d - 1) < 2 ^ (7 - e)).
    { eapply Z.le_lt_trans; [exact Bd |]. eapply Z.le_lt_trans; [exact Hp |].
      replace (7 - e) with (5 + (2 - e)) by lia.
      rewrite Z.pow_add_r by lia. change (2 ^ 5) with 32.
      assert (0 < 2 ^ (2 - e)) by (apply Z.pow_pos_nonneg; lia). lia. }
    apply Z.pow_lt_mono_r_iff in L; lia. }
  destruct (Z.le_gt_cases (fexp64 (d + e)) e) as [H | H].
  - rewrite bra_noshift by exact H.
    replace (e <=? 971) with true by (symmetry; apply Z.leb_le; lia).
    apply SFleb_finite_hundred.
    destruct (Z.eq_dec e (-46)) as [-> | Hne]; [right | left; lia].
    split; [reflexivity |]. change (2 - -46) with 48 in Hp. lia.
  - destruct (bra_shift false p e H) as [m1 [[Hq Hq1] [Hexact [Hm53 R]]]].
    rewrite R. clear R.
    fold d in Hq, Hq1, Hexact, H |- *.
    assert (He1 : fexp64 (d + e) <= -46) by (rewrite fexp64_eq; lia).
    set (e1 := fexp64 (d + e)) in *.
    assert (P : 0 < 2 ^ (e1 - e)) by (apply Z.pow_pos_nonneg; lia).
    assert (Hm1 : 0 <= m1).
    { etransitivity; [| exact Hq]. apply Z.div_pos; lia. }
    assert (Hsplit : 25 * 2 ^ (2 - e) = 25 * 2 ^ (2 - e1) * 2 ^ (e1 - e)).
    { replace (2 - e) with ((2 - e1) + (e1 - e)) by lia.
      rewrite Z.pow_add_r by lia. ring. }
    assert (Hup : m1 <= 25 * 2 ^ (2 - e1)).
    { destruct (Z.eq_dec (Z.pos p) (25 * 2 ^ (2 - e))) as [E | N].
      - assert (M : Z.pos p mod 2 ^ (e1 - e) = 0)
          by (rewrite E, Hsplit; apply Z.mod_mul; lia).
        rewrite (Hexact M), E, Hsplit, Z.div_mul by lia. lia.
      - assert (Z.pos p / 2 ^ (e1 - e) < 25 * 2 ^ (2 - e1)); [| lia].
        apply Z.div_lt_upper_bound; [exact P |].
        rewrite Z.mul_comm, <- Hsplit. lia. }
    destruct (Z.eqb_spec m1 (2 ^ 53)) as [E53 | N53].
    + replace (e1 + 1 <=? 971) with true by (symmetry; apply Z.leb_le; lia).
      apply SFleb_finite_hundred.
      destruct (Z.eq_dec e1 (-46)) as [E | Hne].
      * exfalso. rewrite E in Hup. change (25 * 2 ^ (2 - -46)) with (25 * 2 ^ 48) in Hup.
        rewrite E53 in Hup. revert Hup. apply Z.lt_nge. reflexivity.
      * destruct (Z.eq_dec (e1 + 1) (-46)) as [E | Hne']; [right | left; lia].
        split; [exact E |]. apply Z.leb_le. reflexivity.
    + destruct m1 as [| m | m]; [reflexivity | | lia].
      replace (e1 <=? 971) with true by (symmetry; apply Z.leb_le; lia).
      apply SFleb_finite_hundred.
      destruct (Z.eq_dec e1 (-46)) as [E | Hne]; [right | left; lia].
      split; [exact E |]. rewrite E in Hup. exact Hup.
Qed.

(** A hundred times a double of [[0, 1]] is at most 100. *)
Lemma SFmul_hundred_le (x : spec_float) :
  valid_binary x = true -> nonneg x -> SFleb x one = true ->
  SFleb (SF64mul x hundred) hundred = true.
Proof.
  intros V Hn Hle.
  destruct x as [s | [] | | [] m e]; cbn [nonneg] in Hn; try tauto;
    try discriminate.
  unfold SF64mul, SFmul, hundred. cbn [xorb].
  cbn [valid_binary] in V. unfold bounded, canonical_mantissa in V.
  apply andb_true_iff in V. destruct V as [V _]. apply Z.eqb_eq in V.
  rewrite fexp64_eq in V.
  pose proof (digits2_bounds m) as [_ Hd].
  assert (Hm : e <= -52 /\ Z.pos m <= 2 ^ (- e)).
  { unfold SFleb, SFcompare, one in Hle.
    destruct (Z.compare_spec e (-52)) as [E | E | E]; [| | discriminate].
    - subst e. split; [lia |].
      destruct (Pos.compare_cont Eq m 4503599627370496) eqn:C; try discriminate.
      + apply Pos.compare_eq in C. subst m. apply Z.leb_le. reflexivity.
      + apply Pos.compare_lt_iff in C.
        change (2 ^ (- -52)) with (Z.pos 4503599627370496).
        apply Pos2Z.pos_le_pos, Pos.lt_le_incl, C.
    - split; [lia |].
      assert (Z.pos (digits2_pos m) <= 53) by lia.
      assert (2 ^ Z.pos (digits2_pos m) <= 2 ^ (- e))
        by (apply Z.pow_le_mono_r; lia).
      lia. }
  destruct Hm as [He Hm].
  apply bra_le_hundred; [lia |].
  rewrite Pos2Z.inj_mul. change (Z.pos 7036874417766400) with (25 * 2 ^ 48).
  replace (2 - (e + -46)) with (48 + - e) by lia.
  rewrite Z.pow_add_r by lia.
  assert (0 < 2 ^ 48) by reflexivity. nia.
Qed.

Lemma SFsub_hundred_le (q : spec_float) :
  nonneg q -> SFleb (SF64sub hundred q) hundred = true.
Proof.
  destruct q as [s | [] | | [] m e]; cbn [nonneg]; try tauto; intros _;
    try reflexivity.
  unfold SF64sub, SFsub, hundred.
  set (ez := Z.min (-46) e).
  pose proof (shl_align_spec 7036874417766400 (-46) ez) as A.
  pose proof (shl_align_spec m e ez) as B.
  destruct (shl_align 7036874417766400 (-46) ez) as [ma ea].
  destruct (shl_align m e ez) as [mb eb]. cbn [fst cond_Zopp].
  destruct A as [Ea Ma], B as [Eb Mb].
  assert (Ea' : ea = ez) by (unfold ez in *; lia).
  assert (Ma' : Z.pos ma = 25 * 2 ^ (2 - ez)).
  { rewrite Ma, Ea'. change (Z.pos 7036874417766400) with (25 * 2 ^ 48).
    rewrite <- Z.mul_assoc, <- Z.pow_add_r by (unfold ez; lia). do 2 f_equal. lia. }
  destruct (Z.pos ma - Z.pos mb) as [| p | p] eqn:D; cbn [binary_normalize].
  - reflexivity.
  - unfold binary_round.
    pose proof (shl_align_spec p ez (fexp64 (Z.pos (digits2_pos p) + ez))) as C.
    destruct (shl_align p ez (fexp64 (Z.pos (digits2_pos p) + ez))) as [mz ez'].
    destruct C as [Ec Mc].
    apply bra_le_hundred; [unfold ez in *; lia |].
    rewrite Mc.
    assert (Hp : Z.pos p <= 25 * 2 ^ (2 - ez)) by lia.
    assert (P : 0 < 2 ^ (ez - ez')) by (apply Z.pow_pos_nonneg; lia).
    replace (2 ^ (2 - ez')) with (2 ^ (2 - ez) * 2 ^ (ez - ez'))
      by (rewrite <- Z.pow_add_r by (unfold ez in *; lia); f_equal; lia).
    nia.
  - apply SFleb_hundred_signed_true, binary_round_signed.
Qed.

End Hundred.

(** ** The range of the confidence *)

Section NotNaN.

Lemma SFadd_finite_not_nan (x y : spec_float) :
  x <> S754_nan -> finite y -> SF64add x y <> S754_nan.
Proof.
  destruct x as [sx | sx | | sx mx ex], y as [sy | sy | | sy my ey];
    simpl; try tauto; intros _ _; try discriminate.
  - destruct sx, sy; discriminate.
  - apply binary_normalize_not_nan.
Qed.

Lemma SFsub_finite_l (x y : spec_float) :
  finite x -> y <> S754_nan -> SF64sub x y <> S754_nan.
Proof.
  destruct x as [sx | sx | | sx mx ex], y as [sy | sy | | sy my ey];
    simpl; try tauto; intros _ _; try discriminate.
  - destruct sx, sy; discriminate.
  - apply binary_normalize_not_nan.
Qed.

Lemma SFdiv_finite_not_nan (x : spec_float) (sy : bool) (my : positive) (ey : Z) :
  x <> S754_nan -> SF64div x (S754_finite sy my ey) <> S754_nan.
Proof.
  destruct x as [sx | sx | | sx mx ex]; simpl; try tauto; intros _;
    try discriminate.
  unfold SF64div, SFdiv.
  destruct (SFdiv_core_binary prec emax (Z.pos mx) ex (Z.pos my) ey)
    as [[mz ez] lz] eqn:E.
  eapply signed_not_nan, bra_signed.
  unfold SFdiv_core_binary in E.
  destruct (Z.div_eucl _ (Z.pos my)) as [q r] eqn:Q in E.
  inversion E; subst. clear E.
  match type of Q with Z.div_eucl ?a ?b = _ =>
    assert (Ha : (0 <= a)%Z);
    [ | pose proof (Z.div_eucl_eq a b ltac:(lia)) as D;
        pose proof (Z.mod_pos_bound a b ltac:(lia)) as B;
        unfold Z.modulo in B; rewrite Q in D, B; nia ]
  end.
  destruct (ex - ey - _)%Z eqn:S; try lia.
  apply Z.shiftl_nonneg. lia.
Qed.

End NotNaN.

Section ConfidenceRange.
Import JS QualityAggregator.
Local Open Scope R_scope.

Lemma small_integer_range (n : nat) :
  (n <= 100)%nat ->
  (0 <=? ofZ (Z.of_nat n))%float = true /\ (ofZ (Z.of_nat n) <=? 100)%float = true.
Proof.
  intros H.
  do 101 (destruct n as [| n]; [split; vm_compute; reflexivity |]).
  lia.
Qed.

(** [Math.round] keeps a double of [[0, 100.25]] inside [[0, 100]]. *)
Lemma Math_round_range (c : float) :
  nonneg (Prim2SF c) -> within 0 (401 / 4) c ->
  (0 <=? Math_round c)%float = true /\ (Math_round c <=? 100)%float = true.
Proof.
  intros Hn [Hf Hv]. unfold val in Hv.
  pose proof (Prim2SF_valid c) as V.
  unfold Math_round.
  destruct (Prim2SF c) as [s | s | | s m e] eqn:E;
    cbn [nonneg finite] in Hn, Hf; try tauto.
  - rewrite !leb_spec, E. destruct s; split; reflexivity.
  - destruct s; [tauto |]. cbn [SF2R] in Hv. unfold F2R in Hv.
    cbn [valid_binary] in V. unfold bounded, canonical_mantissa in V.
    apply andb_true_iff in V. destruct V as [V _]. apply Z.eqb_eq in V.
    rewrite fexp64_eq in V.
    pose proof (digits2_bounds m) as [Hd _].
    pose proof (bpow_pos e) as Pe.
    assert (Pm : 1 <= IZR (Z.pos m)) by (apply IZR_le; lia).
    assert (He : (e < 0)%Z).
    { destruct (Z.lt_ge_cases e 0) as [L | L]; [exact L | exfalso].
      assert (D : Z.pos (digits2_pos m) = 53%Z) by lia.
      rewrite D in Hd. apply IZR_le in Hd. rewrite IZR_pow2 in Hd by lia.
      pose proof (bpow_le 0 e ltac:(lia)) as B0. change (bpow 0) with 1 in B0.
      pose proof (bpow_le 7 (53 - 1) ltac:(lia)) as B7.
      assert (bpow 7 = 128) by (unfold bpow; simpl; lra).
      nra. }
    replace (0 <=? e)%Z with false by (symmetry; apply Z.leb_gt; exact He).
    set (k := (- e)%Z). replace (1 - e)%Z with (k + 1)%Z by (unfold k; lia).
    assert (Hk : (0 < k)%Z) by (unfold k; lia).
    assert (P : (0 < 2 ^ k)%Z) by (apply Z.pow_pos_nonneg; lia).
    assert (Hm : (4 * Z.pos m <= 401 * 2 ^ k)%Z).
    { apply le_IZR. rewrite !mult_IZR, IZR_pow2 by lia.
      assert (B : bpow e * bpow k = 1).
      { rewrite <- bpow_add. unfold k. replace (e + - e)%Z with 0%Z by lia.
        reflexivity. }
      pose proof (bpow_pos k) as Pk.
      assert (IZR (Z.pos m) = IZR (Z.pos m) * bpow e * bpow k)
        by (rewrite Rmult_assoc, B; lra).
      set (t := IZR (Z.pos m) * bpow e) in *. nra. }
    set (z := ((2 * Z.pos m + 2 ^ k) / 2 ^ (k + 1))%Z).
    assert (Hz : (0 <= z <= 100)%Z).
    { unfold z. rewrite Z.pow_add_r by lia. change (2 ^ 1)%Z with 2%Z.
      split; [apply Z.div_pos; lia |].
      assert ((2 * Z.pos m + 2 ^ k) / (2 ^ k * 2) < 101)%Z; [| lia].
      apply Z.div_lt_upper_bound; lia. }
    destruct (Z.eqb_spec z 0) as [_ | _]; [split; reflexivity |].
    rewrite <- (Z2Nat.id z) by lia.
    apply small_integer_range. lia.
Qed.

Lemma Math_max_zero_le (s b : float) :
  (s <=? b)%float = true -> (0 <=? b)%float = true ->
  (0 <=? Math_max 0 s)%float = true /\ (Math_max 0 s <=? b)%float = true.
Proof.
  intros H H0. unfold Math_max. rewrite (leb_not_nan _ _ H).
  change (is_nan 0 || false)%bool with false. cbv iota.
  destruct (0 <? s)%float eqn:L.
  - split; [apply ltb_leb, L | exact H].
  - change (get_sign 0) with false. destruct (s <? 0)%float; split; (reflexivity || exact H0).
Qed.

Lemma sum_not_nan (scores : list number) (a : number) :
  Forall (fun v => finite (Prim2SF v)) scores ->
  Prim2SF a <> S754_nan ->
  Prim2SF (fold_left (fun a b => (a + b)%float) scores a) <> S754_nan.
Proof.
  intros H. revert a. induction H as [| v l Hv _ IH]; intros a Ha; [exact Ha |].
  cbn [fold_left]. apply IH. rewrite FloatAxioms.add_spec.
  apply SFadd_finite_not_nan; assumption.
Qed.

Lemma squares_nonneg (scores : list number) (average a : number) :
  Forall (fun v => finite (Prim2SF v)) scores ->
  Prim2SF average <> S754_nan ->
  nonneg (Prim2SF a) ->
  nonneg (Prim2SF (fold_left (fun a b => (a + Math_pow2 (b - average))%float)
                             scores a)).
Proof.
  intros H Havg. revert a. induction H as [| v l Hv _ IH]; intros a Ha; [exact Ha |].
  cbn [fold_left]. apply IH. rewrite FloatAxioms.add_spec.
  apply SFadd_nonneg; [exact Ha |].
  unfold Math_pow2. rewrite FloatAxioms.mul_spec, FloatAxioms.sub_spec.
  apply SFmul_self_nonneg, SFsub_finite_l; assumption.
Qed.

Lemma confidence_in_range (bd : Breakdown) :
  Forall (fun v => finite (Prim2SF v)) (values bd) ->
  (0 <=? calculateConfidence bd)%float = true
  /\ (calculateConfidence bd <=? 100)%float = true.
Proof.
  intros Hf. unfold calculateConfidence, sum.
  change (ofNat (List.length (values bd))) with 6%float.
  set (scores := values bd) in *.
  set (average := (fold_left (fun a b => a + b) scores 0 / 6)%float).
  assert (Havg : Prim2SF average <> S754_nan).
  { unfold average. rewrite div_spec.
    change (Prim2SF 6) with (S754_finite false 6755399441055744 (-50)).
    apply SFdiv_finite_not_nan, sum_not_nan; [exact Hf | discriminate]. }
  set (variance :=
         (fold_left (fun a b => a + Math_pow2 (b - average)) scores 0 / 6)%float).
  assert (Hvar : nonneg (Prim2SF variance)).
  { unfold variance. rewrite div_spec.
    eapply SFdiv_nonneg with (my := 6755399441055744%positive) (ey := (-50)%Z);
      [| reflexivity].
    apply squares_nonneg; [exact Hf | exact Havg | exact I]. }
  set (sd := Math_sqrt variance).
  assert (Hsd : nonneg (Prim2SF sd)).
  { unfold sd, Math_sqrt. rewrite sqrt_spec. apply SFsqrt_nonneg, Hvar. }
  assert (Hc : (100 - sd <=? 100)%float = true).
  { rewrite leb_spec, FloatAxioms.sub_spec. apply SFsub_hundred_le, Hsd. }
  destruct (Math_max_zero_le _ _ Hc eq_refl) as [M0 M100].
  apply Math_round_range.
  - apply leb_zero_nonneg, M0.
  - eapply within_weaken; [apply (score_within _ M0 M100) | lra | lra].
Qed.

(** For every breakdown of six finite numbers, whatever their size or
    sign, the confidence is a double between 0 and 100. *)
Theorem confidence_range (bd : Breakdown)
        (Hfinite : Forall (fun v => finite (Prim2SF v)) (values bd)) :
  (0 <=? calculateConfidence bd)%float = true
  /\ (calculateConfidence bd <=? 100)%float = true.
Proof. exact (confidence_in_range bd Hfinite). Qed.

Lemma confidence_range_witness :
  (0 <=? calculateConfidence scenario)%float = true
  /\ (calculateConfidence scenario <=? 100)%float = true.
Proof.
  apply (confidence_range scenario).
  repeat constructor.
Defined.

End ConfidenceRange.

(** ** The range of the overall score *)

Section OverallRange.
Import JS QualityAggregator.
Local Open Scope R_scope.

Lemma SFmul_error (x y : spec_float) :
  small x -> small y -> nonneg x -> nonneg y -> SF2R x * SF2R y < bpow 10 ->
  finite (SF64mul x y)
  /\ SF2R x * SF2R y - delta <= SF2R (SF64mul x y) <= SF2R x * SF2R y + delta.
Proof.
  pose proof (bpow_pos (-43)) as D. fold delta in D.
  destruct x as [sx | sx | | sx mx ex], y as [sy | sy | | sy my ey];
    cbn [small nonneg]; try tauto; intros Hx Hy Nx Ny H.
  - cbn [SF64mul SFmul finite SF2R]. split; [exact I | lra].
  - cbn [SF64mul SFmul finite SF2R]. split; [exact I | lra].
  - cbn [SF64mul SFmul finite SF2R]. split; [exact I | lra].
  - destruct sx; [tauto |]. destruct sy; [tauto |].
    unfold SF64mul, SFmul. cbn [xorb SF2R] in *.
    set (X := IZR (Z.pos (mx * my)) * bpow (ex + ey)).
    assert (EX : X = F2R (Z.pos mx) ex * F2R (Z.pos my) ey).
    { unfold X, F2R. rewrite Pos2Z.inj_mul, mult_IZR, bpow_add. ring. }
    pose proof (bpow_pos (ex + ey)) as Pe.
    assert (PX : 0 <= X).
    { unfold X. apply Rmult_le_pos; [apply IZR_le; lia | lra]. }
    destruct (bra_error_small false (Z.pos (mx * my)) (ex + ey) loc_Exact X)
      as [F [y [V [Y0 Y]]]]; try lia.
    + unfold X. nra.
    + rewrite EX. exact H.
    + split; [exact F |]. rewrite V, <- EX. unfold sgn. lra.
Qed.

(** One step of the weighted sum. *)
Lemma add_term (acc v w : float) (A U H hw : R) :
  within A U acc -> nonneg (Prim2SF acc) ->
  within 0 H v -> nonneg (Prim2SF v) ->
  within 0 hw w -> (exists m e, Prim2SF w = S754_finite false m e) ->
  - 1 <= A <= 0 -> 0 <= U <= 200 -> H <= 101 -> hw <= 1 ->
  within (A - 2 * delta) (U + H * hw + 2 * delta) (acc + v * w)%float
  /\ nonneg (Prim2SF (acc + v * w)%float).
Proof.
  intros Hacc Nacc Hv Nv Hw [m [e Ew]] HA HU HH Hhw.
  assert (D0 : 0 < delta) by apply bpow_pos.
  assert (D1 : delta < 1).
  { unfold delta. pose proof (bpow_lt (-43) 0 ltac:(lia)) as L.
    change (bpow 0) with 1 in L. exact L. }
  assert (B10 : bpow 10 = 1024) by (unfold bpow; simpl; lra).
  assert (Sv : small (Prim2SF v)) by (apply (within_small _ _ _ Hv); lra).
  assert (Sw : small (Prim2SF w)) by (apply (within_small _ _ _ Hw); lra).
  assert (Nw : nonneg (Prim2SF w)) by (rewrite Ew; exact I).
  pose proof (nonneg_val _ Nv) as V0. pose proof (nonneg_val _ Nw) as W0.
  destruct Hv as [_ Vv], Hw as [_ Vw]. unfold val in *.
  destruct (SFmul_error _ _ Sv Sw Nv Nw) as [Fp Ep]; [nra |].
  assert (Hp : within (- delta) (H * hw + delta) (v * w)%float).
  { unfold within, val. rewrite FloatAxioms.mul_spec. split; [exact Fp |]. nra. }
  assert (Np : nonneg (Prim2SF (v * w)%float)).
  { rewrite FloatAxioms.mul_spec, Ew. apply SFmul_nonneg_finite, Nv. }
  assert (HHhw : H * hw <= 101).
  { destruct (Rle_dec 0 H); nra. }
  assert (HHhw0 : 0 <= H * hw) by nra.
  split.
  - pose proof (add_within _ _ _ _ _ _ Hacc Hp) as S.
    eapply within_weaken; [apply S; lra | lra | lra].
  - rewrite FloatAxioms.add_spec. apply SFadd_nonneg; assumption.
Qed.

Lemma weight_quarter : within 0 (1 / 4) 0.25%float.
Proof.
  split; [exact I |]. unfold val.
  change (Prim2SF 0.25) with (S754_finite false 4503599627370496 (-54)).
  cbn [SF2R]. unfold F2R.
  change (Z.pos 4503599627370496) with (2 ^ 52)%Z. rewrite IZR_pow2 by lia.
  rewrite <- bpow_add. change (52 + -54)%Z with (-2)%Z.
  unfold bpow. simpl. lra.
Qed.

(** A double [m * 2^e] with [m <= n * 2^(-e-k)] is at most [n / 2^k]. *)
Lemma F2R_upper (m : positive) (e : Z) (n k : Z) :
  (0 <= k)%Z -> (0 <= - e - k)%Z -> (Z.pos m <= n * 2 ^ (- e - k))%Z ->
  F2R (Z.pos m) e <= IZR n * bpow (- k).
Proof.
  intros Hk Hek H. unfold F2R.
  apply IZR_le in H. rewrite mult_IZR, IZR_pow2 in H by lia.
  assert (B : bpow (- e - k) * bpow e = bpow (- k))
    by (rewrite <- bpow_add; f_equal; lia).
  pose proof (bpow_pos e). rewrite <- B. nra.
Qed.

Lemma weight_bound (w : float) (m : positive) (e : Z) (n : Z) :
  Prim2SF w = S754_finite false m e ->
  (0 <= - e - 10)%Z -> (Z.pos m <= n * 2 ^ (- e - 10))%Z ->
  within 0 (IZR n / 1024) w.
Proof.
  intros E He H. split; [rewrite E; exact I |]. unfold val. rewrite E. cbn [SF2R].
  split.
  - unfold F2R. apply Rmult_le_pos; [apply IZR_le; lia | left; apply bpow_pos].
  - pose proof (F2R_upper m e n 10 ltac:(lia) He H) as U.
    assert (B : bpow (- (10)) = / 1024) by (unfold bpow; simpl; lra).
    rewrite B in U. unfold Rdiv. exact U.
Qed.


Lemma totals_unrolled (bd : Breakdown) :
  totals bd
  = ((0 + visualSimilarity bd * 0.25 + layoutAccuracy bd * 0.20
      + colorMatching bd * 0.15 + typographyMatch bd * 0.15
      + interactionElements bd * 0.15 + brandConsistency bd * 0.10)%float,
     1%float).
Proof. reflexivity. Qed.

Definition inScoreRange (v : number) : Prop :=
  nonneg (Prim2SF v) /\ within 0 (10001 / 100) v.

Lemma overall_in_range (bd : Breakdown) :
  Forall inScoreRange (values bd) ->
  (0 <=? calculateOverallScore bd)%float = true
  /\ (calculateOverallScore bd <=? 100)%float = true.
Proof.
  intros H. unfold calculateOverallScore. rewrite totals_unrolled.
  cbn [values entries List.map snd] in H.
  apply Forall_cons_iff in H. destruct H as [[Na Ha] H].
  apply Forall_cons_iff in H. destruct H as [[Nb Hb] H].
  apply Forall_cons_iff in H. destruct H as [[Nc Hc] H].
  apply Forall_cons_iff in H. destruct H as [[Nd Hd] H].
  apply Forall_cons_iff in H. destruct H as [[Ne He] H].
  apply Forall_cons_iff in H. destruct H as [[Nf Hf] _].
  assert (D0 : 0 < delta) by apply bpow_pos.
  assert (D1 : delta <= / 1024).
  { unfold delta. pose proof (bpow_le (-43) (-10) ltac:(lia)) as L.
    assert (bpow (-10) = / 1024) by (unfold bpow; simpl; lra). lra. }
  assert (B10 : bpow 10 = 1024) by (unfold bpow; simpl; lra).
  assert (W1 : within 0 (IZR 256 / 1024) 0.25%float)
    by (apply (weight_bound _ 4503599627370496 (-54));
        [reflexivity | lia | apply Z.leb_le; reflexivity]).
  assert (W2 : within 0 (IZR 205 / 1024) 0.20%float)
    by (apply (weight_bound _ 7205759403792794 (-55));
        [reflexivity | lia | apply Z.leb_le; reflexivity]).
  assert (W3 : within 0 (IZR 154 / 1024) 0.15%float)
    by (apply (weight_bound _ 5404319552844595 (-55));
        [reflexivity | lia | apply Z.leb_le; reflexivity]).
  assert (W4 : within 0 (IZR 103 / 1024) 0.10%float)
    by (apply (weight_bound _ 7205759403792794 (-56));
        [reflexivity | lia | apply Z.leb_le; reflexivity]).
  assert (Z0 : within 0 0 0%float) by (split; [exact I | unfold val; simpl; lra]).
  destruct (add_term _ _ _ _ _ _ _ Z0 I Ha Na W1) as [S1 N1];
    [do 2 eexists; reflexivity | lra | lra | lra | lra |].
  destruct (add_term _ _ _ _ _ _ _ S1 N1 Hb Nb W2) as [S2 N2];
    [do 2 eexists; reflexivity | lra | lra | lra | lra |].
  destruct (add_term _ _ _ _ _ _ _ S2 N2 Hc Nc W3) as [S3 N3];
    [do 2 eexists; reflexivity | lra | lra | lra | lra |].
  destruct (add_term _ _ _ _ _ _ _ S3 N3 Hd Nd W3) as [S4 N4];
    [do 2 eexists; reflexivity | lra | lra | lra | lra |].
  destruct (add_term _ _ _ _ _ _ _ S4 N4 He Ne W3) as [S5 N5];
    [do 2 eexists; reflexivity | lra | lra | lra | lra |].
  destruct (add_term _ _ _ _ _ _ _ S5 N5 Hf Nf W4) as [S6 N6];
    [do 2 eexists; reflexivity | lra | lra | lra | lra |].
  clear S1 S2 S3 S4 S5 N1 N2 N3 N4 N5.
  set (total := (0 + visualSimilarity bd * 0.25 + layoutAccuracy bd * 0.20
                 + colorMatching bd * 0.15 + typographyMatch bd * 0.15
                 + interactionElements bd * 0.15
                 + brandConsistency bd * 0.10)%float) in *.
  pose proof (nonneg_val _ N6) as T0.
  assert (St : small (Prim2SF total)) by (apply (within_small _ _ _ S6); lra).
  destruct S6 as [_ S6]. unfold val in *.
  assert (V1 : SF2R (Prim2SF 1) = 1).
  { change (Prim2SF 1) with (S754_finite false 4503599627370496 (-52)).
    cbn [SF2R]. unfold F2R.
    change (Z.pos 4503599627370496) with (2 ^ 52)%Z. rewrite IZR_pow2 by lia.
    rewrite <- bpow_add. reflexivity. }
  destruct (SFdiv_error (Prim2SF total) (Prim2SF 1) 4503599627370496 (-52) St)
    as [Fq Eq]; [lra | reflexivity | lra |].
  rewrite V1 in Eq. unfold Rdiv in Eq. rewrite Rinv_1, Rmult_1_r in Eq.
  apply Math_round_range.
  - rewrite div_spec.
    eapply SFdiv_nonneg with (my := 4503599627370496%positive) (ey := (-52)%Z);
      [exact N6 | reflexivity].
  - split; [rewrite div_spec; exact Fq |].
    unfold val. rewrite div_spec.
    assert (Q0 : 0 <= SF2R (SF64div (Prim2SF total) (Prim2SF 1))).
    { rewrite <- div_spec. apply nonneg_val. rewrite div_spec.
      eapply SFdiv_nonneg with (my := 4503599627370496%positive) (ey := (-52)%Z);
        [exact N6 | reflexivity]. }
    lra.
Qed.

Lemma overall_of_percentages (bd : Breakdown) :
  Forall (fun v => (0 <=? v)%float = true /\ (v <=? 100)%float = true)
         (values bd) ->
  (0 <=? calculateOverallScore bd)%float = true
  /\ (calculateOverallScore bd <=? 100)%float = true.
Proof.
  intros Hscores. apply overall_in_range.
  eapply Forall_impl; [| exact Hscores].
  intros v [H0 H100]. split; [apply leb_zero_nonneg, H0 |].
  eapply within_weaken; [apply (score_within v H0 H100) | lra | lra].
Qed.



End OverallRange.

(** ** The scores of [validateUI] *)

Section ValidateUIRange.
Import JS QualityAggregator UIValidator.

Variable resize : nat -> nat -> PixelComparator.Image -> PixelComparator.Image.

Definition percent (v : number) : Prop :=
  (0 <=? v)%float = true /\ (v <=? 100)%float = true.

Lemma similarity_in_unit (original rendered : option PixelComparator.Image) :
  PixelComparator.readable original -> PixelComparator.readable rendered ->
  let s := PixelComparator.similarity
             (PixelComparator.comparePixelLevel resize original rendered) in
  (0 <=? s)%float = true /\ (s <=? 1)%float = true.
Proof.
  intros Ho Hr.
  destruct original as [original |], rendered as [rendered |];
    try (cbv zeta; split; reflexivity).
  cbv zeta. unfold PixelComparator.comparePixelLevel.
  cbn [PixelComparator.similarity].
  rewrite scan_scanOrder, pixelCount_fold, totalDifference_fold, length_scanOrder.
  cbn [PixelComparator.pixelCount PixelComparator.totalDifference Nat.add].
  eapply similarity_bounds.
  - apply total_nonneg. exact I.
  - apply maxPossible_normal, count_in_range; assumption.
Qed.

Lemma times_hundred (s : number) :
  (0 <=? s)%float = true -> (s <=? 1)%float = true -> percent (s * 100)%float.
Proof.
  intros H0 H1. pose proof (leb_zero_nonneg _ H0) as Hn. split.
  - apply nonneg_leb_zero. rewrite FloatAxioms.mul_spec.
    change (Prim2SF 100) with (S754_finite false 7036874417766400 (-46)).
    apply SFmul_nonneg_finite, Hn.
  - rewrite leb_spec, FloatAxioms.mul_spec.
    apply SFmul_hundred_le; [apply Prim2SF_valid | exact Hn |].
    rewrite leb_spec in H1. exact H1.
Qed.

Lemma thirty_nonneg (x : number) :
  (30 <=? x)%float = true -> (0 <=? x)%float = true.
Proof.
  rewrite !leb_spec.
  change (Prim2SF 30) with (S754_finite false 8444249301319680 (-48)).
  change (Prim2SF 0) with (S754_zero false).
  destruct (Prim2SF x) as [s | [] | | [] m e]; intros H; try discriminate; reflexivity.
Qed.

Lemma percent_finite (v : number) : percent v -> finite (Prim2SF v).
Proof. intros [H0 H100]. apply (score_within v H0 H100). Qed.

Lemma validateUI_in_range (original rendered : option PixelComparator.Image)
      (content : option (option string)) (code : jsstring)
      (analysisResult : Advanced.AnalysisResult) :
  PixelComparator.readable original -> PixelComparator.readable rendered ->
  (Z.of_nat (List.length code) < 2 ^ 53 - 1)%Z ->
  (forall n, Advanced.children analysisResult = Some n -> (Z.of_nat n < 2 ^ 53)%Z) ->
  (Z.of_nat (Advanced.interactionElements analysisResult) < 2 ^ 53)%Z ->
  let result := validateUI resize original rendered content code analysisResult in
  Forall percent (values (breakdown result))
  /\ percent (overallScore result) /\ percent (confidence result).
Proof.
  intros Ho Hr Hcode Hchildren Hinteractions result.
  assert (Hb : Forall percent (values (breakdown result))).
  { unfold result, validateUI. cbn [breakdown values entries List.map snd].
    destruct (similarity_in_unit original rendered Ho Hr) as [S0 S1].
    destruct (structure_scores_range code analysisResult Hcode Hchildren
                Hinteractions) as [L [I _]].
    destruct (brandConsistency_values (Advanced.detectedBrand analysisResult) code)
      as [_ [B30 B100]].
    repeat apply Forall_cons; try apply Forall_nil.
    - apply times_hundred; assumption.
    - exact L.
    - destruct content; split; reflexivity.
    - destruct content; split; reflexivity.
    - exact I.
    - split; [apply (thirty_nonneg _ B30) | exact B100]. }
  split; [exact Hb |]. split.
  - apply overall_of_percentages. exact Hb.
  - apply confidence_in_range.
    eapply Forall_impl; [| exact Hb]. exact percent_finite.
Qed.


(** When both images are readable (or fail to load) and the source
    text and the expected counts have sizes a program can hold, every
    entry of the breakdown of [validateUI], its overall score and its
    confidence are doubles between 0 and 100. *)
Theorem validateUI_scores_in_range
        (original rendered : option PixelComparator.Image)
        (content : option (option string)) (code : jsstring)
        (analysisResult : Advanced.AnalysisResult)
        (Horiginal : PixelComparator.readable original)
        (Hrendered : PixelComparator.readable rendered)
        (Hcode : (Z.of_nat (List.length code) < 2 ^ 53 - 1)%Z)
        (Hchildren : forall n, Advanced.children analysisResult = Some n ->
                               (Z.of_nat n < 2 ^ 53)%Z)
        (Hinteractions :
           (Z.of_nat (Advanced.interactionElements analysisResult) < 2 ^ 53)%Z) :
  let result := validateUI resize original rendered content code analysisResult in
  Forall percent (values (breakdown result))
  /\ percent (overallScore result) /\ percent (confidence result).
Proof.
  exact (validateUI_in_range original rendered content code analysisResult
           Horiginal Hrendered Hcode Hchildren Hinteractions).
Qed.

End ValidateUIRange.

Section ValidateUIExamples.
Import JS QualityAggregator UIValidator.

Lemma validateUI_scores_in_range_witness :
  let result :=
    validateUI PixelComparator.keep
      (Some (PixelComparator.solid 2 1 PixelComparator.black))
      (Some PixelComparator.redThenWhite) None (str "<div onclick=f()></div>")
      {| Advanced.children := None; Advanced.interactionElements := 1;
         Advanced.detectedBrand := Some "toss"%string |} in
  Forall percent (values (breakdown result))
  /\ percent (overallScore result) /\ percent (confidence result).
Proof.
  apply (validateUI_scores_in_range PixelComparator.keep
           (Some (PixelComparator.solid 2 1 PixelComparator.black))
           (Some PixelComparator.redThenWhite) None (str "<div onclick=f()></div>")
           {| Advanced.children := None; Advanced.interactionElements := 1;
              Advanced.detectedBrand := Some "toss"%string |}).
  - unfold PixelComparator.readable, PixelComparator.decodable. simpl. lia.
  - unfold PixelComparator.readable, PixelComparator.decodable. simpl. lia.
  - vm_compute. reflexivity.
  - intros n H. discriminate H.
  - vm_compute. reflexivity.
Defined.

End ValidateUIExamples.
